(** * Zoiper5 RPC API wrapper: the RPC manager (src/src/rpc-manager.ts)

    A shallow embedding of [RPCManager] and of the part of the JavaScript
    world it touches (identity of objects, property descriptors, promises),
    followed by the properties of the manager that its specification
    states, and by further properties read off the code.

    Conventions of the embedding.
    - A JavaScript number is an integer ([Z]); the manager uses numbers only
      as handles and otherwise passes them through untouched.  (The counter
      of handles is far from 2^53 in any session.)
    - Values on the wire have the declared type [SerializedValue], plus null
      and arrays of names; a handle on the wire is a number.
    - Objects and functions are references into a heap that only grows; the
      [WeakMap] [_scriptObjectIdMap] is a finite map keyed by reference.  A
      function of the caller is what it returns or throws; that it was
      applied, and to what, is recorded in the state.
    - An [async] function is a state transformer that runs up to its first
      suspension point and returns the suspended [Task]; the task resumes
      when the reply to the request it awaits is delivered.  A delivered
      message is processed until every task is suspended again or settled
      before the next message is looked at (messages arrive as separate
      events of the transport).
    - A promise that is resolved with an object is fulfilled with that
      object, as it is for every object that has no member named "then";
      the objects of the caller are ordinary functions and objects, or
      carry what [instanceof Object], [typeof] and the conversion to a
      string make of them ([HeapObject]).
    - The JSON-RPC engine ([simple-jsonrpc-js]) is an external collaborator:
      [call] hands one request to [sendMessage] at once and settles with the
      result of the reply, or rejects with its error; it numbers its
      requests from 1; it answers an inbound call when the handler
      settles. *)

From Stdlib Require Import ZArith String Ascii List Bool Lia DecimalString.
From stdpp Require Import base option list gmap.

Open Scope Z_scope.
Open Scope string_scope.

(* ===================================================================== *)
(** ** Constants *)
(* ===================================================================== *)

(** src/src/const/rpc-server-methods.ts *)
Definition API_SERVER_METHOD_AUTHENTICATE : string := "authenticate".
Definition API_SERVER_METHOD_GET_ROOT_OBJECT : string := "getRootObject".
Definition API_SERVER_METHOD_GET_VALUE : string := "get".
Definition API_SERVER_METHOD_SET_VALUE : string := "set".
Definition API_SERVER_METHOD_CALL_FUNCTION : string := "execute".
Definition API_SERVER_METHOD_DESCRIBE_VARIABLES : string := "listProperties".
Definition API_SERVER_METHOD_DESCRIBE_FUNCTIONS : string := "listMethods".

(** Modelled from the spec: src/src/const/rpc-values.ts is not among the
    sources.  The reserved invalid handle is 0 (spec, section 6: "the
    reserved handle value (0) decodes to null"); the two type tags
    [API_VALUE_TYPE_EMPTY = "empty"] and
    [API_VALUE_TYPE_SCRIPT_OBJECT = "scriptObject"] are the constructors
    [WEmpty] and [WScriptObject] of [SerializedValue] below. *)
Definition API_VALUE_INVALID_SCRIPT_OBJECT : Z := 0.

(* ===================================================================== *)
(** ** Values on the wire and local values *)
(* ===================================================================== *)

(** A reference to a local object or function (identity, not structure). *)
Definition Ref := nat.

(** What travels in a request or a reply.  [WBool], [WNum], [WStr],
    [WEmpty] and [WScriptObject] are the declared type [SerializedValue];
    [WNull] and [WArray] are the other JSON values a peer can send (an
    array of names is what the two describe calls answer). *)
Inductive SerializedValue : Type :=
| WBool (b : bool)
| WNum (n : Z)
| WStr (s : string)
| WEmpty                            (* {type: "empty"} *)
| WScriptObject (scriptObject : Z)  (* {type: "scriptObject", scriptObject} *)
| WNull
| WArray (items : list string).

(** The declared type [SerializableValue]. *)
Inductive SerializableValue : Type :=
| VUndefined
| VNull
| VBool (b : bool)
| VNum (n : Z)
| VStr (s : string)
| VObject (r : Ref).                (* an object or a function *)

(** [isPlainValueType(value)], a type guard: where it holds, the value is
    a boolean, a number or a string, the same on both sides of the wire. *)
Definition isPlainValueType (value : SerializableValue) : option SerializedValue :=
  match value with
  | VBool b => Some (WBool b)
  | VNum n => Some (WNum n)
  | VStr s => Some (WStr s)
  | _ => None
  end.

Definition isPlainSerializedType (value : SerializedValue) : option SerializableValue :=
  match value with
  | WBool b => Some (VBool b)
  | WNum n => Some (VNum n)
  | WStr s => Some (VStr s)
  | _ => None
  end.

(** Errors that the code throws, receives or lets through. *)
Inductive Error : Type :=
| JSError (message : string)                (* new Error(message) *)
| UnexpectedValue (value : SerializableValue)  (* Error(`Unexpected value: ${value}`) of _serialize *)
| UnexpectedWire (value : SerializedValue)     (* Error(`Unexpected value: ${value}`) of _deserialize *)
| TypeError (message : string)              (* raised by the language itself *)
| RemoteError (error : SerializedValue).    (* the error member of a reply *)

(** The template literal [`${n}`] for an integer. *)
Definition string_of_Z (n : Z) : string := NilZero.string_of_int (Z.to_int n).

Definition function_not_found (functionId : Z) : Error :=
  JSError ("Function was not found - ID: " ++ string_of_Z functionId).

(* ===================================================================== *)
(** ** Objects built by the manager *)
(* ===================================================================== *)

(** The closures [_createGetter], [_createSetter] and [_createMethod]
    return, as data: each captures the serialized target and a member
    name.  They are three types, as they are three function types in the
    source. *)
Inductive GetterClosure : Type :=
| Getter (serializedTarget : SerializedValue) (propertyName : string).

Inductive SetterClosure : Type :=
| Setter (serializedTarget : SerializedValue) (propertyName : string).

Inductive MethodClosure : Type :=
| Method (serializedTarget : SerializedValue) (methodName : string).

Inductive PropertyDescriptor : Type :=
| AccessorProperty (get : GetterClosure) (set : SetterClosure) (enumerable configurable : bool)
| DataProperty (value : MethodClosure) (writable enumerable configurable : bool).

Record JSObject : Type := {
  properties : list (string * PropertyDescriptor);  (* own properties, in order of definition *)
  extensible : bool
}.

Definition empty_object : JSObject := {| properties := []; extensible := true |}.

Definition configurable (d : PropertyDescriptor) : bool :=
  match d with
  | AccessorProperty _ _ _ c => c
  | DataProperty _ _ _ c => c
  end.

Definition enumerable (d : PropertyDescriptor) : bool :=
  match d with
  | AccessorProperty _ _ e _ => e
  | DataProperty _ _ e _ => e
  end.

Fixpoint getOwnProperty (ps : list (string * PropertyDescriptor)) (name : string)
  : option PropertyDescriptor :=
  match ps with
  | [] => None
  | (n, d) :: rest => if String.eqb n name then Some d else getOwnProperty rest name
  end.

(** [Object.defineProperty(o, name, d)] as the manager uses it: [d] always
    holds freshly created closures, so it never equals an existing
    descriptor, and redefining a non-configurable property throws; a new
    property needs an extensible object. *)
Definition Object_defineProperty (o : JSObject) (name : string) (d : PropertyDescriptor)
  : Error + JSObject :=
  match getOwnProperty (properties o) name with
  | Some current =>
      if configurable current
      then inr {| properties :=
                    map (fun p => if String.eqb (fst p) name then (name, d) else p) (properties o);
                  extensible := extensible o |}
      else inl (TypeError ("Cannot redefine property: " ++ name))
  | None =>
      if extensible o
      then inr {| properties := properties o ++ [(name, d)]; extensible := extensible o |}
      else inl (TypeError ("Cannot define property " ++ name ++ ", object is not extensible"))
  end.

Definition seal_descriptor (d : PropertyDescriptor) : PropertyDescriptor :=
  match d with
  | AccessorProperty g s e _ => AccessorProperty g s e false
  | DataProperty v w e _ => DataProperty v w e false
  end.

(** [Object.seal(o)] *)
Definition Object_seal (o : JSObject) : JSObject :=
  {| properties := map (fun p => (fst p, seal_descriptor (snd p))) (properties o);
     extensible := false |}.

(** [delete o[name]]: succeeds (and removes) unless the property exists and
    is not configurable. *)
Definition delete_property (o : JSObject) (name : string) : bool * JSObject :=
  match getOwnProperty (properties o) name with
  | Some d =>
      if configurable d
      then (true, {| properties := List.filter (fun p => negb (String.eqb (fst p) name)) (properties o);
                     extensible := extensible o |})
      else (false, o)
  | None => (true, o)
  end.

(** What a caller's function does when applied: it returns or it throws
    (for an [async] function: how the promise it returns settles). *)
Inductive Outcome : Type :=
| Returns (v : SerializableValue)
| Throws (e : Error).

(** The objects that exist.  [HFunction] is an ordinary function and
    [HPlain] an ordinary object of the caller: both are instances of
    [Object] and convert to a string.  [HOther] is any other object or
    function of the caller: [instance] is [o instanceof Object] (false for
    an object without a prototype, as [Object.create(null)], and for an
    object of another realm), [body] is what it does when [typeof o] is
    "function", and [conversion] is the error that converting it to a string
    throws, when it throws (a [TypeError] for an object without a
    prototype, anything for an object with a [toString] of its own). *)
Inductive HeapObject : Type :=
| HFunction (body : list SerializableValue -> Outcome)  (* typeof = "function" *)
| HPlain                                                (* an ordinary object of the caller *)
| HProxy (o : JSObject)                                 (* built by _describeScriptObject *)
| HOther (instance : bool) (body : option (list SerializableValue -> Outcome))
         (conversion : option Error).

(* ===================================================================== *)
(** ** Records as the language orders them *)
(* ===================================================================== *)

(** A [Record<string, Function>] is the list of its own properties in the
    order in which they were written.  [Object.entries] and [Object.values]
    do not follow that order blindly: names that are array indices (the
    canonical decimal numeral of an integer below 2^32 - 1) come first, in
    ascending numeric order, and the other names follow in the order in
    which they were written. *)
Definition JSRecord := list (string * Ref).

Definition digit_of (c : ascii) : option N :=
  let n := N_of_ascii c in
  if ((48 <=? n) && (n <=? 57))%N then Some (n - 48)%N else None.

Fixpoint parse_digits (s : string) (acc : N) : option N :=
  match s with
  | EmptyString => Some acc
  | String c rest =>
      match digit_of c with
      | Some d => parse_digits rest (10 * acc + d)%N
      | None => None
      end
  end.

Definition array_index (name : string) : option N :=
  match name with
  | EmptyString => None
  | String c rest =>
      if Ascii.eqb c "0"
      then (if String.eqb rest "" then Some 0%N else None)
      else match parse_digits name 0 with
           | Some n => if (n <? 2 ^ 32 - 1)%N then Some n else None
           | None => None
           end
  end.

Fixpoint insert_by_index (e : N * (string * Ref)) (sorted : list (N * (string * Ref)))
  : list (N * (string * Ref)) :=
  match sorted with
  | [] => [e]
  | x :: rest => if (fst e <? fst x)%N then e :: sorted else x :: insert_by_index e rest
  end.

Definition index_entries (o : JSRecord) : list (N * (string * Ref)) :=
  omap (fun p => match array_index (fst p) with Some n => Some (n, p) | None => None end) o.

Definition Object_entries (o : JSRecord) : list (string * Ref) :=
  map snd (foldr insert_by_index [] (index_entries o))
  ++ List.filter (fun p => match array_index (fst p) with Some _ => false | None => true end) o.

Definition Object_values (o : JSRecord) : list Ref := map snd (Object_entries o).

(* ===================================================================== *)
(** ** The state: the manager, the engine behind [_jrpc], the heap *)
(* ===================================================================== *)

(** What the engine hands to [sendMessage]. *)
Inductive Outbound : Type :=
| OutRequest (id : nat) (method : string) (params : option (list SerializedValue))
| OutResult (id : nat) (result : SerializedValue)
| OutError (id : nat) (error : Error).

Record State : Type := mkState {
  (* the four fields of RPCManager *)
  _lastScriptObjectId : Z;
  _scriptObjectIdMap : gmap Ref Z;
  _globalCallbacksMap : JSRecord;
  _scriptObjectListStack : list (list Ref);
  (* _jrpc: the id of its next request, and what it sent, oldest first *)
  jrpc_id : nat;
  sent : list Outbound;
  (* the objects that exist *)
  heap : list HeapObject;
  (* the applications of the caller's functions so far, oldest first *)
  applied : list (Ref * list SerializableValue)
}.

Definition set_lastScriptObjectId (n : Z) (st : State) : State :=
  mkState n (_scriptObjectIdMap st) (_globalCallbacksMap st) (_scriptObjectListStack st)
          (jrpc_id st) (sent st) (heap st) (applied st).

Definition set_scriptObjectIdMap (m : gmap Ref Z) (st : State) : State :=
  mkState (_lastScriptObjectId st) m (_globalCallbacksMap st) (_scriptObjectListStack st)
          (jrpc_id st) (sent st) (heap st) (applied st).

Definition set_globalCallbacksMap (g : JSRecord) (st : State) : State :=
  mkState (_lastScriptObjectId st) (_scriptObjectIdMap st) g (_scriptObjectListStack st)
          (jrpc_id st) (sent st) (heap st) (applied st).

Definition set_scriptObjectListStack (k : list (list Ref)) (st : State) : State :=
  mkState (_lastScriptObjectId st) (_scriptObjectIdMap st) (_globalCallbacksMap st) k
          (jrpc_id st) (sent st) (heap st) (applied st).

Definition set_heap (h : list HeapObject) (st : State) : State :=
  mkState (_lastScriptObjectId st) (_scriptObjectIdMap st) (_globalCallbacksMap st)
          (_scriptObjectListStack st) (jrpc_id st) (sent st) h (applied st).

(** [sendMessage(message)] *)
Definition sendMessage (message : Outbound) (st : State) : State :=
  mkState (_lastScriptObjectId st) (_scriptObjectIdMap st) (_globalCallbacksMap st)
          (_scriptObjectListStack st) (jrpc_id st) (sent st ++ [message]) (heap st) (applied st).

Definition next_jrpc_id (st : State) : State :=
  mkState (_lastScriptObjectId st) (_scriptObjectIdMap st) (_globalCallbacksMap st)
          (_scriptObjectListStack st) (S (jrpc_id st)) (sent st) (heap st) (applied st).

Definition record_application (fn : Ref) (args : list SerializableValue) (st : State) : State :=
  mkState (_lastScriptObjectId st) (_scriptObjectIdMap st) (_globalCallbacksMap st)
          (_scriptObjectListStack st) (jrpc_id st) (sent st) (heap st) (applied st ++ [(fn, args)]).

(* ===================================================================== *)
(** ** Promises and [async] functions *)
(* ===================================================================== *)

(** The reply to a request. *)
Inductive Response : Type :=
| Result (result : SerializedValue)
| ErrorReply (error : SerializedValue).

(** How a promise stands.  [Pending id k] waits for the reply to request
    [id] and then runs [k]; [All ts k] is [Promise.all] over the promises
    [ts], followed by [k]; [Orphans t bg] is [t] next to promises [bg]
    that still run although nothing waits for them. *)
#[warnings="-register-all"]
Inductive Task : Type :=
| Resolved (v : SerializableValue)
| Rejected (e : Error)
| Pending (id : nat) (k : Response -> State -> State * Task)
| All (ts : list Task) (k : Error + list SerializableValue -> State -> State * Task)
| Orphans (t : Task) (bg : list Task).

Definition Async := State -> State * Task.

Definition Settlement := (Error + SerializableValue)%type.

Definition settled (o : Settlement) : Task :=
  match o with
  | inl e => Rejected e
  | inr v => Resolved v
  end.

(** Run [h] when [t] settles ([then], [catch] and [finally] in one). *)
Fixpoint on_settle (t : Task) (h : Settlement -> Async) (s : State) : State * Task :=
  match t with
  | Resolved v => h (inr v) s
  | Rejected e => h (inl e) s
  | Pending id k =>
      (s, Pending id (fun r s' => let (s'', t') := k r s' in on_settle t' h s''))
  | All ts k =>
      (s, All ts (fun o s' => let (s'', t') := k o s' in on_settle t' h s''))
  | Orphans t bg =>
      let (s', t') := on_settle t h s in (s', Orphans t' bg)
  end.

Definition ret (v : SerializableValue) : Async := fun s => (s, Resolved v).
Definition throw (e : Error) : Async := fun s => (s, Rejected e).

(** [const x = await m; f(x)] *)
Definition bind (m : Async) (f : SerializableValue -> Async) : Async :=
  fun s => let (s1, t) := m s in
           on_settle t (fun o => match o with inr v => f v | inl e => throw e end) s1.

(** [try { return await m } finally { cleanup }] *)
Definition try_finally (m : Async) (cleanup : State -> State) : Async :=
  fun s => let (s1, t) := m s in
           on_settle t (fun o s' => (cleanup s', settled o)) s1.

(** [await this._jrpc.call(method, params)], continued by [k]: the request
    leaves through [sendMessage] at once; an error reply rejects. *)
Definition jrpc_call (method : string) (params : option (list SerializedValue))
    (k : SerializedValue -> Async) : Async :=
  fun s =>
    let id := jrpc_id s in
    (sendMessage (OutRequest id method params) (next_jrpc_id s),
     Pending id (fun r s' =>
       match r with
       | Result response => k response s'
       | ErrorReply e => (s', Rejected (RemoteError e))
       end)).

Definition is_settled (t : Task) : bool :=
  match t with
  | Resolved _ | Rejected _ => true
  | _ => false
  end.

Fixpoint first_rejection (ts : list Task) : option Error :=
  match ts with
  | [] => None
  | Rejected e :: _ => Some e
  | _ :: rest => first_rejection rest
  end.

Fixpoint all_resolved (ts : list Task) : option (list SerializableValue) :=
  match ts with
  | [] => Some []
  | Resolved v :: rest =>
      match all_resolved rest with
      | Some vs => Some (v :: vs)
      | None => None
      end
  | _ => None
  end.

Definition with_orphans (t : Task) (bg : list Task) : Task :=
  match bg with
  | [] => t
  | _ => Orphans t bg
  end.

(** Where [Promise.all(ts)] stands: rejected as soon as one of [ts] is
    (the others go on unobserved), resolved when all are. *)
Definition join (ts : list Task) (k : Error + list SerializableValue -> Async) : Async :=
  fun s =>
    match first_rejection ts with
    | Some e =>
        let (s', t) := k (inl e) s in
        (s', with_orphans t (List.filter (fun t => negb (is_settled t)) ts))
    | None =>
        match all_resolved ts with
        | Some vs => k (inr vs) s
        | None => (s, All ts k)
        end
    end.

(** Start the [async] functions [ms] one after the other. *)
Fixpoint start_all (ms : list Async) (s : State) : State * list Task :=
  match ms with
  | [] => (s, [])
  | m :: rest =>
      let (s1, t) := m s in
      let (s2, ts) := start_all rest s1 in
      (s2, t :: ts)
  end.

(** [const xs = await Promise.all(ms); f(xs)] *)
Definition Promise_all (ms : list Async) (f : list SerializableValue -> Async) : Async :=
  fun s =>
    let (s1, ts) := start_all ms s in
    join ts (fun o => match o with inr vs => f vs | inl e => throw e end) s1.

(** Apply [f] to the promises [ts] one after the other, the state going
    from one to the next. *)
Definition in_turn (f : Task -> State -> State * Task)
  : list Task -> State -> State * list Task :=
  fix go (ts : list Task) (s : State) : State * list Task :=
    match ts with
    | [] => (s, [])
    | t :: rest =>
        let (s1, t') := f t s in
        let (s2, rest') := go rest s1 in
        (s2, t' :: rest')
    end.

(** The reply to request [id] arrives. *)
Fixpoint deliver (id : nat) (r : Response) (t : Task) (s : State) : State * Task :=
  match t with
  | Resolved _ | Rejected _ => (s, t)
  | Pending id' k => if Nat.eqb id id' then k r s else (s, t)
  | All ts k =>
      let (s1, ts') := in_turn (deliver id r) ts s in
      join ts' k s1
  | Orphans t bg =>
      let (s1, t') := deliver id r t s in
      let (s2, bg') := in_turn (deliver id r) bg s1 in
      (s2, Orphans t' bg')
  end.

(* ===================================================================== *)
(** ** RPCManager *)
(* ===================================================================== *)

(** [_assignScriptObjectId(object)] *)
Definition _assignScriptObjectId (object : Ref) (st : State) : State :=
  match _scriptObjectIdMap st !! object with
  | Some _ => st
  | None =>
      let st := set_lastScriptObjectId (_lastScriptObjectId st + 1) st in
      set_scriptObjectIdMap (<[object := _lastScriptObjectId st]> (_scriptObjectIdMap st)) st
  end.

(** [list.forEach((obj) => this._assignScriptObjectId(obj))] *)
Definition assign_each (objects : list Ref) (st : State) : State :=
  foldl (fun s obj => _assignScriptObjectId obj s) st objects.

(** [new RPCManager(globalCallbacksMap)], in a world whose objects are
    [objects].  The engine numbers its requests from 1. *)
Definition constructor (objects : list HeapObject) (globalCallbacksMap : JSRecord) : State :=
  let st := mkState API_VALUE_INVALID_SCRIPT_OBJECT ∅ [] [] 1%nat [] objects [] in
  let globalCallbackFunctions := Object_values globalCallbacksMap in
  let st := assign_each globalCallbackFunctions st in
  let st := set_globalCallbacksMap globalCallbacksMap st in
  set_scriptObjectListStack [globalCallbackFunctions] st.

(** The inner loop of [_findScriptObject]. *)
Fixpoint find_in_list (ids : gmap Ref Z) (scriptObjectId : Z) (scriptObjectList : list Ref)
  : option Ref :=
  match scriptObjectList with
  | [] => None
  | scriptObject :: rest =>
      match ids !! scriptObject with
      | Some id => if Z.eqb id scriptObjectId then Some scriptObject
                   else find_in_list ids scriptObjectId rest
      | None => find_in_list ids scriptObjectId rest
      end
  end.

(** The outer loop of [_findScriptObject]. *)
Fixpoint find_in_stack (ids : gmap Ref Z) (scriptObjectId : Z) (stack : list (list Ref))
  : option Ref :=
  match stack with
  | [] => None
  | scriptObjectList :: rest =>
      match find_in_list ids scriptObjectId scriptObjectList with
      | Some scriptObject => Some scriptObject
      | None => find_in_stack ids scriptObjectId rest
      end
  end.

(** [_findScriptObject(scriptObjectId)]; [None] is [undefined]. *)
Definition _findScriptObject (scriptObjectId : Z) (st : State) : option Ref :=
  find_in_stack (_scriptObjectIdMap st) scriptObjectId (_scriptObjectListStack st).

(** What [throw new Error(`Unexpected value: ${value}`)] throws: the error
    it constructs, or, when [value] does not convert to a string, what the
    conversion throws before that.  (The throw is reached by objects of the
    caller only: a proxy has its entry in the identity map from the moment
    it exists.) *)
Definition unexpected_value (value : SerializableValue) (st : State) : Error :=
  match value with
  | VObject r =>
      match heap st !! r with
      | Some (HOther _ _ (Some e)) => e
      | _ => UnexpectedValue value
      end
  | _ => UnexpectedValue value
  end.

(** [_serialize(value)]: the value or the error thrown. *)
Definition _serialize (value : SerializableValue) (st : State) : Error + SerializedValue :=
  match isPlainValueType value with
  | Some plain => inr plain
  | None =>
      match value with
      | VUndefined => inr WEmpty
      | _ =>
          let scriptObjectId :=
            match value with
            | VNull => Some API_VALUE_INVALID_SCRIPT_OBJECT
            | VObject r => _scriptObjectIdMap st !! r
            | _ => None
            end in
          match scriptObjectId with
          | None => inl (unexpected_value value st)
          | Some scriptObjectId => inr (WScriptObject scriptObjectId)
          end
      end
  end.

(** [for (const name of names)] over a value from the wire: an array gives
    its items, a string its characters, anything else is not iterable. *)
Definition iterate (names : SerializedValue) : option (list string) :=
  match names with
  | WArray items => Some items
  | WStr s => Some (map (fun c => String c EmptyString) (list_ascii_of_string s))
  | _ => None
  end.

(** A loop of [Object.defineProperty] calls; on a throw, the object as the
    loop left it comes with the error. *)
Fixpoint define_each (o : JSObject) (names : list string) (descriptor : string -> PropertyDescriptor)
  : Error * JSObject + JSObject :=
  match names with
  | [] => inr o
  | name :: rest =>
      match Object_defineProperty o name (descriptor name) with
      | inl e => inl (e, o)
      | inr o' => define_each o' rest descriptor
      end
  end.

(** The descriptors [_describeScriptObject] passes to
    [Object.defineProperty]: [{enumerable: true, get, set}] for a property
    and [{enumerable: true, value}] for a method; what is left out is
    [false]. *)
Definition property_descriptor (serializedTarget : SerializedValue) (property : string)
  : PropertyDescriptor :=
  AccessorProperty (Getter serializedTarget property) (Setter serializedTarget property) true false.

Definition method_descriptor (serializedTarget : SerializedValue) (method : string)
  : PropertyDescriptor :=
  DataProperty (Method serializedTarget method) false true false.

(** The two loops of [_describeScriptObject] and its [Object.seal], on the
    object literal it starts from; on a throw, the object as it was left
    comes with the error. *)
Definition build_object (serializedTarget : SerializedValue)
    (properties methods : SerializedValue) : Error * JSObject + JSObject :=
  match iterate properties with
  | None => inl (TypeError "properties is not iterable", empty_object)
  | Some propertyNames =>
      match define_each empty_object propertyNames (property_descriptor serializedTarget) with
      | inl failure => inl failure
      | inr o =>
          match iterate methods with
          | None => inl (TypeError "methods is not iterable", o)
          | Some methodNames =>
              match define_each o methodNames (method_descriptor serializedTarget) with
              | inl failure => inl failure
              | inr o' => inr (Object_seal o')
              end
          end
      end
  end.

(** The part of [_describeScriptObject] that runs once both replies are
    there.  The object [scriptObject] is local to the method until then:
    the heap lists it from the moment the identity map mentions it, with
    the members the loops gave it.

    The method returns the sealed object, and its promise is resolved with
    it.  Resolving a promise with an object reads the member "then" of the
    object: the embedding follows the resolution of an object that has no
    member of that name, which fulfils the promise with the object itself.
    For a proxy with a member "then" the engine runs the getter (a "get"
    request leaves) or calls the method with its two resolving functions
    (a method call, with a frame of its own), and what the promise becomes
    is up to the peer; that case is outside the embedding, and the
    statements about what a materialisation resolves with carry the
    condition that "then" is not among the names. *)
Definition build_proxy (scriptObjectId : Z) (properties methods : SerializedValue) : Async :=
  fun st =>
    let scriptObject := length (heap st) in
    let built := build_object (WScriptObject scriptObjectId) properties methods in
    let o := match built with inl (_, o) => o | inr o => o end in
    let st := set_heap (heap st ++ [HProxy o]) st in
    let st := set_scriptObjectIdMap (<[scriptObject := scriptObjectId]> (_scriptObjectIdMap st)) st in
    match built with
    | inl (e, _) => (st, Rejected e)
    | inr _ => (st, Resolved (VObject scriptObject))
    end.

(** [_describeScriptObject(serializedTarget)], where [serializedTarget] is
    [{type: "scriptObject", scriptObject: scriptObjectId}]. *)
Definition _describeScriptObject (scriptObjectId : Z) : Async :=
  let serializedTarget := WScriptObject scriptObjectId in
  jrpc_call API_SERVER_METHOD_DESCRIBE_VARIABLES (Some [serializedTarget]) (fun properties =>
  jrpc_call API_SERVER_METHOD_DESCRIBE_FUNCTIONS (Some [serializedTarget]) (fun methods =>
  build_proxy scriptObjectId properties methods)).

(** [_deserialize(value)]; of the values that are objects, those of type
    "empty" and "scriptObject" are known. *)
Definition _deserialize (value : SerializedValue) : Async :=
  match isPlainSerializedType value with
  | Some plain => ret plain
  | None =>
      match value with
      | WEmpty => ret VUndefined
      | WScriptObject scriptObject =>
          if Z.eqb scriptObject API_VALUE_INVALID_SCRIPT_OBJECT
          then ret VNull
          else _describeScriptObject scriptObject
      | _ => throw (UnexpectedWire value)
      end
  end.

(** The closure [_createGetter(serializedTarget, propertyName)] returns. *)
Definition _createGetter (serializedTarget : SerializedValue) (propertyName : string) : Async :=
  jrpc_call API_SERVER_METHOD_GET_VALUE (Some [serializedTarget; WStr propertyName])
            (fun response => _deserialize response).

(** The closure [_createSetter(serializedTarget, propertyName)] returns. *)
Definition _createSetter (serializedTarget : SerializedValue) (propertyName : string)
    (value : SerializableValue) : Async :=
  fun st =>
    match _serialize value st with
    | inl e => (st, Rejected e)
    | inr serialized =>
        jrpc_call API_SERVER_METHOD_SET_VALUE (Some [serializedTarget; WStr propertyName; serialized])
                  (fun _ => ret VUndefined) st
    end.

(** [arg instanceof Object]: the reference, when it holds. *)
Definition instanceof_Object (st : State) (arg : SerializableValue) : option Ref :=
  match arg with
  | VObject r =>
      match heap st !! r with
      | Some (HOther false _ _) => None
      | _ => Some r
      end
  | _ => None
  end.

(** [args.map((arg) => this._serialize(arg))] *)
Fixpoint serialize_each (args : list SerializableValue) (st : State)
  : Error + list SerializedValue :=
  match args with
  | [] => inr []
  | arg :: rest =>
      match _serialize arg st with
      | inl e => inl e
      | inr w =>
          match serialize_each rest st with
          | inl e => inl e
          | inr ws => inr (w :: ws)
          end
      end
  end.

(** [this._scriptObjectListStack.unshift(list)] and [.shift()] *)
Definition unshift (scriptObjectList : list Ref) (st : State) : State :=
  set_scriptObjectListStack (scriptObjectList :: _scriptObjectListStack st) st.

Definition shift (st : State) : State :=
  set_scriptObjectListStack (tail (_scriptObjectListStack st)) st.

(** [_callAPIMethod(serializedTarget, methodName, args)] *)
Definition _callAPIMethod (serializedTarget : SerializedValue) (methodName : string)
    (args : list SerializableValue) : Async :=
  fun st =>
    let scriptObjectList := omap (instanceof_Object st) args in
    let st := assign_each scriptObjectList st in
    let st := unshift scriptObjectList st in
    try_finally
      (fun st =>
         match serialize_each args st with
         | inl e => (st, Rejected e)
         | inr serializedArgs =>
             jrpc_call API_SERVER_METHOD_CALL_FUNCTION
                       (Some (serializedTarget :: WStr methodName :: serializedArgs))
                       (fun response => _deserialize response) st
         end)
      shift st.

(** Calling the closures stored in a proxy. *)
Definition call_getter (get : GetterClosure) : Async :=
  match get with
  | Getter serializedTarget propertyName => _createGetter serializedTarget propertyName
  end.

Definition call_setter (set : SetterClosure) (value : SerializableValue) : Async :=
  match set with
  | Setter serializedTarget propertyName => _createSetter serializedTarget propertyName value
  end.

Definition call_method (method : MethodClosure) (args : list SerializableValue) : Async :=
  match method with
  | Method serializedTarget methodName => _callAPIMethod serializedTarget methodName args
  end.

(** [typeof v === "function"], with what the function does. *)
Definition as_function (r : Ref) (st : State) : option (list SerializableValue -> Outcome) :=
  match heap st !! r with
  | Some (HFunction body) => Some body
  | Some (HOther _ (Some body) _) => Some body
  | _ => None
  end.

(** [await callbackFunction.apply(null, functionArguments)]; the value the
    function returns is not kept. *)
Definition apply_function (fn : Ref) (body : list SerializableValue -> Outcome)
    (functionArguments : list SerializableValue) : Async :=
  fun st =>
    let st := record_application fn functionArguments st in
    match body functionArguments with
    | Returns _ => (st, Resolved VUndefined)
    | Throws e => (st, Rejected e)
    end.

(** [_handleAPICallback(functionId, args)] *)
Definition _handleAPICallback (functionId : Z) (args : list SerializedValue) : Async :=
  fun st =>
    match _findScriptObject functionId st with
    | Some callbackFunction =>
        match as_function callbackFunction st with
        | Some body =>
            Promise_all (map _deserialize args)
                        (fun functionArguments =>
                           apply_function callbackFunction body functionArguments) st
        | None => (st, Rejected (function_not_found functionId))
        end
    | None => (st, Rejected (function_not_found functionId))
    end.

(** [apiRootObject.registerCallback(name, fn)], the one member call the
    manager makes itself.  [apiRootObject] comes out of [_deserialize]: a
    primitive, or a proxy.  A data property holds a method; an accessor
    property runs its getter and leaves a promise, which cannot be called. *)
Definition call_registerCallback (apiRootObject : SerializableValue) (name : string) (fn : Ref)
  : Async :=
  fun st =>
    match apiRootObject with
    | VObject r =>
        match heap st !! r with
        | Some (HProxy o) =>
            match getOwnProperty (properties o) "registerCallback" with
            | Some (DataProperty c _ _ _) => call_method c [VStr name; VObject fn] st
            | Some (AccessorProperty g _ _ _) =>
                let (st', t) := call_getter g st in
                (st', Orphans (Rejected (TypeError "apiRootObject.registerCallback is not a function")) [t])
            | None => (st, Rejected (TypeError "apiRootObject.registerCallback is not a function"))
            end
        | _ => (st, Rejected (TypeError "apiRootObject.registerCallback is not a function"))
        end
    | VUndefined | VNull =>
        (st, Rejected (TypeError "Cannot read properties of undefined or null"))
    | _ => (st, Rejected (TypeError "apiRootObject.registerCallback is not a function"))
    end.

(** The [for ... of Object.entries(this._globalCallbacksMap)] loop of
    [initialize]. *)
Fixpoint register_each (apiRootObject : SerializableValue) (entries : list (string * Ref))
  : Async :=
  match entries with
  | [] => ret VUndefined
  | (name, fn) :: rest =>
      bind (call_registerCallback apiRootObject name fn)
           (fun _ => register_each apiRootObject rest)
  end.

(** [initialize(token)] *)
Definition initialize (token : string) : Async :=
  jrpc_call API_SERVER_METHOD_AUTHENTICATE (Some [WStr token]) (fun _ =>
  jrpc_call API_SERVER_METHOD_GET_ROOT_OBJECT None (fun response =>
  bind (_deserialize response) (fun apiRootObject st =>
  bind (register_each apiRootObject (Object_entries (_globalCallbacksMap st)))
       (fun _ => ret apiRootObject) st))).

(* ===================================================================== *)
(** ** The engine's side of an inbound call, and the run of a session *)
(* ===================================================================== *)

(** Modelled from the spec: the JSON-RPC engine is not part of the sources.
    "If unresolved, replies with an RPC-level error identifying the missing
    Handle"; a handler that fails is answered with an error reply carrying
    the failure, and the handler the constructor registers, which resolves
    to [undefined] alone, is answered with the result [true] (as the tests
    of the repository expect). *)
Definition reply_to (id : nat) (o : Settlement) : Outbound :=
  match o with
  | inl e => OutError id e
  | inr _ => OutResult id (WBool true)
  end.

(** The handler the constructor registers for the method "callback",
    followed by the engine's reply. *)
Definition on_callback (id : nat) (functionId : Z) (serializedArgs : list SerializedValue)
  : Async :=
  fun st =>
    let (s1, t) := _handleAPICallback functionId serializedArgs st in
    on_settle t (fun o s => (sendMessage (reply_to id o) s, settled o)) s1.

(** A message from the peer: the reply to a request of ours, or a call of
    "callback" with [{type: "scriptObject", scriptObject: functionId}] and
    the serialized arguments. *)
Inductive Inbound : Type :=
| InResult (id : nat) (result : SerializedValue)
| InError (id : nat) (error : SerializedValue)
| InCallback (id : nat) (functionId : Z) (serializedArgs : list SerializedValue).

(** A session: the state and the promises made so far, oldest first. *)
Record World : Type := mkWorld {
  state : State;
  tasks : list Task
}.

(** The caller, or the engine, starts an [async] function. *)
Definition spawn (m : Async) (w : World) : World :=
  let (s, t) := m (state w) in
  mkWorld s (tasks w ++ [t]).

Definition deliver_each (id : nat) (r : Response) : list Task -> State -> State * list Task :=
  in_turn (deliver id r).

(** [processMessage(message)] *)
Definition processMessage (message : Inbound) (w : World) : World :=
  match message with
  | InResult id result =>
      let (s, ts) := deliver_each id (Result result) (tasks w) (state w) in mkWorld s ts
  | InError id error =>
      let (s, ts) := deliver_each id (ErrorReply error) (tasks w) (state w) in mkWorld s ts
  | InCallback id functionId serializedArgs =>
      spawn (on_callback id functionId serializedArgs) w
  end.

Definition start (objects : list HeapObject) (globalCallbacksMap : JSRecord) : World :=
  mkWorld (constructor objects globalCallbacksMap) [].

(** How the [n]-th promise of the session stands. *)
Definition promise (n : nat) (w : World) : option Settlement :=
  match tasks w !! n with
  | Some (Resolved v) => Some (inr v)
  | Some (Rejected e) => Some (inl e)
  | Some (Orphans (Resolved v) _) => Some (inr v)
  | Some (Orphans (Rejected e) _) => Some (inl e)
  | _ => None
  end.

(** The member [name] of a proxy, for the caller's [proxy.name],
    [proxy.name = v] and [proxy.name(...)]. *)
Definition member (proxy : SerializableValue) (name : string) (st : State)
  : option PropertyDescriptor :=
  match proxy with
  | VObject r =>
      match heap st !! r with
      | Some (HProxy o) => getOwnProperty (properties o) name
      | _ => None
      end
  | _ => None
  end.

(** The caller evaluates [proxy.name]: an accessor property runs its
    getter, which makes a promise; reading anything else leaves the manager
    alone. *)
Definition caller_reads (proxy : SerializableValue) (name : string) (w : World) : World :=
  match member proxy name (state w) with
  | Some (AccessorProperty get _ _ _) => spawn (call_getter get) w
  | _ => w
  end.

(** The caller evaluates [proxy.name = value]: an accessor property runs its
    setter; a method is not writable and a sealed object takes no new
    member, so any other assignment leaves the manager alone. *)
Definition caller_writes (proxy : SerializableValue) (name : string) (value : SerializableValue)
    (w : World) : World :=
  match member proxy name (state w) with
  | Some (AccessorProperty _ set _ _) => spawn (call_setter set value) w
  | _ => w
  end.

(** The caller evaluates [proxy.name(...args)]: a method is called; for an
    accessor property the getter runs first, and its promise cannot be
    called. *)
Definition caller_calls (proxy : SerializableValue) (name : string)
    (args : list SerializableValue) (w : World) : World :=
  match member proxy name (state w) with
  | Some (DataProperty method _ _ _) => spawn (call_method method args) w
  | Some (AccessorProperty get _ _ _) => spawn (call_getter get) w
  | None => w
  end.

(** What the caller and the peer can do, one step at a time.  The caller
    only ever holds references to objects that exist; a step that names
    another reference is no step. *)
Inductive Action : Type :=
| NewObject (o : HeapObject)
| Initialize (token : string)
| ReadProperty (proxy : Ref) (name : string)
| WriteProperty (proxy : Ref) (name : string) (value : SerializableValue)
| CallMethod (proxy : Ref) (name : string) (args : list SerializableValue)
| Receive (message : Inbound).

Definition exists_in (st : State) (v : SerializableValue) : bool :=
  match v with
  | VObject r => Nat.ltb r (length (heap st))
  | _ => true
  end.

Definition perform (a : Action) (w : World) : World :=
  match a with
  | NewObject o => mkWorld (set_heap (heap (state w) ++ [o]) (state w)) (tasks w)
  | Initialize token => spawn (initialize token) w
  | ReadProperty proxy name => caller_reads (VObject proxy) name w
  | WriteProperty proxy name value =>
      if exists_in (state w) value then caller_writes (VObject proxy) name value w else w
  | CallMethod proxy name args =>
      if forallb (exists_in (state w)) args then caller_calls (VObject proxy) name args w else w
  | Receive message => processMessage message w
  end.

Definition run (actions : list Action) (w : World) : World :=
  foldl (fun w a => perform a w) w actions.

(** The references of [globalCallbacksMap] are objects of the world the
    manager is built in. *)
Definition callbacks_exist (objects : list HeapObject) (globalCallbacksMap : JSRecord) : bool :=
  forallb (fun p => Nat.ltb (snd p) (length objects)) globalCallbacksMap.

(* ===================================================================== *)
(** ** Predicates used in the statements *)
(* ===================================================================== *)

(** [r] is one of the references of the frames pushed at the moment. *)
Definition in_frames (st : State) (r : Ref) : Prop :=
  r ∈ concat (_scriptObjectListStack st).

(** A reference the manager built itself (a proxy), as opposed to an
    object or function of the caller. *)
Definition is_proxy (st : State) (r : Ref) : bool :=
  match heap st !! r with
  | Some (HProxy _) => true
  | _ => false
  end.

(** A state the manager can be in: the counter never drops below the
    invalid handle; every registered reference is an object that exists,
    its handle is not the invalid one, and the handle of a caller's object
    was drawn from the counter; frames and the callback map hold objects
    that exist, and what is in a frame is registered. *)
Definition wf (st : State) : Prop :=
  API_VALUE_INVALID_SCRIPT_OBJECT <= _lastScriptObjectId st ∧
  map_Forall (fun r h => (r < length (heap st))%nat ∧ h ≠ API_VALUE_INVALID_SCRIPT_OBJECT ∧
                         (is_proxy st r = false -> 0 < h <= _lastScriptObjectId st))
             (_scriptObjectIdMap st) ∧
  Forall (Forall (fun r => (r < length (heap st))%nat ∧ is_Some (_scriptObjectIdMap st !! r)))
         (_scriptObjectListStack st) ∧
  Forall (fun p => (snd p < length (heap st))%nat) (_globalCallbacksMap st).

#[global] Instance wf_dec (st : State) : Decision (wf st).
Proof. unfold wf. apply _. Defined.

(** [st'] is a later state than [st]: what was registered stays registered
    under the same handle, the counter has not gone down, objects stay what
    they are, and nothing sent or applied is taken back. *)
Definition extends (st st' : State) : Prop :=
  _scriptObjectIdMap st ⊆ _scriptObjectIdMap st' ∧
  _lastScriptObjectId st <= _lastScriptObjectId st' ∧
  heap st `prefix_of` heap st' ∧
  sent st `prefix_of` sent st' ∧
  applied st `prefix_of` applied st' ∧
  _globalCallbacksMap st' = _globalCallbacksMap st.

(** Every continuation of [t], resumed in a state [s] that is well formed
    and later than [s0], takes it to a well-formed later state, and leaves
    a promise of which the same holds. *)
Fixpoint safe (s0 : State) (t : Task) : Prop :=
  match t with
  | Resolved _ | Rejected _ => True
  | Pending _ k =>
      forall r s, wf s -> extends s0 s ->
        wf (fst (k r s)) ∧ extends s (fst (k r s)) ∧ safe (fst (k r s)) (snd (k r s))
  | All ts k =>
      (fix each (ts : list Task) : Prop :=
         match ts with
         | [] => True
         | t :: rest => safe s0 t ∧ each rest
         end) ts ∧
      forall o s, wf s -> extends s0 s ->
        wf (fst (k o s)) ∧ extends s (fst (k o s)) ∧ safe (fst (k o s)) (snd (k o s))
  | Orphans t bg =>
      safe s0 t ∧
      (fix each (ts : list Task) : Prop :=
         match ts with
         | [] => True
         | t :: rest => safe s0 t ∧ each rest
         end) bg
  end.

(** A step from [s] ended well: in a well-formed later state, with a
    promise that behaves from there on. *)
Definition good (s : State) (now : State * Task) : Prop :=
  wf (fst now) ∧ extends s (fst now) ∧ safe (fst now) (snd now).

(** Started in [s], the [async] function [m] behaves. *)
Definition ok (m : Async) (s : State) : Prop := wf s -> good s (m s).

Definition world_ok (w : World) : Prop :=
  wf (state w) ∧ Forall (safe (state w)) (tasks w).

(** A reply that [_deserialize] decodes on the spot, with no describe call. *)
Definition decodes_at_once (w : SerializedValue) : bool :=
  match w with
  | WBool _ | WNum _ | WStr _ | WEmpty => true
  | WScriptObject scriptObject => Z.eqb scriptObject API_VALUE_INVALID_SCRIPT_OBJECT
  | _ => false
  end.

(** The promise [t] waits for one reply at a time and never touches the
    frame stack, however it is resumed. *)
Fixpoint keeps_stack (t : Task) : Prop :=
  match t with
  | Resolved _ | Rejected _ => True
  | Pending _ k =>
      forall r s, _scriptObjectListStack (fst (k r s)) = _scriptObjectListStack s
                  ∧ keeps_stack (snd (k r s))
  | _ => False
  end.

(** The promise [t], which waits for one reply at a time, shifts the frame
    stack once, in the step in which it settles, and leaves it alone in
    every step before. *)
Fixpoint shifts_when_settling (t : Task) : Prop :=
  match t with
  | Pending _ k =>
      forall r s,
        (is_settled (snd (k r s)) = true
         ∧ _scriptObjectListStack (fst (k r s)) = tail (_scriptObjectListStack s))
        ∨ (_scriptObjectListStack (fst (k r s)) = _scriptObjectListStack s
           ∧ shifts_when_settling (snd (k r s)))
  | _ => False
  end.

(** What a step may do to the frame stack [k] when the promise it resumes
    still has [n] frames of its own to shift: it shifts [d] of them, pushes
    the frames [new], and then has [n'] frames to shift. *)
Definition stack_effect (n n' : nat) (k k' : list (list Ref)) : Prop :=
  exists new d, k' = (new ++ drop d k)%list ∧ (d <= n)%nat ∧ (n' + d = n + length new)%nat.

(** The promise [t] has [n] frames of its own on the stack: whatever the
    replies, it shifts each of them, and each frame it pushes on the way,
    before it settles.  The promises under [Promise.all], and those nothing
    waits for, leave the stack alone. *)
Fixpoint owes (t : Task) (n : nat) : Prop :=
  match t with
  | Resolved _ | Rejected _ => n = 0%nat
  | Pending _ k =>
      forall r s, exists n',
        stack_effect n n' (_scriptObjectListStack s) (_scriptObjectListStack (fst (k r s)))
        ∧ owes (snd (k r s)) n'
  | All ts k =>
      (fix each (ts : list Task) : Prop :=
         match ts with
         | [] => True
         | t :: rest => keeps_stack t ∧ each rest
         end) ts ∧
      forall o s, exists n',
        stack_effect n n' (_scriptObjectListStack s) (_scriptObjectListStack (fst (k o s)))
        ∧ owes (snd (k o s)) n'
  | Orphans t bg =>
      owes t n ∧
      (fix each (ts : list Task) : Prop :=
         match ts with
         | [] => True
         | t :: rest => keeps_stack t ∧ each rest
         end) bg
  end.

(** A step from [s], by a promise that had [n] frames to shift, that keeps
    to the discipline. *)
Definition balanced_step (n : nat) (s : State) (now : State * Task) : Prop :=
  exists n',
    stack_effect n n' (_scriptObjectListStack s) (_scriptObjectListStack (fst now))
    ∧ owes (snd now) n'.

(** The frame stack of a session: the frames that the promises under way
    have still to shift, on top of one more frame. *)
Definition balanced (bottom : list Ref) (w : World) : Prop :=
  exists ns top,
    Forall2 owes (tasks w) ns
    ∧ _scriptObjectListStack (state w) = (top ++ [bottom])%list
    ∧ length top = sum_list ns.

(** [_describeScriptObject] from its start in [st] to its end: the reply
    [properties] to its first request arrives in state [s1], the reply
    [methods] to its second request in state [s2]. *)
Definition describe_with (scriptObjectId : Z) (properties methods : SerializedValue)
    (st s1 s2 : State) : State * Task :=
  let (_, task1) := deliver (jrpc_id st) (Result properties)
                            (snd (_describeScriptObject scriptObjectId st)) s1 in
  deliver (jrpc_id s1) (Result methods) task1 s2.


(** The "listProperties" requests that decoding [values] sends, numbered
    from [id]: one for each handle other than the invalid one. *)
Fixpoint describe_requests (id : nat) (values : list SerializedValue) : list Outbound :=
  match values with
  | [] => []
  | WScriptObject scriptObject :: rest =>
      if Z.eqb scriptObject API_VALUE_INVALID_SCRIPT_OBJECT
      then describe_requests id rest
      else OutRequest id API_SERVER_METHOD_DESCRIBE_VARIABLES (Some [WScriptObject scriptObject])
           :: describe_requests (S id) rest
  | _ :: rest => describe_requests id rest
  end.

(** Every continuation of the promise [t], resumed in a state in which
    [P] holds, ends in a state in which [P] holds, and leaves a promise of
    which the same is true. *)
Fixpoint preserves (P : State -> Prop) (t : Task) : Prop :=
  match t with
  | Resolved _ | Rejected _ => True
  | Pending _ k =>
      forall r s, P s -> P (fst (k r s)) ∧ preserves P (snd (k r s))
  | All ts k =>
      (fix each (ts : list Task) : Prop :=
         match ts with
         | [] => True
         | t :: rest => preserves P t ∧ each rest
         end) ts ∧
      forall o s, P s -> P (fst (k o s)) ∧ preserves P (snd (k o s))
  | Orphans t bg =>
      preserves P t ∧
      (fix each (ts : list Task) : Prop :=
         match ts with
         | [] => True
         | t :: rest => preserves P t ∧ each rest
         end) bg
  end.

(** A step that ends in a state in which [P] holds, with a promise that
    preserves [P]. *)
Definition keeps (P : State -> Prop) (now : State * Task) : Prop :=
  P (fst now) ∧ preserves P (snd now).

(** The handles of the caller's objects are drawn from the counter, and no
    two objects of the caller have the same handle. *)
Definition handles_distinct (st : State) : Prop :=
  (forall r h, _scriptObjectIdMap st !! r = Some h -> is_proxy st r = false ->
     h <= _lastScriptObjectId st)
  ∧ (forall r1 r2 h, _scriptObjectIdMap st !! r1 = Some h ->
       _scriptObjectIdMap st !! r2 = Some h ->
       is_proxy st r1 = false -> is_proxy st r2 = false -> r1 = r2).

(** A session in which [P] holds now and every promise preserves it. *)
Definition world_keeps (P : State -> Prop) (w : World) : Prop :=
  P (state w) ∧ Forall (preserves P) (tasks w).

(** The peer calls "callback". *)
Definition is_callback (a : Action) : bool :=
  match a with
  | Receive (InCallback _ _ _) => true
  | _ => false
  end.

(* ===================================================================== *)
(** ** Sessions used as examples *)
(* ===================================================================== *)

(** A session in which [initialize] has completed: the root object has
    handle 123 and the given properties and methods (the exchange of the
    tests of the repository).  The root proxy is the object that follows
    [objects] in the heap. *)
Definition session_with_root (objects : list HeapObject) (globalCallbacksMap : JSRecord)
    (properties methods : list string) : World :=
  run [Initialize "valid token";
       Receive (InResult 1 (WBool true));
       Receive (InResult 2 (WScriptObject 123));
       Receive (InResult 3 (WArray properties));
       Receive (InResult 4 (WArray methods))]
      (start objects globalCallbacksMap).

(** A caller's function that returns 42. *)
Definition returns_42 : HeapObject := HFunction (fun _ => Returns (VNum 42)).

(** The caller's plain object 0 is the argument of a call of [foo] that is
    waiting for its reply. *)
Definition plain_object_in_frame : World :=
  run [CallMethod 1%nat "foo" [VObject 0%nat]] (session_with_root [HPlain] [] [] ["foo"]).

(** Two calls of [foo] are under way, the first with the function 0 and
    the second with the function 1, when the reply to the first arrives. *)
Definition overlapping_calls : World :=
  run [CallMethod 2%nat "foo" [VObject 0%nat];
       CallMethod 2%nat "foo" [VObject 1%nat];
       Receive (InResult 5 (WBool true))]
      (session_with_root [returns_42; returns_42] [] [] ["foo"]).

(** The manager of a session with one callback, "cb", which returns 42. *)
Definition callback_session : State := constructor [returns_42] [("cb", 0%nat)].

(** The callbacks "b" and "1" were written in this order. *)
Definition index_named_callbacks : World :=
  session_with_root [returns_42; returns_42] [("b", 0%nat); ("1", 1%nat)] [] ["registerCallback"].

(** What [_deserialize] makes of a reply that it decodes on the spot. *)
Definition decoded_at_once (w : SerializedValue) : SerializableValue :=
  match w with
  | WBool b => VBool b
  | WNum n => VNum n
  | WStr s => VStr s
  | WScriptObject _ => VNull
  | _ => VUndefined
  end.

(** The "execute" requests that register [entries] on the root object
    [serializedTarget], numbered from [id], the handles read from [ids]. *)
Fixpoint registrations (serializedTarget : SerializedValue) (ids : gmap Ref Z) (id : nat)
    (entries : list (string * Ref)) : list Outbound :=
  match entries with
  | [] => []
  | (name, fn) :: rest =>
      OutRequest id API_SERVER_METHOD_CALL_FUNCTION
                 (Some [serializedTarget; WStr "registerCallback"; WStr name;
                        WScriptObject (default 0 (ids !! fn))])
      :: registrations serializedTarget ids (S id) rest
  end.

(** The peer answers the requests numbered from [id] with [results], one
    after the other. *)
Fixpoint results_from (id : nat) (results : list SerializedValue) : list Action :=
  match results with
  | [] => []
  | r :: rest => Receive (InResult id r) :: results_from (S id) rest
  end.

(** The reply [r] to request [id], as a message. *)
Definition inbound_reply (id : nat) (r : Response) : Inbound :=
  match r with
  | Result result => InResult id result
  | ErrorReply error => InError id error
  end.

(** The replies that end a call at once: an error reply, and a result
    that [_deserialize] refuses; with the error the call is rejected with. *)
Definition refusal (r : Response) : option Error :=
  match r with
  | ErrorReply error => Some (RemoteError error)
  | Result WNull => Some (UnexpectedWire WNull)
  | Result (WArray items) => Some (UnexpectedWire (WArray items))
  | Result _ => None
  end.

(** What the peer answers to a registration that goes through: a result
    that [_deserialize] decodes on the spot, or the handle of an object,
    followed by the names of its properties and of its methods when the
    manager asks for them. *)
Inductive Answer : Type :=
| Immediate (result : SerializedValue)
| Described (scriptObject : Z) (P M : list string).

(** The answers after which the registration is over and the loop goes
    on: a plain value, the empty marker or the invalid handle; or a handle
    of an object whose names are distinct, none of them "then". *)
Definition decodable (a : Answer) : Prop :=
  match a with
  | Immediate result => decodes_at_once result = true
  | Described scriptObject P M =>
      scriptObject ≠ API_VALUE_INVALID_SCRIPT_OBJECT
      ∧ NoDup (P ++ M)
      ∧ "then" ∉ (P ++ M)%list
  end.

(** The number of requests that an answer replies to. *)
Definition replies (a : Answer) : nat :=
  match a with
  | Immediate _ => 1
  | Described _ _ _ => 3
  end.

Fixpoint span (answers : list Answer) : nat :=
  match answers with
  | [] => 0
  | a :: rest => replies a + span rest
  end.

(** The peer gives the [answers], one after the other, to the requests
    numbered from [id]. *)
Fixpoint answers_from (id : nat) (answers : list Answer) : list Action :=
  match answers with
  | [] => []
  | Immediate result :: rest => Receive (InResult id result) :: answers_from (S id) rest
  | Described scriptObject P M :: rest =>
      Receive (InResult id (WScriptObject scriptObject))
      :: Receive (InResult (S id) (WArray P))
      :: Receive (InResult (S (S id)) (WArray M))
      :: answers_from (S (S (S id))) rest
  end.

(** The requests of the loop of [initialize] when the peer gives the
    [answers]: the registration of each entry, in order, as long as the
    one before it has its answer; and after a registration that is
    answered with a handle, the two requests that describe the object. *)
Fixpoint conversation (serializedTarget : SerializedValue) (ids : gmap Ref Z) (id : nat)
    (entries : list (string * Ref)) (answers : list Answer) : list Outbound :=
  match entries with
  | [] => []
  | (name, fn) :: rest =>
      OutRequest id API_SERVER_METHOD_CALL_FUNCTION
                 (Some [serializedTarget; WStr "registerCallback"; WStr name;
                        WScriptObject (default 0 (ids !! fn))])
      :: match answers with
         | [] => []
         | Immediate _ :: answers' =>
             conversation serializedTarget ids (S id) rest answers'
         | Described scriptObject _ _ :: answers' =>
             OutRequest (S id) API_SERVER_METHOD_DESCRIBE_VARIABLES
                        (Some [WScriptObject scriptObject])
             :: OutRequest (S (S id)) API_SERVER_METHOD_DESCRIBE_FUNCTIONS
                           (Some [WScriptObject scriptObject])
             :: conversation serializedTarget ids (S (S (S id))) rest answers'
         end
  end.

(** What surrounds an [await]: when the awaited promise is pending, so is
    the whole, and a reply goes to the awaited promise first. *)
Definition lifts (wrap : Async -> Async) : Prop :=
  forall m s s1 id k,
    m s = (s1, Pending id k) ->
    wrap m s = (s1, Pending id (fun r => wrap (k r))).

(** The state [s] after the requests [requests] have been sent and
    everything else has been put back as it was. *)
Definition after_requests (requests : list Outbound) (s : State) : State :=
  mkState (_lastScriptObjectId s) (_scriptObjectIdMap s) (_globalCallbacksMap s)
          (_scriptObjectListStack s) (length requests + jrpc_id s) (sent s ++ requests)
          (heap s) (applied s).

(* ===================================================================== *)
(** * Properties *)
(* ===================================================================== *)

(** ** Induction on promises *)

Lemma Task_induction (P : Task -> Prop) :
  (forall v, P (Resolved v)) ->
  (forall e, P (Rejected e)) ->
  (forall id k, (forall r s, P (snd (k r s))) -> P (Pending id k)) ->
  (forall ts k, Forall P ts -> (forall o s, P (snd (k o s))) -> P (All ts k)) ->
  (forall t bg, P t -> Forall P bg -> P (Orphans t bg)) ->
  forall t, P t.
Proof.
  intros Hv He Hp Ha Ho. fix IH 1. intros [v|e|id k|ts k|t bg].
  - apply Hv.
  - apply He.
  - apply Hp. intros r s. apply IH.
  - apply Ha.
    + induction ts as [|t ts IHts]; constructor; [apply IH | apply IHts].
    + intros o s. apply IH.
  - apply Ho; [apply IH|].
    induction bg as [|t' bg IHbg]; constructor; [apply IH | apply IHbg].
Qed.

Lemma safe_each s0 (ts : list Task) :
  (fix each (ts : list Task) : Prop :=
     match ts with
     | [] => True
     | t :: rest => safe s0 t ∧ each rest
     end) ts <-> Forall (safe s0) ts.
Proof.
  induction ts as [|t ts IH]; split; intros H.
  - constructor.
  - exact I.
  - destruct H as [H1 H2]. constructor; [exact H1 | apply IH, H2].
  - inversion H; subst. split; [assumption | apply IH; assumption].
Qed.

Lemma safe_All s0 ts k :
  safe s0 (All ts k) <->
  Forall (safe s0) ts ∧
  forall o s, wf s -> extends s0 s ->
    wf (fst (k o s)) ∧ extends s (fst (k o s)) ∧ safe (fst (k o s)) (snd (k o s)).
Proof. simpl. rewrite safe_each. reflexivity. Qed.

Lemma safe_Orphans s0 t bg :
  safe s0 (Orphans t bg) <-> safe s0 t ∧ Forall (safe s0) bg.
Proof. simpl. rewrite safe_each. reflexivity. Qed.

(** ** Later states *)

#[global] Instance extends_preorder : PreOrder extends.
Proof.
  split.
  - intros s. unfold extends. repeat split; reflexivity.
  - intros s1 s2 s3 (A1 & A2 & A3 & A4 & A5 & A6) (B1 & B2 & B3 & B4 & B5 & B6).
    unfold extends. repeat split.
    + etransitivity; eassumption.
    + lia.
    + etransitivity; eassumption.
    + etransitivity; eassumption.
    + etransitivity; eassumption.
    + congruence.
Qed.

Lemma extends_lookup s s' r h :
  extends s s' -> _scriptObjectIdMap s !! r = Some h -> _scriptObjectIdMap s' !! r = Some h.
Proof. intros (H & _) Hr. eapply lookup_weaken; eassumption. Qed.

Lemma extends_heap_length s s' :
  extends s s' -> (length (heap s) <= length (heap s'))%nat.
Proof. intros (_ & _ & H & _). apply prefix_length, H. Qed.

Lemma extends_heap_lookup s s' r o :
  extends s s' -> heap s !! r = Some o -> heap s' !! r = Some o.
Proof. intros (_ & _ & H & _) Hr. eapply prefix_lookup_Some; eassumption. Qed.

Lemma safe_mono t : forall s0 s1, extends s0 s1 -> safe s0 t -> safe s1 t.
Proof.
  induction t as [v|e|id k IH|ts k IHts IH|t bg IHt IHbg] using Task_induction;
    intros s0 s1 Hext Hs.
  - exact I.
  - exact I.
  - simpl in *. intros r s Hwf Hs1. apply Hs; [assumption|]. etransitivity; eassumption.
  - apply safe_All in Hs as [Hts Hk]. apply safe_All. split.
    + rewrite Forall_forall in IHts, Hts |- *. intros t Ht. eapply IHts; eauto.
    + intros o s Hwf Hs1. apply Hk; [assumption|]. etransitivity; eassumption.
  - apply safe_Orphans in Hs as [Ht Hbg]. apply safe_Orphans. split.
    + eapply IHt; eauto.
    + rewrite Forall_forall in IHbg, Hbg |- *. intros t' Ht'. eapply IHbg; eauto.
Qed.

Lemma Forall_safe_mono ts s0 s1 :
  extends s0 s1 -> Forall (safe s0) ts -> Forall (safe s1) ts.
Proof. intros Hext H. eapply Forall_impl; [exact H|]. intros t. apply safe_mono, Hext. Qed.

(** ** The state changes of the manager, one by one *)

Ltac split_wf := unfold wf; simpl; split; [|split; [|split]].
Ltac split_extends := unfold extends; simpl; split; [|split; [|split; [|split; [|split]]]].

Lemma wf_sendMessage m s : wf s -> wf (sendMessage m s).
Proof. intros H. exact H. Qed.

Lemma extends_sendMessage m s : extends s (sendMessage m s).
Proof. split_extends; try reflexivity. apply prefix_app_r. reflexivity. Qed.

Lemma wf_next_jrpc_id s : wf s -> wf (next_jrpc_id s).
Proof. intros H. exact H. Qed.

Lemma extends_next_jrpc_id s : extends s (next_jrpc_id s).
Proof. split_extends; reflexivity. Qed.

Lemma wf_record_application fn args s : wf s -> wf (record_application fn args s).
Proof. intros H. exact H. Qed.

Lemma extends_record_application fn args s : extends s (record_application fn args s).
Proof. split_extends; try reflexivity. apply prefix_app_r. reflexivity. Qed.

Lemma wf_shift s : wf s -> wf (shift s).
Proof.
  intros (H1 & H2 & H3 & H4). split_wf; try assumption.
  destruct (_scriptObjectListStack s) as [|l k]; simpl; [constructor|].
  inversion H3; assumption.
Qed.

Lemma extends_shift s : extends s (shift s).
Proof. split_extends; reflexivity. Qed.

Lemma wf_unshift l s :
  wf s ->
  Forall (fun r => (r < length (heap s))%nat ∧ is_Some (_scriptObjectIdMap s !! r)) l ->
  wf (unshift l s).
Proof.
  intros (H1 & H2 & H3 & H4) Hl. split_wf; try assumption.
  constructor; assumption.
Qed.

Lemma extends_unshift l s : extends s (unshift l s).
Proof. split_extends; reflexivity. Qed.

Lemma assign_registered object s h :
  _scriptObjectIdMap s !! object = Some h -> _assignScriptObjectId object s = s.
Proof. intros H. unfold _assignScriptObjectId. rewrite H. reflexivity. Qed.

Lemma assign_unseen object s :
  _scriptObjectIdMap s !! object = None ->
  _assignScriptObjectId object s =
  set_scriptObjectIdMap (<[object := _lastScriptObjectId s + 1]> (_scriptObjectIdMap s))
                        (set_lastScriptObjectId (_lastScriptObjectId s + 1) s).
Proof. intros H. unfold _assignScriptObjectId. rewrite H. reflexivity. Qed.

Lemma wf_assign object s :
  wf s -> (object < length (heap s))%nat -> wf (_assignScriptObjectId object s).
Proof.
  intros Hwf Hobj. destruct (_scriptObjectIdMap s !! object) as [h|] eqn:E.
  - erewrite assign_registered; eauto.
  - rewrite assign_unseen by assumption.
    destruct Hwf as (H1 & H2 & H3 & H4).
    split_wf; unfold API_VALUE_INVALID_SCRIPT_OBJECT in *.
    + lia.
    + apply map_Forall_insert_2.
      * split; [assumption|]. split; [lia|]. intros _. lia.
      * eapply map_Forall_impl; [exact H2|]. simpl. intros r h (A & B & C).
        split; [assumption|]. split; [assumption|]. intros Hp.
        unfold is_proxy in *. simpl in *. specialize (C Hp). lia.
    + eapply Forall_impl; [exact H3|]. intros l Hl.
      eapply Forall_impl; [exact Hl|]. intros r [A B]. split; [assumption|].
      destruct (decide (object = r)) as [->|Hne].
      * rewrite lookup_insert_eq. eauto.
      * rewrite lookup_insert_ne by assumption. assumption.
    + assumption.
Qed.

Lemma extends_assign object s : extends s (_assignScriptObjectId object s).
Proof.
  destruct (_scriptObjectIdMap s !! object) as [h|] eqn:E.
  - erewrite assign_registered; eauto. reflexivity.
  - rewrite assign_unseen by assumption.
    split_extends; try reflexivity.
    + apply insert_subseteq. assumption.
    + lia.
Qed.

Lemma assign_heap object s : heap (_assignScriptObjectId object s) = heap s.
Proof. unfold _assignScriptObjectId. destruct (_ !! _); reflexivity. Qed.

Lemma assign_stack object s :
  _scriptObjectListStack (_assignScriptObjectId object s) = _scriptObjectListStack s.
Proof. unfold _assignScriptObjectId. destruct (_ !! _); reflexivity. Qed.

Lemma assign_is_Some object s :
  is_Some (_scriptObjectIdMap (_assignScriptObjectId object s) !! object).
Proof.
  destruct (_scriptObjectIdMap s !! object) as [h|] eqn:E.
  - erewrite assign_registered; eauto.
  - rewrite assign_unseen by assumption. simpl. rewrite lookup_insert_eq. eauto.
Qed.

Lemma assign_each_cons r objects s :
  assign_each (r :: objects) s = assign_each objects (_assignScriptObjectId r s).
Proof. reflexivity. Qed.

Lemma assign_each_spec objects : forall s,
  wf s -> Forall (fun r => (r < length (heap s))%nat) objects ->
  wf (assign_each objects s) ∧ extends s (assign_each objects s) ∧
  heap (assign_each objects s) = heap s ∧
  _scriptObjectListStack (assign_each objects s) = _scriptObjectListStack s ∧
  Forall (fun r => is_Some (_scriptObjectIdMap (assign_each objects s) !! r)) objects.
Proof.
  induction objects as [|r objects IH]; intros s Hwf Hall.
  - simpl. split; [assumption|]. split; [reflexivity|]. split; [reflexivity|].
    split; [reflexivity|constructor].
  - inversion Hall as [|? ? Hr Hrest]; subst. rewrite assign_each_cons.
    destruct (IH (_assignScriptObjectId r s)) as (A & B & C & D & E).
    + apply wf_assign; assumption.
    + rewrite assign_heap. assumption.
    + split; [assumption|]. split; [etransitivity; [apply extends_assign | exact B]|].
      split; [rewrite C; apply assign_heap|].
      split; [rewrite D; apply assign_stack|].
      constructor; [|assumption].
      destruct (assign_is_Some r s) as [h Hh].
      exists h. eapply extends_lookup; eassumption.
Qed.

(** ** Promises that behave *)

Lemma safe_Pending s0 id k :
  safe s0 (Pending id k) <-> forall r s, wf s -> extends s0 s -> good s (k r s).
Proof. reflexivity. Qed.

Lemma safe_All_good s0 ts k :
  safe s0 (All ts k) <->
  Forall (safe s0) ts ∧ forall o s, wf s -> extends s0 s -> good s (k o s).
Proof. apply safe_All. Qed.

Lemma good_settled s o : wf s -> good s (s, settled o).
Proof. intros H. split; [exact H|]. split; [reflexivity|]. destruct o; exact I. Qed.

Lemma good_trans s s' now : extends s s' -> good s' now -> good s now.
Proof.
  intros H (A & B & C). split; [exact A|]. split; [|exact C]. etransitivity; eassumption.
Qed.

Lemma good_on_settle t : forall s h,
  wf s -> safe s t ->
  (forall o s', wf s' -> extends s s' -> good s' (h o s')) ->
  good s (on_settle t h s).
Proof.
  induction t as [v|e|id k IH|ts k _ IH|t bg IHt _] using Task_induction;
    intros s h Hwf Hs Hh.
  - simpl. apply Hh; [assumption|reflexivity].
  - simpl. apply Hh; [assumption|reflexivity].
  - simpl. split; [assumption|]. split; [reflexivity|]. simpl.
    intros r s1 Hwf1 Hext1.
    destruct (Hs r s1 Hwf1 Hext1) as (A & B & C).
    specialize (IH r s1). destruct (k r s1) as [s2 t2]. simpl in *.
    eapply good_trans; [exact B|]. apply IH; try assumption.
    intros o s' Hwf' Hext'. apply Hh; [assumption|].
    etransitivity; [exact Hext1|]. etransitivity; eassumption.
  - apply safe_All_good in Hs as [Hts Hk].
    simpl. split; [assumption|]. split; [reflexivity|]. simpl.
    apply safe_All_good. split; [assumption|].
    intros o s1 Hwf1 Hext1.
    destruct (Hk o s1 Hwf1 Hext1) as (A & B & C).
    specialize (IH o s1). destruct (k o s1) as [s2 t2]. simpl in *.
    eapply good_trans; [exact B|]. apply IH; try assumption.
    intros o' s' Hwf' Hext'. apply Hh; [assumption|].
    etransitivity; [exact Hext1|]. etransitivity; eassumption.
  - apply safe_Orphans in Hs as [Ht Hbg]. simpl.
    specialize (IHt s h Hwf Ht Hh). destruct (on_settle t h s) as [s' t'].
    destruct IHt as (A & B & C). simpl in *.
    split; [assumption|]. split; [assumption|]. simpl.
    apply safe_Orphans. split; [assumption|]. eapply Forall_safe_mono; eassumption.
Qed.

Lemma ok_ret v s : ok (ret v) s.
Proof. intros H. apply (good_settled s (inr v) H). Qed.

Lemma ok_throw e s : ok (throw e) s.
Proof. intros H. apply (good_settled s (inl e) H). Qed.

Lemma ok_bind m f s :
  ok m s -> (forall v s', extends s s' -> ok (f v) s') -> ok (bind m f) s.
Proof.
  intros Hm Hf Hwf. unfold bind. specialize (Hm Hwf).
  destruct (m s) as [s1 t]. destruct Hm as (A & B & C). simpl in *.
  eapply good_trans; [exact B|]. apply good_on_settle; try assumption.
  intros [e|v] s' Hwf' Hext'.
  - apply ok_throw. assumption.
  - apply Hf; [|assumption]. etransitivity; eassumption.
Qed.

Lemma ok_try_finally m cleanup s :
  ok m s ->
  (forall s', wf s' -> wf (cleanup s') ∧ extends s' (cleanup s')) ->
  ok (try_finally m cleanup) s.
Proof.
  intros Hm Hc Hwf. unfold try_finally. specialize (Hm Hwf).
  destruct (m s) as [s1 t]. destruct Hm as (A & B & C). simpl in *.
  eapply good_trans; [exact B|]. apply good_on_settle; try assumption.
  intros o s' Hwf' Hext'. destruct (Hc s' Hwf') as [C1 C2].
  split; [exact C1|]. split; [exact C2|]. destruct o; exact I.
Qed.

Lemma ok_jrpc_call method params k s :
  (forall response s', extends s s' -> ok (k response) s') ->
  ok (jrpc_call method params k) s.
Proof.
  intros Hk Hwf. unfold jrpc_call.
  split; [exact Hwf|]. split.
  - simpl. etransitivity; [apply extends_next_jrpc_id | apply extends_sendMessage].
  - simpl. intros r s' Hwf' Hext'. destruct r as [response|e].
    + apply Hk; [|assumption].
      etransitivity; [|exact Hext'].
      etransitivity; [apply extends_next_jrpc_id | apply extends_sendMessage].
    + apply (good_settled s' (inl (RemoteError e)) Hwf').
Qed.

Lemma good_with_orphans s s' t bg :
  wf s' -> extends s s' -> safe s' t -> Forall (safe s) bg ->
  good s (s', with_orphans t bg).
Proof.
  intros Hwf Hext Ht Hbg. split; [exact Hwf|]. split; [exact Hext|]. simpl.
  destruct bg as [|b bg]; [exact Ht|]. simpl with_orphans.
  apply safe_Orphans. split; [exact Ht|]. eapply Forall_safe_mono; eassumption.
Qed.

Lemma good_join ts k s :
  wf s -> Forall (safe s) ts ->
  (forall o s', wf s' -> extends s s' -> good s' (k o s')) ->
  good s (join ts k s).
Proof.
  intros Hwf Hts Hk. unfold join.
  destruct (first_rejection ts) as [e|].
  - specialize (Hk (inl e) s Hwf). destruct (k (inl e) s) as [s' t].
    destruct Hk as (A & B & C); [reflexivity|]. simpl in *.
    apply good_with_orphans; try assumption.
    apply Forall_forall. intros t' Ht'.
    apply list_elem_of_In, filter_In in Ht'. destruct Ht' as [Ht' _].
    rewrite Forall_forall in Hts. apply Hts, list_elem_of_In, Ht'.
  - destruct (all_resolved ts) as [vs|].
    + apply Hk; [assumption|reflexivity].
    + split; [exact Hwf|]. split; [reflexivity|]. simpl.
      apply safe_All_good. split; assumption.
Qed.

Lemma good_start_all ms : forall s,
  wf s ->
  Forall (fun m => forall s', extends s s' -> ok m s') ms ->
  wf (fst (start_all ms s)) ∧ extends s (fst (start_all ms s)) ∧
  Forall (safe (fst (start_all ms s))) (snd (start_all ms s)).
Proof.
  induction ms as [|m ms IH]; intros s Hwf Hms.
  - simpl. split; [assumption|]. split; [reflexivity|constructor].
  - inversion Hms as [|? ? Hm Hrest]; subst. simpl.
    destruct (Hm s (reflexivity _) Hwf) as (A & B & C).
    destruct (m s) as [s1 t]. simpl in *.
    destruct (IH s1 A) as (A' & B' & C').
    + eapply Forall_impl; [exact Hrest|]. intros m' Hm' s' Hext'.
      apply Hm'. etransitivity; eassumption.
    + destruct (start_all ms s1) as [s2 ts]. simpl in *.
      split; [assumption|]. split; [etransitivity; eassumption|].
      constructor; [|assumption]. eapply safe_mono; eassumption.
Qed.

Lemma ok_Promise_all ms f s :
  Forall (fun m => forall s', extends s s' -> ok m s') ms ->
  (forall vs s', extends s s' -> ok (f vs) s') ->
  ok (Promise_all ms f) s.
Proof.
  intros Hms Hf Hwf. unfold Promise_all.
  destruct (good_start_all ms s Hwf Hms) as (A & B & C).
  destruct (start_all ms s) as [s1 ts]. simpl in *.
  eapply good_trans; [exact B|]. apply good_join; try assumption.
  intros [e|vs] s' Hwf' Hext'.
  - apply ok_throw. assumption.
  - apply Hf; [|assumption]. etransitivity; eassumption.
Qed.

Lemma deliver_each_cons id r t ts s :
  deliver_each id r (t :: ts) s =
  let (s1, t') := deliver id r t s in
  let (s2, ts') := deliver_each id r ts s1 in
  (s2, t' :: ts').
Proof. reflexivity. Qed.

Lemma deliver_All id r ts k s :
  deliver id r (All ts k) s =
  let (s1, ts') := deliver_each id r ts s in join ts' k s1.
Proof. reflexivity. Qed.

Lemma deliver_Orphans id r t bg s :
  deliver id r (Orphans t bg) s =
  let (s1, t') := deliver id r t s in
  let (s2, bg') := deliver_each id r bg s1 in
  (s2, Orphans t' bg').
Proof. reflexivity. Qed.

Lemma good_deliver_each id r ts :
  Forall (fun t => forall s, wf s -> safe s t -> good s (deliver id r t s)) ts ->
  forall s, wf s -> Forall (safe s) ts ->
  wf (fst (deliver_each id r ts s)) ∧ extends s (fst (deliver_each id r ts s)) ∧
  Forall (safe (fst (deliver_each id r ts s))) (snd (deliver_each id r ts s)).
Proof.
  induction 1 as [|t ts Ht _ IH]; intros s Hwf Hs.
  - simpl. split; [assumption|]. split; [reflexivity|constructor].
  - inversion Hs as [|? ? Hst Hsts]; subst. rewrite deliver_each_cons.
    destruct (Ht s Hwf Hst) as (A & B & C).
    destruct (deliver id r t s) as [s1 t1]. simpl in *.
    destruct (IH s1 A (Forall_safe_mono _ _ _ B Hsts)) as (A' & B' & C').
    destruct (deliver_each id r ts s1) as [s2 ts2]. simpl in *.
    split; [assumption|]. split; [etransitivity; eassumption|].
    constructor; [|assumption]. eapply safe_mono; eassumption.
Qed.

Lemma good_deliver id r t : forall s, wf s -> safe s t -> good s (deliver id r t s).
Proof.
  induction t as [v|e|id' k _|ts k IHts _|t bg IHt IHbg] using Task_induction;
    intros s Hwf Hs.
  - apply (good_settled s (inr v) Hwf).
  - apply (good_settled s (inl e) Hwf).
  - simpl. destruct (Nat.eqb id id').
    + apply Hs; [assumption|reflexivity].
    + split; [assumption|]. split; [reflexivity|exact Hs].
  - rewrite deliver_All. apply safe_All_good in Hs as [Hts Hk].
    destruct (good_deliver_each id r ts IHts s Hwf Hts) as (A & B & C).
    destruct (deliver_each id r ts s) as [s1 ts1]. simpl in *.
    eapply good_trans; [exact B|]. apply good_join; try assumption.
    intros o s' Hwf' Hext'. apply Hk; [assumption|]. etransitivity; eassumption.
  - rewrite deliver_Orphans. apply safe_Orphans in Hs as [Ht Hbg].
    destruct (IHt s Hwf Ht) as (A & B & C).
    destruct (deliver id r t s) as [s1 t1]. simpl in *.
    destruct (good_deliver_each id r bg IHbg s1 A (Forall_safe_mono _ _ _ B Hbg))
      as (A' & B' & C').
    destruct (deliver_each id r bg s1) as [s2 bg2]. simpl in *.
    split; [assumption|]. split; [etransitivity; eassumption|]. simpl.
    apply safe_Orphans. split; [|assumption]. eapply safe_mono; eassumption.
Qed.

Lemma good_deliver_tasks id r ts s :
  wf s -> Forall (safe s) ts ->
  wf (fst (deliver_each id r ts s)) ∧ extends s (fst (deliver_each id r ts s)) ∧
  Forall (safe (fst (deliver_each id r ts s))) (snd (deliver_each id r ts s)).
Proof.
  apply good_deliver_each. apply Forall_forall. intros t _. apply good_deliver.
Qed.

(** ** The methods of the manager behave *)

Lemma build_proxy_state scriptObjectId properties methods s :
  exists o,
    fst (build_proxy scriptObjectId properties methods s) =
    set_scriptObjectIdMap (<[length (heap s) := scriptObjectId]> (_scriptObjectIdMap s))
                          (set_heap (heap s ++ [HProxy o]) s)
    ∧ is_settled (snd (build_proxy scriptObjectId properties methods s)) = true.
Proof.
  unfold build_proxy.
  destruct (build_object (WScriptObject scriptObjectId) properties methods) as [[e o]|o];
    exists o; split; reflexivity.
Qed.

Lemma unregistered_beyond_heap s r :
  wf s -> (length (heap s) <= r)%nat -> _scriptObjectIdMap s !! r = None.
Proof.
  intros (_ & H & _) Hr. destruct (_scriptObjectIdMap s !! r) as [h|] eqn:E; [|reflexivity].
  apply H in E. simpl in E. lia.
Qed.

Lemma register_proxy_spec scriptObjectId o s :
  scriptObjectId ≠ API_VALUE_INVALID_SCRIPT_OBJECT -> wf s ->
  let s' := set_scriptObjectIdMap (<[length (heap s) := scriptObjectId]> (_scriptObjectIdMap s))
                                  (set_heap (heap s ++ [HProxy o]) s) in
  wf s' ∧ extends s s'.
Proof.
  intros Hid Hwf s'. pose proof Hwf as (H1 & H2 & H3 & H4). split.
  - subst s'. split_wf.
    + assumption.
    + apply map_Forall_insert_2.
      * rewrite length_app. simpl. split; [lia|]. split; [assumption|].
        unfold is_proxy. simpl. rewrite list_lookup_middle by reflexivity. discriminate.
      * eapply map_Forall_impl; [exact H2|]. simpl. intros r h (A & B & C).
        rewrite length_app. split; [lia|]. split; [assumption|].
        unfold is_proxy in *. simpl. rewrite lookup_app_l by assumption. exact C.
    + eapply Forall_impl; [exact H3|]. intros l Hl.
      eapply Forall_impl; [exact Hl|]. intros r [A B].
      rewrite length_app. split; [lia|].
      rewrite lookup_insert_ne by lia. assumption.
    + eapply Forall_impl; [exact H4|]. intros p Hp. simpl in *.
      rewrite length_app. lia.
  - subst s'. split_extends; try reflexivity.
    + apply insert_subseteq. apply unregistered_beyond_heap; [assumption|lia].
    + apply prefix_app_r. reflexivity.
Qed.

Lemma ok_build_proxy scriptObjectId properties methods s :
  scriptObjectId ≠ API_VALUE_INVALID_SCRIPT_OBJECT ->
  ok (build_proxy scriptObjectId properties methods) s.
Proof.
  intros Hid Hwf.
  destruct (build_proxy_state scriptObjectId properties methods s) as (o & Hs & Ht).
  destruct (register_proxy_spec scriptObjectId o s Hid Hwf) as [A B].
  unfold good. rewrite Hs. split; [exact A|]. split; [exact B|].
  destruct (snd (build_proxy scriptObjectId properties methods s)); try discriminate; exact I.
Qed.

Lemma ok_describeScriptObject scriptObjectId s :
  scriptObjectId ≠ API_VALUE_INVALID_SCRIPT_OBJECT ->
  ok (_describeScriptObject scriptObjectId) s.
Proof.
  intros Hid. unfold _describeScriptObject.
  apply ok_jrpc_call. intros properties s1 _.
  apply ok_jrpc_call. intros methods s2 _.
  apply ok_build_proxy, Hid.
Qed.

Lemma ok_deserialize value s : ok (_deserialize value) s.
Proof.
  destruct value as [b|n|str| |h| |items]; unfold _deserialize; simpl;
    try apply ok_ret; try apply ok_throw.
  destruct (Z.eqb_spec h API_VALUE_INVALID_SCRIPT_OBJECT).
  - apply ok_ret.
  - apply ok_describeScriptObject. assumption.
Qed.

Lemma ok_createGetter serializedTarget propertyName s :
  ok (_createGetter serializedTarget propertyName) s.
Proof.
  unfold _createGetter. apply ok_jrpc_call. intros response s' _. apply ok_deserialize.
Qed.

Lemma ok_createSetter serializedTarget propertyName value s :
  ok (_createSetter serializedTarget propertyName value) s.
Proof.
  intros Hwf. unfold _createSetter. destruct (_serialize value s) as [e|w].
  - apply (good_settled s (inl e) Hwf).
  - apply ok_jrpc_call; [|assumption]. intros response s' _. apply ok_ret.
Qed.

Lemma instanceof_Object_Some st arg r :
  instanceof_Object st arg = Some r -> arg = VObject r.
Proof.
  destruct arg as [| |b|n|str|r']; try discriminate. simpl.
  destruct (heap st !! r') as [[body| |o|[|] body conversion]|]; try discriminate;
    intros [= ->]; reflexivity.
Qed.

Lemma object_arguments_exist args s :
  forallb (exists_in s) args = true ->
  Forall (fun r => (r < length (heap s))%nat) (omap (instanceof_Object s) args).
Proof.
  intros H. apply Forall_forall. intros r Hr.
  apply list_elem_of_omap in Hr as (a & Ha & Hinst).
  apply instanceof_Object_Some in Hinst. subst a.
  rewrite forallb_forall in H. apply list_elem_of_In, H in Ha. apply Nat.ltb_lt, Ha.
Qed.

Lemma ok_callAPIMethod serializedTarget methodName args s :
  forallb (exists_in s) args = true ->
  ok (_callAPIMethod serializedTarget methodName args) s.
Proof.
  intros Hargs Hwf. unfold _callAPIMethod.
  pose proof (object_arguments_exist args s Hargs) as Hobjs.
  destruct (assign_each_spec _ s Hwf Hobjs) as (A & B & C & D & E).
  set (s1 := assign_each (omap (instanceof_Object s) args) s) in *.
  assert (Hwf2 : wf (unshift (omap (instanceof_Object s) args) s1)).
  { apply wf_unshift; [assumption|].
    rewrite Forall_forall in Hobjs, E |- *. intros r Hr. rewrite C. split; auto. }
  eapply good_trans; [etransitivity; [exact B | apply extends_unshift]|].
  apply ok_try_finally; [|intros s' Hs'; split; [apply wf_shift; assumption | apply extends_shift]|assumption].
  intros Hwf'. destruct (serialize_each args _) as [e|ws].
  - apply (good_settled _ (inl e) Hwf').
  - apply ok_jrpc_call; [|assumption]. intros response s' _. apply ok_deserialize.
Qed.

Lemma ok_call_getter get s : ok (call_getter get) s.
Proof. destruct get. apply ok_createGetter. Qed.

Lemma ok_call_setter set value s : ok (call_setter set value) s.
Proof. destruct set. apply ok_createSetter. Qed.

Lemma ok_call_method method args s :
  forallb (exists_in s) args = true -> ok (call_method method args) s.
Proof. intros Hargs. destruct method. apply ok_callAPIMethod, Hargs. Qed.

Lemma ok_call_registerCallback apiRootObject name fn s :
  (fn < length (heap s))%nat -> ok (call_registerCallback apiRootObject name fn) s.
Proof.
  intros Hfn Hwf. unfold call_registerCallback.
  destruct apiRootObject as [| | | | |r];
    try apply (good_settled s (inl _) Hwf).
  destruct (heap s !! r) as [[body| |o|instance body conversion]|]; try apply (good_settled s (inl _) Hwf).
  destruct (getOwnProperty (properties o) "registerCallback") as [[g st e c|c wr e cf]|];
    try apply (good_settled s (inl _) Hwf).
  - destruct (ok_call_getter g s Hwf) as (A & B & C).
    destruct (call_getter g s) as [s' t]. simpl in *.
    split; [assumption|]. split; [assumption|].
    apply safe_Orphans. split; [exact I|]. constructor; [assumption|constructor].
  - apply ok_call_method; [|assumption]. simpl.
    apply Nat.ltb_lt in Hfn. rewrite Hfn. reflexivity.
Qed.

Lemma ok_register_each apiRootObject entries : forall s,
  Forall (fun p => (snd p < length (heap s))%nat) entries ->
  ok (register_each apiRootObject entries) s.
Proof.
  induction entries as [|[name fn] entries IH]; intros s Hall.
  - apply ok_ret.
  - inversion Hall as [|? ? Hfn Hrest]; subst. simpl.
    apply ok_bind.
    + apply ok_call_registerCallback. assumption.
    + intros _ s' Hext. apply IH.
      eapply Forall_impl; [exact Hrest|]. intros p Hp. simpl in *.
      pose proof (extends_heap_length _ _ Hext). lia.
Qed.

(** ** [Object.entries] lists every property once *)

Lemma insert_by_index_perm e l : insert_by_index e l ≡ₚ e :: l.
Proof.
  induction l as [|x l IH]; simpl; [reflexivity|].
  destruct (fst e <? fst x)%N; [reflexivity|].
  rewrite IH. apply perm_swap.
Qed.

Lemma sort_by_index_perm l : foldr insert_by_index [] l ≡ₚ l.
Proof.
  induction l as [|x l IH]; simpl; [reflexivity|].
  rewrite insert_by_index_perm, IH. reflexivity.
Qed.

Lemma index_entries_cons p o :
  index_entries (p :: o) =
  match array_index (fst p) with
  | Some n => (n, p) :: index_entries o
  | None => index_entries o
  end.
Proof. unfold index_entries. simpl. destruct (array_index (fst p)); reflexivity. Qed.

Lemma index_entries_filter o :
  map snd (index_entries o) =
  List.filter (fun p => match array_index (fst p) with Some _ => true | None => false end) o.
Proof.
  induction o as [|p o IH]; [reflexivity|].
  rewrite index_entries_cons. simpl.
  destruct (array_index (fst p)); simpl; rewrite IH; reflexivity.
Qed.

Lemma Object_entries_perm o : Object_entries o ≡ₚ o.
Proof.
  unfold Object_entries. rewrite sort_by_index_perm, index_entries_filter.
  induction o as [|p o IH]; simpl; [reflexivity|].
  destruct (array_index (fst p)); simpl.
  - rewrite IH. reflexivity.
  - rewrite <- Permutation_middle, IH. reflexivity.
Qed.

(** Where no name is an array index, the order is the order written. *)
Lemma Object_entries_no_index o :
  Forall (fun p => array_index (fst p) = None) o -> Object_entries o = o.
Proof.
  intros H. unfold Object_entries.
  assert (E : index_entries o = []).
  { induction H as [|p o Hp _ IH]; [reflexivity|].
    rewrite index_entries_cons, Hp. exact IH. }
  rewrite E. simpl.
  induction H as [|p o Hp H IH]; [reflexivity|].
  simpl. rewrite Hp. f_equal. apply IH.
  rewrite index_entries_cons, Hp in E. exact E.
Qed.

Lemma Object_entries_exist o (n : nat) :
  Forall (fun p => (snd p < n)%nat) o -> Forall (fun p => (snd p < n)%nat) (Object_entries o).
Proof. intros H. rewrite Object_entries_perm. exact H. Qed.

(** ** Sessions stay well formed *)

Lemma ok_initialize token s : ok (initialize token) s.
Proof.
  unfold initialize.
  apply ok_jrpc_call. intros _ s1 _.
  apply ok_jrpc_call. intros response s2 _.
  apply ok_bind; [apply ok_deserialize|].
  intros apiRootObject s3 _ Hwf.
  apply ok_bind; [|intros; apply ok_ret|assumption].
  apply ok_register_each. apply Object_entries_exist.
  destruct Hwf as (_ & _ & _ & H). exact H.
Qed.

Lemma ok_apply_function fn body functionArguments s :
  ok (apply_function fn body functionArguments) s.
Proof.
  intros Hwf. unfold apply_function.
  assert (G : forall o, good s (record_application fn functionArguments s, settled o)).
  { intros o. split; [apply wf_record_application, Hwf|].
    split; [apply extends_record_application|]. destruct o; exact I. }
  destruct (body functionArguments) as [v|e].
  - apply (G (inr VUndefined)).
  - apply (G (inl e)).
Qed.

Lemma ok_handleAPICallback functionId args s : ok (_handleAPICallback functionId args) s.
Proof.
  intros Hwf. unfold _handleAPICallback.
  destruct (_findScriptObject functionId s) as [callbackFunction|];
    [|apply (good_settled s (inl _) Hwf)].
  destruct (as_function callbackFunction s) as [body|];
    [|apply (good_settled s (inl _) Hwf)].
  apply ok_Promise_all; [| |assumption].
  - apply Forall_forall. intros m Hm s' _.
    apply list_elem_of_fmap in Hm as (w & -> & _). apply ok_deserialize.
  - intros vs s' _. apply ok_apply_function.
Qed.

Lemma ok_on_callback id functionId args s : ok (on_callback id functionId args) s.
Proof.
  intros Hwf. unfold on_callback.
  destruct (ok_handleAPICallback functionId args s Hwf) as (A & B & C).
  destruct (_handleAPICallback functionId args s) as [s1 t]. simpl in *.
  eapply good_trans; [exact B|]. apply good_on_settle; try assumption.
  intros o s' Hwf' _. split; [apply wf_sendMessage, Hwf'|].
  split; [apply extends_sendMessage|]. destruct o; exact I.
Qed.

Lemma world_ok_spawn m w :
  world_ok w -> ok m (state w) ->
  world_ok (spawn m w) ∧ extends (state w) (state (spawn m w)).
Proof.
  intros [Hwf Hts] Hm. unfold spawn. destruct (Hm Hwf) as (A & B & C).
  destruct (m (state w)) as [s t]. simpl in *.
  split; [|assumption]. split; [assumption|]. simpl.
  apply Forall_app. split; [eapply Forall_safe_mono; eassumption|].
  constructor; [assumption|constructor].
Qed.

Lemma world_ok_deliver id r w :
  world_ok w ->
  let now := deliver_each id r (tasks w) (state w) in
  world_ok (mkWorld (fst now) (snd now)) ∧ extends (state w) (fst now).
Proof.
  intros [Hwf Hts]. simpl.
  destruct (good_deliver_tasks id r (tasks w) (state w) Hwf Hts) as (A & B & C).
  split; [split|]; assumption.
Qed.

Lemma world_ok_processMessage message w :
  world_ok w ->
  world_ok (processMessage message w) ∧ extends (state w) (state (processMessage message w)).
Proof.
  intros Hw. destruct message as [id result|id error|id functionId args]; simpl.
  - pose proof (world_ok_deliver id (Result result) w Hw) as H. simpl in H.
    destruct (deliver_each id (Result result) (tasks w) (state w)). exact H.
  - pose proof (world_ok_deliver id (ErrorReply error) w Hw) as H. simpl in H.
    destruct (deliver_each id (ErrorReply error) (tasks w) (state w)). exact H.
  - apply world_ok_spawn; [assumption|]. apply ok_on_callback.
Qed.

Lemma world_ok_new_object o w :
  world_ok w ->
  let w' := mkWorld (set_heap (heap (state w) ++ [o]) (state w)) (tasks w) in
  world_ok w' ∧ extends (state w) (state w').
Proof.
  intros [Hwf Hts]. simpl.
  assert (Hext : extends (state w) (set_heap (heap (state w) ++ [o]) (state w))).
  { split_extends; try reflexivity. apply prefix_app_r. reflexivity. }
  split; [|exact Hext]. split; [|eapply Forall_safe_mono; eassumption].
  destruct Hwf as (H1 & H2 & H3 & H4). simpl. split_wf.
  - assumption.
  - eapply map_Forall_impl; [exact H2|]. simpl. intros r h (A & B & C).
    rewrite length_app. split; [lia|]. split; [assumption|].
    unfold is_proxy in *. simpl. rewrite lookup_app_l by assumption. exact C.
  - eapply Forall_impl; [exact H3|]. intros l Hl.
    eapply Forall_impl; [exact Hl|]. intros r [A B]. rewrite length_app. split; [lia|assumption].
  - eapply Forall_impl; [exact H4|]. intros p Hp. simpl in *. rewrite length_app. lia.
Qed.

Lemma world_ok_perform a w :
  world_ok w -> world_ok (perform a w) ∧ extends (state w) (state (perform a w)).
Proof.
  intros Hw. destruct a as [o|token|proxy name|proxy name value|proxy name args|message]; simpl.
  - apply world_ok_new_object, Hw.
  - apply world_ok_spawn; [assumption|apply ok_initialize].
  - unfold caller_reads.
    destruct (member (VObject proxy) name (state w)) as [[g st e c|c wr e cf]|];
      try (split; [assumption|reflexivity]).
    apply world_ok_spawn; [assumption|]. apply ok_call_getter.
  - destruct (exists_in (state w) value) eqn:E; [|split; [assumption|reflexivity]].
    unfold caller_writes.
    destruct (member (VObject proxy) name (state w)) as [[g st e c|c wr e cf]|];
      try (split; [assumption|reflexivity]).
    apply world_ok_spawn; [assumption|]. apply ok_call_setter.
  - destruct (forallb (exists_in (state w)) args) eqn:E; [|split; [assumption|reflexivity]].
    unfold caller_calls.
    destruct (member (VObject proxy) name (state w)) as [[g st e c|c wr e cf]|];
      try (split; [assumption|reflexivity]).
    + apply world_ok_spawn; [assumption|]. apply ok_call_getter.
    + apply world_ok_spawn; [assumption|]. apply ok_call_method. exact E.
  - apply world_ok_processMessage, Hw.
Qed.

Lemma world_ok_run actions : forall w,
  world_ok w -> world_ok (run actions w) ∧ extends (state w) (state (run actions w)).
Proof.
  induction actions as [|a actions IH]; intros w Hw.
  - split; [assumption|reflexivity].
  - simpl. destruct (world_ok_perform a w Hw) as [A B].
    destruct (IH (perform a w) A) as [A' B'].
    split; [exact A'|]. etransitivity; eassumption.
Qed.

Lemma wf_constructor objects globalCallbacksMap :
  callbacks_exist objects globalCallbacksMap = true ->
  wf (constructor objects globalCallbacksMap).
Proof.
  intros H. unfold constructor.
  set (st0 := mkState API_VALUE_INVALID_SCRIPT_OBJECT ∅ [] [] 1%nat [] objects []).
  assert (Hwf0 : wf st0).
  { split_wf; [reflexivity|apply map_Forall_empty|constructor|constructor]. }
  assert (Hgcm : Forall (fun p : string * Ref => (snd p < length objects)%nat) globalCallbacksMap).
  { unfold callbacks_exist in H. rewrite forallb_forall in H.
    apply Forall_forall. intros p Hp. apply Nat.ltb_lt, H, list_elem_of_In, Hp. }
  assert (Hvals : Forall (fun r => (r < length (heap st0))%nat) (Object_values globalCallbacksMap)).
  { unfold Object_values. apply Forall_fmap. apply Object_entries_exist in Hgcm.
    eapply Forall_impl; [exact Hgcm|]. intros p Hp. exact Hp. }
  destruct (assign_each_spec _ st0 Hwf0 Hvals) as (A & B & C & D & E).
  set (st1 := assign_each (Object_values globalCallbacksMap) st0) in *.
  destruct A as (A1 & A2 & A3 & A4). split_wf.
  - exact A1.
  - exact A2.
  - constructor; [|constructor].
    rewrite Forall_forall in Hvals, E |- *. intros r Hr. rewrite C. split; auto.
  - rewrite C. exact Hgcm.
Qed.

Lemma world_ok_start objects globalCallbacksMap :
  callbacks_exist objects globalCallbacksMap = true ->
  world_ok (start objects globalCallbacksMap).
Proof. intros H. split; [apply wf_constructor, H|constructor]. Qed.

(** Every session is well formed at every moment, and each moment is
    later than the moments before it. *)
Lemma session_well_formed objects globalCallbacksMap actions more :
  callbacks_exist objects globalCallbacksMap = true ->
  let w := run actions (start objects globalCallbacksMap) in
  wf (state w) ∧ extends (state w) (state (run more w)).
Proof.
  intros H w. destruct (world_ok_run actions _ (world_ok_start _ _ H)) as [A _].
  fold w in A. destruct (world_ok_run more w A) as [_ B].
  split; [apply A|exact B].
Qed.

(** ** Resolving a handle against the frames *)

Lemma find_in_list_Some ids scriptObjectId l r :
  find_in_list ids scriptObjectId l = Some r -> r ∈ l ∧ ids !! r = Some scriptObjectId.
Proof.
  induction l as [|x l IH]; simpl; [discriminate|].
  destruct (ids !! x) as [h|] eqn:E.
  - destruct (Z.eqb_spec h scriptObjectId) as [->|Hne].
    + intros [= <-]. split; [left|assumption].
    + intros H. destruct (IH H). split; [right|]; assumption.
  - intros H. destruct (IH H). split; [right|]; assumption.
Qed.

Lemma find_in_list_None ids scriptObjectId l :
  (forall r, r ∈ l -> ids !! r ≠ Some scriptObjectId) ->
  find_in_list ids scriptObjectId l = None.
Proof.
  induction l as [|x l IH]; intros H; simpl; [reflexivity|].
  assert (Hx : ids !! x ≠ Some scriptObjectId) by (apply H; left).
  assert (Hl : find_in_list ids scriptObjectId l = None)
    by (apply IH; intros r Hr; apply H; right; exact Hr).
  destruct (ids !! x) as [h|]; [|exact Hl].
  destruct (Z.eqb_spec h scriptObjectId) as [->|Hne]; [congruence|exact Hl].
Qed.

Lemma find_in_stack_Some ids scriptObjectId stack r :
  find_in_stack ids scriptObjectId stack = Some r ->
  r ∈ concat stack ∧ ids !! r = Some scriptObjectId.
Proof.
  induction stack as [|l stack IH]; simpl; [discriminate|].
  destruct (find_in_list ids scriptObjectId l) as [x|] eqn:E.
  - intros [= <-]. apply find_in_list_Some in E as [A B].
    split; [apply elem_of_app; left|]; assumption.
  - intros H. destruct (IH H). split; [apply elem_of_app; right|]; assumption.
Qed.

Lemma find_in_stack_None ids scriptObjectId stack :
  (forall r, r ∈ concat stack -> ids !! r ≠ Some scriptObjectId) ->
  find_in_stack ids scriptObjectId stack = None.
Proof.
  induction stack as [|l stack IH]; intros H; simpl; [reflexivity|].
  rewrite find_in_list_None.
  - apply IH. intros r Hr. apply H. simpl. apply elem_of_app. right. exact Hr.
  - intros r Hr. apply H. simpl. apply elem_of_app. left. exact Hr.
Qed.

Lemma in_frames_spec st r :
  in_frames st r <-> exists l, l ∈ _scriptObjectListStack st ∧ r ∈ l.
Proof.
  unfold in_frames. rewrite list_elem_of_In, in_concat.
  split; intros (l & A & B); exists l; rewrite ?list_elem_of_In in *; tauto.
Qed.

(** What [_findScriptObject] returns is in a frame and has the handle. *)
Lemma findScriptObject_Some scriptObjectId st r :
  _findScriptObject scriptObjectId st = Some r ->
  in_frames st r ∧ _scriptObjectIdMap st !! r = Some scriptObjectId.
Proof. apply find_in_stack_Some. Qed.

Lemma findScriptObject_None scriptObjectId st :
  (forall r, in_frames st r -> _scriptObjectIdMap st !! r ≠ Some scriptObjectId) ->
  _findScriptObject scriptObjectId st = None.
Proof. apply find_in_stack_None. Qed.

(** ** What assigning handles leaves alone *)

Lemma assign_untouched object s :
  sent (_assignScriptObjectId object s) = sent s
  ∧ jrpc_id (_assignScriptObjectId object s) = jrpc_id s
  ∧ heap (_assignScriptObjectId object s) = heap s
  ∧ applied (_assignScriptObjectId object s) = applied s
  ∧ _scriptObjectListStack (_assignScriptObjectId object s) = _scriptObjectListStack s
  ∧ _globalCallbacksMap (_assignScriptObjectId object s) = _globalCallbacksMap s.
Proof. unfold _assignScriptObjectId. destruct (_ !! _); repeat split. Qed.

Lemma assign_each_untouched objects : forall s,
  sent (assign_each objects s) = sent s
  ∧ jrpc_id (assign_each objects s) = jrpc_id s
  ∧ heap (assign_each objects s) = heap s
  ∧ applied (assign_each objects s) = applied s
  ∧ _scriptObjectListStack (assign_each objects s) = _scriptObjectListStack s
  ∧ _globalCallbacksMap (assign_each objects s) = _globalCallbacksMap s.
Proof.
  induction objects as [|r objects IH]; intros s; [repeat split|].
  rewrite assign_each_cons.
  destruct (IH (_assignScriptObjectId r s)) as (A & B & C & D & E & F).
  destruct (assign_untouched r s) as (A' & B' & C' & D' & E' & F').
  repeat split; congruence.
Qed.

Lemma constructor_fields objects globalCallbacksMap :
  sent (constructor objects globalCallbacksMap) = []
  ∧ jrpc_id (constructor objects globalCallbacksMap) = 1%nat
  ∧ heap (constructor objects globalCallbacksMap) = objects
  ∧ applied (constructor objects globalCallbacksMap) = []
  ∧ _scriptObjectListStack (constructor objects globalCallbacksMap)
    = [Object_values globalCallbacksMap]
  ∧ _globalCallbacksMap (constructor objects globalCallbacksMap) = globalCallbacksMap.
Proof.
  unfold constructor. simpl.
  destruct (assign_each_untouched (Object_values globalCallbacksMap)
              (mkState API_VALUE_INVALID_SCRIPT_OBJECT ∅ [] [] 1%nat [] objects []))
    as (A & B & C & D & E & F).
  repeat split; assumption.
Qed.

(* ===================================================================== *)
(** ** C5: the codec on the absence value, null and plain values *)
(* ===================================================================== *)

(** C5.  Whatever the state: the absence value serializes to the empty
    marker and the empty marker deserializes to the absence value; null
    serializes to the invalid handle, which is 0, and the invalid handle
    deserializes to null; booleans, numbers and strings go through both
    directions unchanged.  None of these sends a request or changes the
    state. *)
Theorem C5_codec_absence_null_plain :
  forall (st : State) (b : bool) (n : Z) (s : string),
    _serialize VUndefined st = inr WEmpty
    ∧ _deserialize WEmpty st = (st, Resolved VUndefined)
    ∧ _serialize VNull st = inr (WScriptObject API_VALUE_INVALID_SCRIPT_OBJECT)
    ∧ API_VALUE_INVALID_SCRIPT_OBJECT = 0
    ∧ _deserialize (WScriptObject API_VALUE_INVALID_SCRIPT_OBJECT) st = (st, Resolved VNull)
    ∧ _serialize (VBool b) st = inr (WBool b)
    ∧ _deserialize (WBool b) st = (st, Resolved (VBool b))
    ∧ _serialize (VNum n) st = inr (WNum n)
    ∧ _deserialize (WNum n) st = (st, Resolved (VNum n))
    ∧ _serialize (VStr s) st = inr (WStr s)
    ∧ _deserialize (WStr s) st = (st, Resolved (VStr s)).
Proof. intros st b n s. repeat split. Qed.

(* ===================================================================== *)
(** ** C8: a refused authentication ends [initialize] *)
(* ===================================================================== *)

(** C8.  [initialize(token)] first sends "authenticate" with the token and
    nothing else.  When the reply to that request carries an error, in
    whatever state [s] it arrives, the promise of [initialize] is rejected
    with that error and the state is [s] still: nothing more was sent, and
    a rejected promise has no continuation that could send "getRootObject"
    later.  In a fresh session the only message ever handed to
    [sendMessage] is the "authenticate" request. *)
Theorem C8_failed_authentication_stops_initialize :
  forall (token : string) (error : SerializedValue) (st s : State)
         (objects : list HeapObject) (globalCallbacksMap : JSRecord),
    fst (initialize token st)
    = sendMessage (OutRequest (jrpc_id st) API_SERVER_METHOD_AUTHENTICATE (Some [WStr token]))
                  (next_jrpc_id st)
    ∧ deliver (jrpc_id st) (ErrorReply error) (snd (initialize token st)) s
      = (s, Rejected (RemoteError error))
    ∧ (let w := run [Initialize token; Receive (InError 1 error)]
                    (start objects globalCallbacksMap) in
       sent (state w) = [OutRequest 1 "authenticate" (Some [WStr token])]
       ∧ tasks w = [Rejected (RemoteError error)]).
Proof.
  intros token error st s objects globalCallbacksMap.
  split; [reflexivity|]. split.
  - simpl. rewrite Nat.eqb_refl. reflexivity.
  - destruct (constructor_fields objects globalCallbacksMap) as (A & B & _).
    unfold start. set (st0 := constructor objects globalCallbacksMap) in *. clearbody st0.
    cbn. rewrite B. cbn. rewrite A. split; reflexivity.
Qed.

(* ===================================================================== *)
(** ** C2: a callback whose handle resolves to no function *)
(* ===================================================================== *)

(** C2.  When no reference of the frames pushed at the moment has the
    handle of an inbound callback, or when the handle resolves to a
    reference that is not a function, the handler is rejected with the
    error "Function was not found - ID: <handle>", the engine answers with
    an error reply that carries it, and nothing else happens: the state is
    the old state plus that one reply, no argument is decoded and no
    function of the caller is applied. *)
Theorem C2_unresolved_callback_is_refused :
  forall (id : nat) (functionId : Z) (serializedArgs : list SerializedValue) (st : State),
    (forall r, in_frames st r -> _scriptObjectIdMap st !! r ≠ Some functionId)
    ∨ (exists r, _findScriptObject functionId st = Some r ∧ as_function r st = None) ->
    _handleAPICallback functionId serializedArgs st
    = (st, Rejected (function_not_found functionId))
    ∧ on_callback id functionId serializedArgs st
      = (sendMessage (OutError id (function_not_found functionId)) st,
         Rejected (function_not_found functionId))
    ∧ function_not_found functionId
      = JSError ("Function was not found - ID: " ++ string_of_Z functionId)
    ∧ applied (fst (on_callback id functionId serializedArgs st)) = applied st.
Proof.
  intros id functionId serializedArgs st H.
  assert (E : _handleAPICallback functionId serializedArgs st
              = (st, Rejected (function_not_found functionId))).
  { unfold _handleAPICallback. destruct H as [H|(r & Hr & Hf)].
    - rewrite findScriptObject_None by exact H. reflexivity.
    - rewrite Hr, Hf. reflexivity. }
  split; [exact E|].
  assert (E' : on_callback id functionId serializedArgs st
               = (sendMessage (OutError id (function_not_found functionId)) st,
                  Rejected (function_not_found functionId))).
  { unfold on_callback. rewrite E. reflexivity. }
  split; [exact E'|]. split; [reflexivity|]. rewrite E'. reflexivity.
Qed.

Lemma C2_witness :
  (exists r, _findScriptObject 1 (state plain_object_in_frame) = Some r
             ∧ as_function r (state plain_object_in_frame) = None)
  ∧ on_callback 1000 1 [WNum 7] (state plain_object_in_frame)
    = (sendMessage (OutError 1000 (JSError "Function was not found - ID: 1"))
                   (state plain_object_in_frame),
       Rejected (JSError "Function was not found - ID: 1")).
Proof.
  assert (H : exists r, _findScriptObject 1 (state plain_object_in_frame) = Some r
                        ∧ as_function r (state plain_object_in_frame) = None).
  { exists 0%nat. split; vm_compute; reflexivity. }
  split; [exact H|].
  apply (C2_unresolved_callback_is_refused 1000 1 [WNum 7] (state plain_object_in_frame)).
  right. exact H.
Defined.

(* ===================================================================== *)
(** ** C4: what [_serialize] refuses *)
(* ===================================================================== *)

Lemma serialize_registered st r h :
  _scriptObjectIdMap st !! r = Some h -> _serialize (VObject r) st = inr (WScriptObject h).
Proof. intros H. unfold _serialize. simpl. rewrite H. reflexivity. Qed.


Lemma assign_each_other objects r : forall s,
  r ∉ objects ->
  _scriptObjectIdMap (assign_each objects s) !! r = _scriptObjectIdMap s !! r.
Proof.
  induction objects as [|x objects IH]; intros s Hr; [reflexivity|].
  apply not_elem_of_cons in Hr as [Hne Hr]. rewrite assign_each_cons, (IH _ Hr).
  unfold _assignScriptObjectId. destruct (_scriptObjectIdMap s !! x); [reflexivity|].
  simpl. apply lookup_insert_ne. congruence.
Qed.

Lemma assign_each_keeps objects r h : forall s,
  _scriptObjectIdMap s !! r = Some h ->
  _scriptObjectIdMap (assign_each objects s) !! r = Some h.
Proof.
  induction objects as [|x objects IH]; intros s H; [exact H|].
  rewrite assign_each_cons. apply IH. eapply extends_lookup; [apply extends_assign|exact H].
Qed.

Lemma serialize_each_fails args s r :
  VObject r ∈ args -> _scriptObjectIdMap s !! r = None ->
  exists e, serialize_each args s = inl e.
Proof.
  induction args as [|a args IH]; intros Hin Hr; [inversion Hin|].
  simpl. destruct (_serialize a s) as [e|w] eqn:E; [eauto|].
  apply elem_of_cons in Hin as [<-|Hin].
  - unfold _serialize in E. simpl in E. rewrite Hr in E. discriminate.
  - destruct (IH Hin Hr) as [e ->]. eauto.
Qed.


(** A method call of which an argument cannot be serialized: the frame
    that was pushed is shifted at once and nothing is sent. *)
Lemma callAPIMethod_fails serializedTarget methodName args s e :
  let frame := omap (instanceof_Object s) args in
  let s1 := unshift frame (assign_each frame s) in
  serialize_each args s1 = inl e ->
  _callAPIMethod serializedTarget methodName args s = (shift s1, Rejected e)
  ∧ sent (shift s1) = sent s
  ∧ jrpc_id (shift s1) = jrpc_id s
  ∧ _scriptObjectListStack (shift s1) = _scriptObjectListStack s.
Proof.
  intros frame s1 H.
  destruct (assign_each_untouched frame s) as (Hsent & Hid & _ & _ & Hstack & _).
  split; [|split; [exact Hsent|split; [exact Hid|exact Hstack]]].
  unfold _callAPIMethod, try_finally. fold frame. fold s1. rewrite H. reflexivity.
Qed.



(* ===================================================================== *)
(** ** C6: how handles are assigned *)
(* ===================================================================== *)

(** C6.  At any moment [st] of any session:
    - assigning a handle to an unseen reference gives it the counter plus
      one, which becomes the counter and is greater than the handle of
      every object of the caller registered before;
    - assigning a handle to a registered reference changes nothing at all;
    - no reference loses or changes its handle through an assignment, nor
      ever after in the session;
    - no handle in the map is the invalid handle 0, and none becomes it. *)
Theorem C6_handle_assignment :
  forall (objects : list HeapObject) (globalCallbacksMap : JSRecord)
         (actions : list Action) (object : Ref),
    callbacks_exist objects globalCallbacksMap = true ->
    let w := run actions (start objects globalCallbacksMap) in
    let st := state w in
    let st' := _assignScriptObjectId object st in
    (_scriptObjectIdMap st !! object = None ->
       _scriptObjectIdMap st' !! object = Some (_lastScriptObjectId st + 1)
       ∧ _lastScriptObjectId st' = _lastScriptObjectId st + 1
       ∧ forall r h, is_proxy st r = false -> _scriptObjectIdMap st !! r = Some h ->
                     h < _lastScriptObjectId st + 1)
    ∧ (is_Some (_scriptObjectIdMap st !! object) -> st' = st)
    ∧ (forall r h, _scriptObjectIdMap st !! r = Some h ->
         _scriptObjectIdMap st' !! r = Some h
         ∧ h ≠ API_VALUE_INVALID_SCRIPT_OBJECT
         ∧ forall more, _scriptObjectIdMap (state (run more w)) !! r = Some h)
    ∧ (forall h, _scriptObjectIdMap st' !! object = Some h -> h ≠ API_VALUE_INVALID_SCRIPT_OBJECT)
    ∧ API_VALUE_INVALID_SCRIPT_OBJECT = 0.
Proof.
  intros objects globalCallbacksMap actions object Hgcm w st st'.
  assert (Hwf : wf st).
  { apply (session_well_formed objects globalCallbacksMap actions [] Hgcm). }
  pose proof Hwf as (H1 & H2 & _).
  split; [|split; [|split; [|split]]].
  - intros Hnew. subst st'. rewrite assign_unseen by exact Hnew. simpl.
    rewrite lookup_insert_eq. split; [reflexivity|]. split; [reflexivity|].
    intros r h Hr Hh. apply H2 in Hh. simpl in Hh. destruct Hh as (_ & _ & Hh).
    specialize (Hh Hr). lia.
  - intros [h Hh]. subst st'. eapply assign_registered, Hh.
  - intros r h Hh. split; [|split].
    + eapply extends_lookup; [apply extends_assign|exact Hh].
    + apply H2 in Hh. simpl in Hh. tauto.
    + intros more. eapply extends_lookup; [|exact Hh].
      apply (session_well_formed objects globalCallbacksMap actions more Hgcm).
  - intros h Hh. subst st'.
    destruct (_scriptObjectIdMap st !! object) as [h'|] eqn:E.
    + erewrite assign_registered in Hh by exact E.
      apply H2 in Hh. simpl in Hh. tauto.
    + rewrite assign_unseen in Hh by exact E. simpl in Hh.
      rewrite lookup_insert_eq in Hh. injection Hh as <-.
      unfold API_VALUE_INVALID_SCRIPT_OBJECT in *. lia.
  - reflexivity.
Qed.

Lemma C6_witness :
  callbacks_exist [returns_42; returns_42; HPlain] [("foo", 0%nat); ("bar", 1%nat)] = true
  ∧ _scriptObjectIdMap
      (_assignScriptObjectId 2%nat
         (constructor [returns_42; returns_42; HPlain] [("foo", 0%nat); ("bar", 1%nat)]))
    !! 2%nat = Some 3.
Proof.
  split; [reflexivity|].
  destruct (C6_handle_assignment [returns_42; returns_42; HPlain]
              [("foo", 0%nat); ("bar", 1%nat)] [] 2%nat eq_refl) as (H & _).
  apply H. vm_compute. reflexivity.
Defined.

(* ===================================================================== *)
(** ** C7: the members of a proxy *)
(* ===================================================================== *)

Lemma getOwnProperty_app ps qs name :
  getOwnProperty (ps ++ qs) name =
  match getOwnProperty ps name with
  | Some d => Some d
  | None => getOwnProperty qs name
  end.
Proof.
  induction ps as [|[n d] ps IH]; simpl; [reflexivity|].
  destruct (String.eqb n name); [reflexivity|exact IH].
Qed.

Lemma getOwnProperty_named (descriptor : string -> PropertyDescriptor) names name :
  getOwnProperty (map (fun n => (n, descriptor n)) names) name =
  if decide (name ∈ names) then Some (descriptor name) else None.
Proof.
  induction names as [|n names IH]; simpl.
  - destruct (decide (name ∈ [])) as [H|_]; [inversion H|reflexivity].
  - destruct (String.eqb_spec n name) as [->|Hne].
    + rewrite decide_True by left. reflexivity.
    + rewrite IH. destruct (decide (name ∈ names)) as [H|H].
      * rewrite decide_True by (right; exact H). reflexivity.
      * rewrite decide_False; [reflexivity|].
        intros H'. apply elem_of_cons in H' as [->|H']; [congruence|contradiction].
Qed.

Lemma nonconfigurable_lookup ps name current :
  Forall (fun p : string * PropertyDescriptor => configurable (snd p) = false) ps ->
  getOwnProperty ps name = Some current -> configurable current = false.
Proof.
  induction ps as [|[m d] ps IH]; intros Hcfg E; [discriminate|].
  inversion Hcfg; subst. simpl in E.
  destruct (String.eqb m name); [injection E as <-; assumption|auto].
Qed.

Lemma define_step o n d :
  extensible o = true ->
  Forall (fun p => configurable (snd p) = false) (properties o) ->
  Object_defineProperty o n d =
  match getOwnProperty (properties o) n with
  | Some _ => inl (TypeError ("Cannot redefine property: " ++ n))
  | None => inr {| properties := properties o ++ [(n, d)]; extensible := true |}
  end.
Proof.
  intros Hext Hcfg. unfold Object_defineProperty.
  destruct (getOwnProperty (properties o) n) as [current|] eqn:E.
  - rewrite (nonconfigurable_lookup _ _ _ Hcfg E). reflexivity.
  - rewrite Hext. reflexivity.
Qed.

(** A loop of definitions goes through exactly when the names are new and
    distinct, and then appends one property per name. *)
Lemma define_each_spec (descriptor : string -> PropertyDescriptor) names : forall o,
  extensible o = true ->
  Forall (fun p => configurable (snd p) = false) (properties o) ->
  (forall n, configurable (descriptor n) = false) ->
  match define_each o names descriptor with
  | inr o' =>
      NoDup names
      ∧ (forall n, n ∈ names -> getOwnProperty (properties o) n = None)
      ∧ o' = {| properties := properties o ++ map (fun n => (n, descriptor n)) names;
                extensible := true |}
  | inl _ => ~ (NoDup names ∧ forall n, n ∈ names -> getOwnProperty (properties o) n = None)
  end.
Proof.
  induction names as [|n names IH]; intros o Hext Hcfg Hd.
  - simpl. split; [constructor|]. split; [intros n Hn; inversion Hn|].
    rewrite app_nil_r. destruct o; simpl in *; congruence.
  - simpl. rewrite define_step by assumption.
    destruct (getOwnProperty (properties o) n) as [current|] eqn:E.
    + intros [_ H]. rewrite H in E; [discriminate|left].
    + set (o1 := {| properties := properties o ++ [(n, descriptor n)]; extensible := true |}).
      specialize (IH o1 eq_refl).
      assert (Hcfg1 : Forall (fun p => configurable (snd p) = false) (properties o1)).
      { simpl. apply Forall_app. split; [exact Hcfg|]. constructor; [apply Hd|constructor]. }
      specialize (IH Hcfg1 Hd).
      assert (Hlook : forall m, getOwnProperty (properties o1) m = None <->
                                getOwnProperty (properties o) m = None ∧ n ≠ m).
      { intros m. simpl. rewrite getOwnProperty_app.
        destruct (getOwnProperty (properties o) m).
        - split; [discriminate|intros [? _]; discriminate].
        - simpl. destruct (String.eqb_spec n m) as [->|Hne].
          + split; [discriminate|intros [_ ?]; congruence].
          + split; [intros _; split; [reflexivity|exact Hne]|reflexivity]. }
      destruct (define_each o1 names descriptor) as [[e o']|o'].
      * intros [Hnd Hnone]. apply IH. apply NoDup_cons in Hnd as [Hn Hnd].
        split; [exact Hnd|]. intros m Hm. apply Hlook.
        split; [apply Hnone; right; exact Hm|]. intros ->. contradiction.
      * destruct IH as (Hnd & Hnone & ->). split; [|split].
        -- constructor; [|exact Hnd]. intros Hin.
           apply Hnone, Hlook in Hin. destruct Hin as [_ Hin]. congruence.
        -- intros m Hm. apply elem_of_cons in Hm as [->|Hm]; [exact E|].
           apply Hnone, Hlook in Hm. tauto.
        -- simpl. rewrite <- app_assoc. reflexivity.
Qed.

Lemma sealed_named (descriptor : string -> PropertyDescriptor) names :
  (forall n, seal_descriptor (descriptor n) = descriptor n) ->
  map (fun p => (fst p, seal_descriptor (snd p))) (map (fun n => (n, descriptor n)) names)
  = map (fun n => (n, descriptor n)) names.
Proof.
  intros H. induction names as [|n names IH]; simpl; [reflexivity|].
  rewrite H, IH. reflexivity.
Qed.

(** The object that the loops and the seal of [_describeScriptObject]
    produce: one accessor per property name, one method per method name,
    no more; the loops fail exactly when a name occurs twice. *)
Lemma build_object_spec serializedTarget P M :
  match build_object serializedTarget (WArray P) (WArray M) with
  | inr o =>
      NoDup (P ++ M)
      ∧ o = {| properties :=
                 map (fun n => (n, property_descriptor serializedTarget n)) P
                 ++ map (fun n => (n, method_descriptor serializedTarget n)) M;
               extensible := false |}
  | inl _ => ~ NoDup (P ++ M)
  end.
Proof.
  pose proof (define_each_spec (property_descriptor serializedTarget) P empty_object
                eq_refl (Forall_nil_2 _) (fun _ => eq_refl)) as HP.
  unfold build_object. cbn [iterate].
  destruct (define_each empty_object P (property_descriptor serializedTarget))
    as [[e o]|o] eqn:E1.
  - intros H. apply HP. apply NoDup_app in H as (H & _ & _).
    split; [exact H|reflexivity].
  - destruct HP as (HndP & _ & ->). simpl in *.
    set (o := {| properties := map (fun n => (n, property_descriptor serializedTarget n)) P;
                 extensible := true |}).
    assert (Hcfg : Forall (fun p => configurable (snd p) = false) (properties o)).
    { simpl. apply Forall_fmap, Forall_forall. reflexivity. }
    pose proof (define_each_spec (method_descriptor serializedTarget) M o
                  eq_refl Hcfg (fun _ => eq_refl)) as HM.
    assert (Hnone : forall n, getOwnProperty (properties o) n = None <-> n ∉ P).
    { intros n. simpl. rewrite getOwnProperty_named.
      destruct (decide (n ∈ P)); split; intros; try reflexivity; try discriminate; tauto. }
    destruct (define_each o M (method_descriptor serializedTarget)) as [[e o']|o'] eqn:E2.
    + intros H. apply HM. apply NoDup_app in H as (_ & H1 & H2).
      split; [exact H2|]. intros n Hn. apply Hnone. intros HnP. exact (H1 n HnP Hn).
    + destruct HM as (HndM & HM & ->). split.
      * apply NoDup_app. split; [exact HndP|]. split; [|exact HndM].
        intros n HnP HnM. apply HM, Hnone in HnM. contradiction.
      * unfold Object_seal. simpl. f_equal.
        rewrite map_app, !sealed_named by reflexivity. reflexivity.
Qed.

Lemma describe_with_build scriptObjectId properties methods st s1 s2 :
  describe_with scriptObjectId properties methods st s1 s2
  = build_proxy scriptObjectId properties methods s2.
Proof.
  unfold describe_with, _describeScriptObject, jrpc_call. simpl.
  rewrite Nat.eqb_refl. simpl. rewrite Nat.eqb_refl. reflexivity.
Qed.

Lemma build_proxy_resolved scriptObjectId properties methods s s' proxy :
  build_proxy scriptObjectId properties methods s = (s', Resolved (VObject proxy)) ->
  exists o,
    build_object (WScriptObject scriptObjectId) properties methods = inr o
    ∧ proxy = length (heap s)
    ∧ s' = set_scriptObjectIdMap (<[proxy := scriptObjectId]> (_scriptObjectIdMap s))
                                 (set_heap (heap s ++ [HProxy o]) s).
Proof.
  unfold build_proxy.
  destruct (build_object (WScriptObject scriptObjectId) properties methods) as [[e o]|o];
    [discriminate|].
  intros [= <- <-]. exists o. repeat split.
Qed.

(** The closures of a proxy and their round trips. *)
Lemma getter_round_trip serializedTarget name s :
  fst (call_getter (Getter serializedTarget name) s)
  = sendMessage (OutRequest (jrpc_id s) "get" (Some [serializedTarget; WStr name]))
                (next_jrpc_id s)
  ∧ forall response s',
      deliver (jrpc_id s) (Result response)
              (snd (call_getter (Getter serializedTarget name) s)) s'
      = _deserialize response s'.
Proof.
  split; [reflexivity|]. intros response s'. simpl. rewrite Nat.eqb_refl. reflexivity.
Qed.

Lemma setter_round_trip serializedTarget name value serialized s :
  _serialize value s = inr serialized ->
  fst (call_setter (Setter serializedTarget name) value s)
  = sendMessage (OutRequest (jrpc_id s) "set" (Some [serializedTarget; WStr name; serialized]))
                (next_jrpc_id s)
  ∧ forall response s',
      deliver (jrpc_id s) (Result response)
              (snd (call_setter (Setter serializedTarget name) value s)) s'
      = (s', Resolved VUndefined).
Proof.
  intros H. simpl. unfold _createSetter. rewrite H. split; [reflexivity|].
  intros response s'. simpl. rewrite Nat.eqb_refl. reflexivity.
Qed.

Lemma assign_each_registers objects : forall s,
  Forall (fun r => is_Some (_scriptObjectIdMap (assign_each objects s) !! r)) objects.
Proof.
  induction objects as [|r objects IH]; intros s; [constructor|].
  rewrite assign_each_cons. constructor; [|apply IH].
  destruct (assign_is_Some r s) as [h Hh]. exists h.
  assert (Hext : forall objects s, extends s (assign_each objects s)).
  { clear. induction objects as [|r objects IH]; intros s; [reflexivity|].
    rewrite assign_each_cons. etransitivity; [apply extends_assign|apply IH]. }
  eapply extends_lookup; [apply Hext|exact Hh].
Qed.

Lemma serialize_each_Forall2 args s ws :
  serialize_each args s = inr ws -> Forall2 (fun a w => _serialize a s = inr w) args ws.
Proof.
  revert ws. induction args as [|a args IH]; intros ws; simpl.
  - intros [= <-]. constructor.
  - destruct (_serialize a s) as [e|w] eqn:E; [discriminate|].
    destruct (serialize_each args s) as [e|ws'] eqn:E'; [discriminate|].
    intros [= <-]. constructor; [exact E|apply IH; reflexivity].
Qed.

Lemma serialize_each_registered args : forall s,
  (forall r, VObject r ∈ args -> is_Some (_scriptObjectIdMap s !! r)) ->
  exists ws, serialize_each args s = inr ws ∧ length ws = length args.
Proof.
  induction args as [|a args IH]; intros s H.
  - exists []. split; reflexivity.
  - destruct (IH s) as (ws & Hws & Hlen).
    { intros r Hr. apply H. right. exact Hr. }
    assert (Ha : exists w, _serialize a s = inr w).
    { destruct a as [| |b|n|str|r]; unfold _serialize; simpl; eauto.
      destruct (H r) as [h Hh]; [left|]. rewrite Hh. eauto. }
    destruct Ha as [w Hw]. exists (w :: ws). simpl serialize_each.
    rewrite Hw, Hws. split; [reflexivity|]. simpl. rewrite Hlen. reflexivity.
Qed.

(** The arguments of a method call can be serialized when each of them
    that is an object is an instance of [Object], which the call
    registers, or is registered already. *)
Lemma callAPIMethod_serializes args s :
  let frame := omap (instanceof_Object s) args in
  let s1 := unshift frame (assign_each frame s) in
  (forall r, VObject r ∈ args ->
     is_Some (instanceof_Object s (VObject r)) ∨ is_Some (_scriptObjectIdMap s !! r)) ->
  exists serializedArgs,
    serialize_each args s1 = inr serializedArgs ∧ length serializedArgs = length args.
Proof.
  intros frame s1 H. apply serialize_each_registered. intros r Hr. subst s1. simpl.
  destruct (H r Hr) as [[r' Hinst]|[h Hh]].
  - pose proof (instanceof_Object_Some s _ _ Hinst) as [= <-].
    pose proof (assign_each_registers frame s) as Hall.
    rewrite Forall_forall in Hall. apply Hall. subst frame.
    apply list_elem_of_omap. exists (VObject r). split; assumption.
  - exists h. apply assign_each_keeps, Hh.
Qed.

(** A method call of which every argument is serialized: the frame of the
    arguments that are instances of [Object] is pushed, the "execute"
    request leaves, and the reply is decoded inside the [try] whose
    [finally] shifts the frame stack. *)
Lemma callAPIMethod_sends serializedTarget methodName args s serializedArgs :
  let frame := omap (instanceof_Object s) args in
  let s1 := unshift frame (assign_each frame s) in
  serialize_each args s1 = inr serializedArgs ->
  _callAPIMethod serializedTarget methodName args s
  = (sendMessage (OutRequest (jrpc_id s) "execute"
                    (Some (serializedTarget :: WStr methodName :: serializedArgs)))
                 (next_jrpc_id s1),
     Pending (jrpc_id s)
       (fun r s' =>
          let (s'', t') :=
            match r with
            | Result response => _deserialize response s'
            | ErrorReply e => (s', Rejected (RemoteError e))
            end in
          on_settle t' (fun o s2 => (shift s2, settled o)) s'')).
Proof.
  intros frame s1 H.
  assert (Hid : jrpc_id s1 = jrpc_id s).
  { subst s1. simpl. apply (assign_each_untouched frame s). }
  unfold _callAPIMethod, try_finally. fold frame. fold s1. rewrite H.
  unfold jrpc_call. rewrite Hid. reflexivity.
Qed.

(** What the replies to the request of a method call do. *)
Lemma callAPIMethod_replies serializedTarget methodName args s serializedArgs :
  let frame := omap (instanceof_Object s) args in
  let s1 := unshift frame (assign_each frame s) in
  let now := _callAPIMethod serializedTarget methodName args s in
  serialize_each args s1 = inr serializedArgs ->
  (forall response s',
     deliver (jrpc_id s) (Result response) (snd now) s'
     = try_finally (_deserialize response) shift s')
  ∧ (forall error s',
       deliver (jrpc_id s) (ErrorReply error) (snd now) s'
       = (shift s', Rejected (RemoteError error))).
Proof.
  intros frame s1 now H. subst now.
  rewrite (callAPIMethod_sends serializedTarget methodName args s serializedArgs H).
  split.
  - intros response s'. simpl. rewrite Nat.eqb_refl. reflexivity.
  - intros error s'. simpl. rewrite Nat.eqb_refl. reflexivity.
Qed.

(** The closure [_createMethod] returns: the whole of a method call. *)
Lemma method_round_trip serializedTarget name args s :
  let frame := omap (instanceof_Object s) args in
  let s1 := unshift frame (assign_each frame s) in
  let now := call_method (Method serializedTarget name) args s in
  (forall e, serialize_each args s1 = inl e -> now = (shift s1, Rejected e))
  ∧ (forall serializedArgs,
       serialize_each args s1 = inr serializedArgs ->
       Forall2 (fun a w => _serialize a s1 = inr w) args serializedArgs
       ∧ fst now
         = sendMessage (OutRequest (jrpc_id s) "execute"
                          (Some (serializedTarget :: WStr name :: serializedArgs)))
                       (next_jrpc_id s1)
       ∧ (forall response s',
            deliver (jrpc_id s) (Result response) (snd now) s'
            = try_finally (_deserialize response) shift s')
       ∧ (forall error s',
            deliver (jrpc_id s) (ErrorReply error) (snd now) s'
            = (shift s', Rejected (RemoteError error))))
  ∧ ((forall r, VObject r ∈ args ->
        is_Some (instanceof_Object s (VObject r)) ∨ is_Some (_scriptObjectIdMap s !! r)) ->
     exists serializedArgs,
       serialize_each args s1 = inr serializedArgs
       ∧ length serializedArgs = length args).
Proof.
  intros frame s1 now. subst now. simpl call_method. split; [|split].
  - intros e He. apply (callAPIMethod_fails serializedTarget name args s e He).
  - intros serializedArgs Hws. split; [apply serialize_each_Forall2, Hws|].
    split; [rewrite (callAPIMethod_sends _ _ _ _ _ Hws); reflexivity|].
    apply (callAPIMethod_replies serializedTarget name args s serializedArgs Hws).
  - apply callAPIMethod_serializes.
Qed.

(** C7.  Let [_describeScriptObject], started in any state, receive the
    names [P] for its "listProperties" request and the names [M] for its
    "listMethods" request, in any states, and resolve with [proxy].  Then
    [proxy] is an object whose own members are exactly the names of [P]
    and of [M]: each name of [P] is an enumerable accessor whose getter
    sends "get" for the handle and the name and decodes the reply, and
    whose setter sends "set" with the serialized value; each name of [M]
    is an enumerable method that makes the call [_callAPIMethod] makes.  It
    registers the arguments that are instances of [Object] and pushes them
    as a frame; when every argument is serialized (as it is when each
    object among them is an instance of [Object] or registered), it sends
    "execute" with the handle, the name and the serialization of each
    argument, in order; a result is decoded inside the [try] whose
    [finally] shifts the frame stack, and an error reply rejects the call
    and shifts the stack; when an argument is not serialized, the call is
    rejected with what [_serialize] threw and the stack is shifted, with
    nothing sent.  The object is sealed: it is not extensible, no member
    can be defined or redefined, and none can be deleted. *)
Theorem C7_proxy_members :
  forall (scriptObjectId : Z) (P M : list string) (st s1 s2 s' : State) (proxy : Ref),
    describe_with scriptObjectId (WArray P) (WArray M) st s1 s2
    = (s', Resolved (VObject proxy)) ->
    exists o,
      heap s' !! proxy = Some (HProxy o)
      ∧ (forall name, is_Some (getOwnProperty (properties o) name) <-> name ∈ P ∨ name ∈ M)
      ∧ (forall name, name ∈ P ->
           getOwnProperty (properties o) name
           = Some (AccessorProperty (Getter (WScriptObject scriptObjectId) name)
                                    (Setter (WScriptObject scriptObjectId) name) true false))
      ∧ (forall name, name ∈ M ->
           getOwnProperty (properties o) name
           = Some (DataProperty (Method (WScriptObject scriptObjectId) name) false true false))
      ∧ extensible o = false
      ∧ (forall name d, exists e, Object_defineProperty o name d = inl e)
      ∧ (forall name, is_Some (getOwnProperty (properties o) name) ->
           delete_property o name = (false, o))
      ∧ (forall name s,
           fst (call_getter (Getter (WScriptObject scriptObjectId) name) s)
           = sendMessage (OutRequest (jrpc_id s) "get"
                                     (Some [WScriptObject scriptObjectId; WStr name]))
                         (next_jrpc_id s)
           ∧ forall response s',
               deliver (jrpc_id s) (Result response)
                       (snd (call_getter (Getter (WScriptObject scriptObjectId) name) s)) s'
               = _deserialize response s')
      ∧ (forall name value serialized s,
           _serialize value s = inr serialized ->
           fst (call_setter (Setter (WScriptObject scriptObjectId) name) value s)
           = sendMessage (OutRequest (jrpc_id s) "set"
                                     (Some [WScriptObject scriptObjectId; WStr name; serialized]))
                         (next_jrpc_id s)
           ∧ forall response s',
               deliver (jrpc_id s) (Result response)
                       (snd (call_setter (Setter (WScriptObject scriptObjectId) name) value s)) s'
               = (s', Resolved VUndefined))
      ∧ (forall name args s,
           let frame := omap (instanceof_Object s) args in
           let s1 := unshift frame (assign_each frame s) in
           let now := call_method (Method (WScriptObject scriptObjectId) name) args s in
           (forall e, serialize_each args s1 = inl e -> now = (shift s1, Rejected e))
           ∧ (forall serializedArgs,
                serialize_each args s1 = inr serializedArgs ->
                Forall2 (fun a w => _serialize a s1 = inr w) args serializedArgs
                ∧ fst now
                  = sendMessage (OutRequest (jrpc_id s) "execute"
                                   (Some (WScriptObject scriptObjectId :: WStr name
                                            :: serializedArgs)))
                                (next_jrpc_id s1)
                ∧ (forall response s',
                     deliver (jrpc_id s) (Result response) (snd now) s'
                     = try_finally (_deserialize response) shift s')
                ∧ (forall error s',
                     deliver (jrpc_id s) (ErrorReply error) (snd now) s'
                     = (shift s', Rejected (RemoteError error))))
           ∧ ((forall r, VObject r ∈ args ->
                 is_Some (instanceof_Object s (VObject r))
                 ∨ is_Some (_scriptObjectIdMap s !! r)) ->
              exists serializedArgs,
                serialize_each args s1 = inr serializedArgs
                ∧ length serializedArgs = length args)).
Proof.
  intros scriptObjectId P M st s1 s2 s' proxy H.
  rewrite describe_with_build in H.
  apply build_proxy_resolved in H as (o & Hbuild & -> & ->).
  pose proof (build_object_spec (WScriptObject scriptObjectId) P M) as Hspec.
  rewrite Hbuild in Hspec. destruct Hspec as [Hnd ->].
  set (target := WScriptObject scriptObjectId) in *.
  set (ps := (map (fun n => (n, property_descriptor target n)) P
              ++ map (fun n => (n, method_descriptor target n)) M)%list).
  assert (Hlook : forall name,
             getOwnProperty ps name
             = if decide (name ∈ P) then Some (property_descriptor target name)
               else if decide (name ∈ M) then Some (method_descriptor target name)
               else None).
  { intros name. subst ps. rewrite getOwnProperty_app, !getOwnProperty_named.
    destruct (decide (name ∈ P)); reflexivity. }
  assert (Hcfg : forall name d, getOwnProperty ps name = Some d -> configurable d = false).
  { intros name d. rewrite Hlook.
    destruct (decide (name ∈ P)); [intros [= <-]; reflexivity|].
    destruct (decide (name ∈ M)); [intros [= <-]; reflexivity|discriminate]. }
  exists {| properties := ps; extensible := false |}.
  split; [simpl; apply list_lookup_middle; reflexivity|].
  split; [|split; [|split; [|split; [|split; [|split; [|split; [|split]]]]]]]; simpl.
  - intros name. rewrite Hlook.
    destruct (decide (name ∈ P)) as [HP|HP]; [split; eauto|].
    destruct (decide (name ∈ M)) as [HM|HM]; [split; eauto|].
    split; [intros [? ?]; discriminate|tauto].
  - intros name HP. rewrite Hlook, decide_True by exact HP. reflexivity.
  - intros name HM. rewrite Hlook.
    apply NoDup_app in Hnd as (_ & Hdisj & _).
    rewrite decide_False by (intros HP; exact (Hdisj name HP HM)).
    rewrite decide_True by exact HM. reflexivity.
  - reflexivity.
  - intros name d. unfold Object_defineProperty. simpl.
    destruct (getOwnProperty ps name) as [current|] eqn:E; [|eauto].
    rewrite (Hcfg name current E). eauto.
  - intros name [d Hd]. unfold delete_property. simpl. rewrite Hd.
    rewrite (Hcfg name d Hd). reflexivity.
  - intros name s. apply getter_round_trip.
  - intros name value serialized s Hv. apply setter_round_trip, Hv.
  - intros name args s. apply method_round_trip.
Qed.

Lemma C7_witness :
  describe_with 123 (WArray ["x"]) (WArray []) (constructor [] []) (constructor [] [])
                (constructor [] [])
  = (fst (describe_with 123 (WArray ["x"]) (WArray []) (constructor [] []) (constructor [] [])
                        (constructor [] [])),
     Resolved (VObject 0%nat))
  ∧ exists o,
      heap (fst (describe_with 123 (WArray ["x"]) (WArray []) (constructor [] [])
                               (constructor [] []) (constructor [] []))) !! 0%nat
      = Some (HProxy o)
      ∧ (forall name, is_Some (getOwnProperty (properties o) name) <-> name ∈ ["x"] ∨ name ∈ [])
      ∧ extensible o = false.
Proof.
  assert (H : describe_with 123 (WArray ["x"]) (WArray []) (constructor [] [])
                            (constructor [] []) (constructor [] [])
              = (fst (describe_with 123 (WArray ["x"]) (WArray []) (constructor [] [])
                                    (constructor [] []) (constructor [] [])),
                 Resolved (VObject 0%nat)))
    by (vm_compute; reflexivity).
  split; [exact H|].
  destruct (C7_proxy_members 123 ["x"] [] _ _ _ _ 0%nat H) as (o & A & B & _ & _ & C & _).
  exists o. split; [exact A|]. split; [exact B|exact C].
Defined.

(* ===================================================================== *)
(** ** C10: a proxy is registered under its handle *)
(* ===================================================================== *)

Lemma deserialize_valid_handle scriptObject :
  scriptObject ≠ API_VALUE_INVALID_SCRIPT_OBJECT ->
  _deserialize (WScriptObject scriptObject) = _describeScriptObject scriptObject.
Proof.
  intros H. unfold _deserialize. simpl.
  destruct (Z.eqb_spec scriptObject API_VALUE_INVALID_SCRIPT_OBJECT);
    [contradiction|reflexivity].
Qed.

(** C10.  For a handle other than 0, deserializing
    [{type: "scriptObject", scriptObject}] is [_describeScriptObject].  When
    it resolves with [proxy] (the second reply having arrived in the
    well-formed state [s2]), the identity map holds [proxy] under that
    handle, so [proxy] serializes to
    [{type: "scriptObject", scriptObject}]; the frame stack is as it was
    and no frame holds [proxy]; and in every later state, in particular at
    every later moment of a session, [proxy] still serializes to the same
    value. *)
Theorem C10_proxy_serializes_to_its_handle :
  forall (scriptObject : Z) (properties methods : SerializedValue)
         (st s1 s2 s' : State) (proxy : Ref),
    scriptObject ≠ API_VALUE_INVALID_SCRIPT_OBJECT ->
    wf s2 ->
    describe_with scriptObject properties methods st s1 s2 = (s', Resolved (VObject proxy)) ->
    _deserialize (WScriptObject scriptObject) = _describeScriptObject scriptObject
    ∧ _scriptObjectIdMap s' !! proxy = Some scriptObject
    ∧ _serialize (VObject proxy) s' = inr (WScriptObject scriptObject)
    ∧ _scriptObjectListStack s' = _scriptObjectListStack s2
    ∧ ~ in_frames s' proxy
    ∧ (forall s'', extends s' s'' ->
         _serialize (VObject proxy) s'' = inr (WScriptObject scriptObject))
    ∧ (forall objects globalCallbacksMap actions more,
         callbacks_exist objects globalCallbacksMap = true ->
         extends s' (state (run actions (start objects globalCallbacksMap))) ->
         _serialize (VObject proxy)
                    (state (run more (run actions (start objects globalCallbacksMap))))
         = inr (WScriptObject scriptObject)).
Proof.
  intros scriptObject properties methods st s1 s2 s' proxy Hid Hwf H.
  rewrite describe_with_build in H.
  apply build_proxy_resolved in H as (o & _ & -> & ->).
  assert (Hmap : _scriptObjectIdMap
                   (set_scriptObjectIdMap
                      (<[length (heap s2) := scriptObject]> (_scriptObjectIdMap s2))
                      (set_heap (heap s2 ++ [HProxy o]) s2)) !! length (heap s2)
                 = Some scriptObject).
  { simpl. apply lookup_insert_eq. }
  split; [apply deserialize_valid_handle, Hid|].
  split; [exact Hmap|].
  split; [apply serialize_registered, Hmap|].
  split; [reflexivity|].
  split; [|split].
  - intros Hin. apply in_frames_spec in Hin as (l & Hl & Hin). simpl in Hl.
    destruct Hwf as (_ & _ & Hstack & _).
    rewrite Forall_forall in Hstack. specialize (Hstack l Hl).
    rewrite Forall_forall in Hstack. destruct (Hstack _ Hin) as [Hlt _]. lia.
  - intros s'' Hext. apply serialize_registered. eapply extends_lookup; eassumption.
  - intros objects globalCallbacksMap actions more Hgcm Hext.
    apply serialize_registered.
    eapply extends_lookup; [|exact Hmap].
    etransitivity; [exact Hext|].
    apply (session_well_formed objects globalCallbacksMap actions more Hgcm).
Qed.

Lemma C10_witness :
  (123 ≠ API_VALUE_INVALID_SCRIPT_OBJECT
   ∧ wf (constructor [] [])
   ∧ describe_with 123 (WArray ["x"]) (WArray []) (constructor [] []) (constructor [] [])
                   (constructor [] [])
     = (fst (describe_with 123 (WArray ["x"]) (WArray []) (constructor [] [])
                           (constructor [] []) (constructor [] [])),
        Resolved (VObject 0%nat)))
  ∧ _serialize (VObject 0%nat)
               (fst (describe_with 123 (WArray ["x"]) (WArray []) (constructor [] [])
                                   (constructor [] []) (constructor [] [])))
    = inr (WScriptObject 123).
Proof.
  assert (H1 : 123 ≠ API_VALUE_INVALID_SCRIPT_OBJECT) by discriminate.
  assert (H2 : wf (constructor [] []))
    by (apply (bool_decide_unpack _); vm_compute; exact I).
  assert (H3 : describe_with 123 (WArray ["x"]) (WArray []) (constructor [] [])
                             (constructor [] []) (constructor [] [])
               = (fst (describe_with 123 (WArray ["x"]) (WArray []) (constructor [] [])
                                     (constructor [] []) (constructor [] [])),
                  Resolved (VObject 0%nat)))
    by (vm_compute; reflexivity).
  split; [split; [exact H1|split; [exact H2|exact H3]]|].
  destruct (C10_proxy_serializes_to_its_handle 123 _ _ _ _ _ _ 0%nat H1 H2 H3)
    as (_ & _ & H & _).
  exact H.
Defined.

(* ===================================================================== *)
(** ** C1: the frame of a method call *)
(* ===================================================================== *)

Lemma keeps_stack_settled o : keeps_stack (settled o).
Proof. destruct o; exact I. Qed.

Lemma keeps_stack_build_proxy scriptObjectId properties methods s :
  _scriptObjectListStack (fst (build_proxy scriptObjectId properties methods s))
  = _scriptObjectListStack s
  ∧ keeps_stack (snd (build_proxy scriptObjectId properties methods s)).
Proof.
  destruct (build_proxy_state scriptObjectId properties methods s) as (o & Hs & Ht).
  rewrite Hs. split; [reflexivity|].
  destruct (snd (build_proxy scriptObjectId properties methods s)); try discriminate; exact I.
Qed.

Lemma keeps_stack_deserialize value s :
  _scriptObjectListStack (fst (_deserialize value s)) = _scriptObjectListStack s
  ∧ keeps_stack (snd (_deserialize value s)).
Proof.
  destruct value as [b|n|str| |h| |items]; unfold _deserialize; simpl;
    try (split; [reflexivity|exact I]).
  destruct (Z.eqb h API_VALUE_INVALID_SCRIPT_OBJECT); [split; [reflexivity|exact I]|].
  unfold _describeScriptObject, jrpc_call. simpl. split; [reflexivity|].
  intros [properties|e] s1; simpl; [|split; [reflexivity|exact I]].
  split; [reflexivity|].
  intros [methods|e] s2; simpl; [|split; [reflexivity|exact I]].
  apply keeps_stack_build_proxy.
Qed.

Lemma finally_shift t : forall s,
  keeps_stack t ->
  let now := on_settle t (fun o s' => (shift s', settled o)) s in
  (is_settled (snd now) = true
   ∧ _scriptObjectListStack (fst now) = tail (_scriptObjectListStack s))
  ∨ (_scriptObjectListStack (fst now) = _scriptObjectListStack s
     ∧ shifts_when_settling (snd now)).
Proof.
  induction t as [v|e|id k IH|ts k _ _|t bg _ _] using Task_induction; intros s Hk.
  - left. split; reflexivity.
  - left. split; reflexivity.
  - right. split; [reflexivity|]. simpl. intros r s1.
    destruct (Hk r s1) as [Hstack Hkeep]. specialize (IH r s1).
    destruct (k r s1) as [s2 t2]. simpl in *.
    specialize (IH s2 Hkeep). simpl in IH. rewrite Hstack in IH. exact IH.
  - destruct Hk.
  - destruct Hk.
Qed.

(** One method call, seen by itself, every argument being serialized:
    before the "execute" request leaves, the frame of the arguments that
    are instances of [Object] is on top of the frame stack; the promise
    then leaves the stack alone until the step in which it settles, by a
    result or by a failure, and in that step it shifts the stack once. *)
Lemma callAPIMethod_frame serializedTarget methodName args s serializedArgs :
  let frame := omap (instanceof_Object s) args in
  let s1 := unshift frame (assign_each frame s) in
  let now := _callAPIMethod serializedTarget methodName args s in
  serialize_each args s1 = inr serializedArgs ->
  _scriptObjectListStack (fst now) = frame :: _scriptObjectListStack s
  ∧ sent (fst now)
    = (sent s ++ [OutRequest (jrpc_id s) "execute"
                    (Some (serializedTarget :: WStr methodName :: serializedArgs))])%list
  ∧ shifts_when_settling (snd now).
Proof.
  intros frame s1 now Hws. subst now.
  destruct (assign_each_untouched frame s) as (Hsent & Hid & _ & _ & Hstack & _).
  unfold _callAPIMethod, try_finally. fold frame. fold s1. rewrite Hws.
  set (body := jrpc_call API_SERVER_METHOD_CALL_FUNCTION
                 (Some (serializedTarget :: WStr methodName :: serializedArgs))
                 (fun response => _deserialize response)).
  assert (Hbody : keeps_stack (snd (body s1))).
  { subst body. unfold jrpc_call. simpl. intros [response|e] s'; simpl.
    - apply keeps_stack_deserialize.
    - split; [reflexivity|exact I]. }
  pose proof (finally_shift (snd (body s1)) (fst (body s1)) Hbody) as H.
  destruct (body s1) as [s2 t] eqn:E. simpl in H.
  assert (Hs2 : s2 = sendMessage (OutRequest (jrpc_id s1) "execute"
                        (Some (serializedTarget :: WStr methodName :: serializedArgs)))
                      (next_jrpc_id s1)
                ∧ exists k, t = Pending (jrpc_id s1) k).
  { subst body. unfold jrpc_call in E. injection E as <- <-. split; [reflexivity|eauto]. }
  destruct Hs2 as [-> (k & ->)]. simpl in H.
  destruct H as [[H _]|[_ H]]; [discriminate|].
  split; [|split].
  - simpl. rewrite Hstack. reflexivity.
  - simpl. rewrite Hsent, Hid. reflexivity.
  - exact H.
Qed.

(** ** The frame stack over a whole session *)

Lemma stack_effect_refl n k : stack_effect n n k k.
Proof. exists [], 0%nat. simpl. rewrite drop_0. split; [reflexivity|]. split; lia. Qed.

Lemma stack_effect_lift m n n' k k' :
  stack_effect n n' k k' -> stack_effect (n + m) (n' + m) k k'.
Proof.
  intros (new & d & -> & H1 & H2). exists new, d. split; [reflexivity|]. split; lia.
Qed.

Lemma stack_effect_trans n1 n2 n3 k1 k2 k3 :
  stack_effect n1 n2 k1 k2 -> stack_effect n2 n3 k2 k3 -> stack_effect n1 n3 k1 k3.
Proof.
  intros (new1 & d1 & -> & A1 & A2) (new2 & d2 & -> & B1 & B2).
  exists (new2 ++ drop d2 new1)%list, (d1 + (d2 - length new1))%nat.
  split; [|split].
  - rewrite drop_app, drop_drop, <- app_assoc. reflexivity.
  - lia.
  - rewrite length_app, length_drop. lia.
Qed.

Lemma keeps_each (ts : list Task) :
  (fix each (ts : list Task) : Prop :=
     match ts with
     | [] => True
     | t :: rest => keeps_stack t ∧ each rest
     end) ts <-> Forall keeps_stack ts.
Proof.
  induction ts as [|t ts IH]; split; intros H.
  - constructor.
  - exact I.
  - destruct H as [H1 H2]. constructor; [exact H1 | apply IH, H2].
  - inversion H; subst. split; [assumption | apply IH; assumption].
Qed.

Lemma owes_All ts k n :
  owes (All ts k) n <->
  Forall keeps_stack ts ∧ forall o s, balanced_step n s (k o s).
Proof. simpl. rewrite keeps_each. reflexivity. Qed.

Lemma owes_Orphans t bg n :
  owes (Orphans t bg) n <-> owes t n ∧ Forall keeps_stack bg.
Proof. simpl. rewrite keeps_each. reflexivity. Qed.

Lemma balanced_step_settled s o : balanced_step 0 s (s, settled o).
Proof. exists 0%nat. split; [apply stack_effect_refl|]. destruct o; reflexivity. Qed.

Lemma balanced_step_then n n1 s s1 now :
  stack_effect n n1 (_scriptObjectListStack s) (_scriptObjectListStack s1) ->
  balanced_step n1 s1 now -> balanced_step n s now.
Proof.
  intros H (n' & A & B). exists n'. split; [|exact B]. eapply stack_effect_trans; eassumption.
Qed.

Lemma keeps_stack_owes t : keeps_stack t -> owes t 0.
Proof.
  induction t as [v|e|id k IH|ts k _ _|t bg _ _] using Task_induction; intros H.
  - reflexivity.
  - reflexivity.
  - simpl. intros r s. destruct (H r s) as [Hstack Hkeep]. exists 0%nat.
    split; [rewrite Hstack; apply stack_effect_refl|]. apply IH, Hkeep.
  - destruct H.
  - destruct H.
Qed.

Lemma balanced_on_settle t : forall n m s h,
  owes t n ->
  (forall o s', balanced_step m s' (h o s')) ->
  balanced_step (n + m) s (on_settle t h s).
Proof.
  induction t as [v|e|id k IH|ts k _ IH|t bg IHt _] using Task_induction;
    intros n m s h Ht Hh.
  - simpl in Ht. subst n. apply Hh.
  - simpl in Ht. subst n. apply Hh.
  - simpl. exists (n + m)%nat. split; [apply stack_effect_refl|]. simpl.
    intros r s1. destruct (Ht r s1) as (n1 & A & B).
    specialize (IH r s1). destruct (k r s1) as [s2 t2]. simpl in *.
    eapply balanced_step_then; [apply stack_effect_lift, A|].
    apply IH; assumption.
  - apply owes_All in Ht as [Hts Hk]. simpl.
    exists (n + m)%nat. split; [apply stack_effect_refl|].
    apply owes_All. split; [exact Hts|].
    intros o s1. destruct (Hk o s1) as (n1 & A & B).
    specialize (IH o s1). destruct (k o s1) as [s2 t2]. simpl in *.
    eapply balanced_step_then; [apply stack_effect_lift, A|].
    apply IH; assumption.
  - apply owes_Orphans in Ht as [Ht Hbg]. simpl.
    destruct (IHt n m s h Ht Hh) as (n' & A & B).
    destruct (on_settle t h s) as [s' t']. simpl in *.
    exists n'. split; [exact A|]. apply owes_Orphans. split; assumption.
Qed.

Lemma balanced_join ts k n s :
  Forall keeps_stack ts ->
  (forall o s', balanced_step n s' (k o s')) ->
  balanced_step n s (join ts k s).
Proof.
  intros Hts Hk. unfold join. destruct (first_rejection ts) as [e|].
  - destruct (Hk (inl e) s) as (n' & A & B).
    destruct (k (inl e) s) as [s' t]. simpl in *.
    exists n'. split; [exact A|]. simpl.
    assert (Hbg : Forall keeps_stack (List.filter (fun t => negb (is_settled t)) ts)).
    { apply Forall_forall. intros t' Ht'.
      apply list_elem_of_In, filter_In in Ht'. destruct Ht' as [Ht' _].
      rewrite Forall_forall in Hts. apply Hts, list_elem_of_In, Ht'. }
    destruct (List.filter (fun t => negb (is_settled t)) ts) as [|b bg]; [exact B|].
    apply owes_Orphans. split; assumption.
  - destruct (all_resolved ts) as [vs|]; [apply Hk|].
    exists n. split; [apply stack_effect_refl|]. apply owes_All. split; assumption.
Qed.

Lemma keeps_stack_deliver id r t s :
  keeps_stack t ->
  _scriptObjectListStack (fst (deliver id r t s)) = _scriptObjectListStack s
  ∧ keeps_stack (snd (deliver id r t s)).
Proof.
  destruct t as [v|e|id' k|ts k|t bg]; intros H; simpl; try (split; [reflexivity|exact H]).
  - destruct (Nat.eqb id id'); [apply H|split; [reflexivity|exact H]].
  - destruct H.
  - destruct H.
Qed.

Lemma keeps_stack_deliver_each id r ts : forall s,
  Forall keeps_stack ts ->
  _scriptObjectListStack (fst (deliver_each id r ts s)) = _scriptObjectListStack s
  ∧ Forall keeps_stack (snd (deliver_each id r ts s)).
Proof.
  induction ts as [|t ts IH]; intros s H.
  - split; [reflexivity|constructor].
  - inversion H as [|? ? Ht Hts]; subst. rewrite deliver_each_cons.
    destruct (keeps_stack_deliver id r t s Ht) as [A B].
    destruct (deliver id r t s) as [s1 t1]. simpl in *.
    destruct (IH s1 Hts) as [A' B'].
    destruct (deliver_each id r ts s1) as [s2 ts2]. simpl in *.
    split; [congruence|constructor; assumption].
Qed.

Lemma balanced_deliver id r t : forall n s,
  owes t n -> balanced_step n s (deliver id r t s).
Proof.
  induction t as [v|e|id' k _|ts k _ _|t bg IHt _] using Task_induction; intros n s Ht.
  - exists n. split; [apply stack_effect_refl|exact Ht].
  - exists n. split; [apply stack_effect_refl|exact Ht].
  - simpl. destruct (Nat.eqb id id'); [apply Ht|].
    exists n. split; [apply stack_effect_refl|exact Ht].
  - rewrite deliver_All. apply owes_All in Ht as [Hts Hk].
    destruct (keeps_stack_deliver_each id r ts s Hts) as [A B].
    destruct (deliver_each id r ts s) as [s1 ts1]. simpl in *.
    destruct (balanced_join ts1 k n s1 B Hk) as (n' & C & D).
    exists n'. split; [rewrite <- A; exact C|exact D].
  - rewrite deliver_Orphans. apply owes_Orphans in Ht as [Ht Hbg].
    destruct (IHt n s Ht) as (n' & A & B).
    destruct (deliver id r t s) as [s1 t1]. simpl in *.
    destruct (keeps_stack_deliver_each id r bg s1 Hbg) as [A' B'].
    destruct (deliver_each id r bg s1) as [s2 bg2]. simpl in *.
    exists n'. simpl. split; [rewrite A'; exact A|]. apply owes_Orphans. split; assumption.
Qed.

(** An [async] function that keeps to the discipline from its start. *)
Lemma starts_keeping (m : Async) s :
  _scriptObjectListStack (fst (m s)) = _scriptObjectListStack s ->
  keeps_stack (snd (m s)) ->
  balanced_step 0 s (m s).
Proof.
  intros A B. exists 0%nat. split; [rewrite A; apply stack_effect_refl|].
  apply keeps_stack_owes, B.
Qed.

Lemma balanced_bind m f s :
  balanced_step 0 s (m s) ->
  (forall v s', balanced_step 0 s' (f v s')) ->
  balanced_step 0 s (bind m f s).
Proof.
  intros (n1 & A & B) Hf. unfold bind. destruct (m s) as [s1 t]. simpl in *.
  eapply balanced_step_then; [exact A|].
  replace n1 with (n1 + 0)%nat by lia. apply balanced_on_settle; [exact B|].
  intros [e|v] s'; [apply (balanced_step_settled s' (inl e))|apply Hf].
Qed.

Lemma keeps_stack_getter serializedTarget propertyName s :
  _scriptObjectListStack (fst (_createGetter serializedTarget propertyName s))
  = _scriptObjectListStack s
  ∧ keeps_stack (snd (_createGetter serializedTarget propertyName s)).
Proof.
  unfold _createGetter, jrpc_call. simpl. split; [reflexivity|].
  intros [response|e] s'; simpl; [apply keeps_stack_deserialize|split; [reflexivity|exact I]].
Qed.

Lemma keeps_stack_setter serializedTarget propertyName value s :
  _scriptObjectListStack (fst (_createSetter serializedTarget propertyName value s))
  = _scriptObjectListStack s
  ∧ keeps_stack (snd (_createSetter serializedTarget propertyName value s)).
Proof.
  unfold _createSetter. destruct (_serialize value s); [split; [reflexivity|exact I]|].
  unfold jrpc_call. simpl. split; [reflexivity|].
  intros [response|e] s'; simpl; split; try reflexivity; exact I.
Qed.

Lemma shifts_owes t : shifts_when_settling t -> owes t 1.
Proof.
  induction t as [v|e|id k IH|ts k _ _|t bg _ _] using Task_induction; intros H;
    try destruct H.
  simpl. intros r s. destruct (H r s) as [[Hset Hstack]|[Hstack Hnext]].
  - exists 0%nat. split.
    + rewrite Hstack. exists [], 1%nat. split; [|split; simpl; lia].
      destruct (_scriptObjectListStack s); reflexivity.
    + destruct (snd (k r s)); try discriminate; reflexivity.
  - exists 1%nat. split; [rewrite Hstack; apply stack_effect_refl|].
    apply IH, Hnext.
Qed.

(** A method call pushes one frame and is left with one frame to shift. *)
Lemma balanced_callAPIMethod serializedTarget methodName args s :
  balanced_step 0 s (_callAPIMethod serializedTarget methodName args s).
Proof.
  set (frame := omap (instanceof_Object s) args).
  set (s1 := unshift frame (assign_each frame s)).
  destruct (serialize_each args s1) as [e|ws] eqn:E.
  - destruct (callAPIMethod_fails serializedTarget methodName args s e E) as (A & _ & _ & B).
    cbn zeta in A, B. rewrite A. exists 0%nat. split; [|reflexivity].
    cbn [fst]. rewrite B. apply stack_effect_refl.
  - destruct (callAPIMethod_frame serializedTarget methodName args s ws E) as (A & _ & B).
    cbn zeta in A, B.
    exists 1%nat. split.
    + rewrite A. exists [frame], 0%nat.
      rewrite drop_0. split; [reflexivity|]. split; simpl; lia.
    + apply shifts_owes, B.
Qed.

Lemma balanced_call_getter get s : balanced_step 0 s (call_getter get s).
Proof. destruct get. apply starts_keeping; apply keeps_stack_getter. Qed.

Lemma balanced_call_setter set value s : balanced_step 0 s (call_setter set value s).
Proof. destruct set. apply starts_keeping; apply keeps_stack_setter. Qed.

Lemma balanced_call_method method args s : balanced_step 0 s (call_method method args s).
Proof. destruct method. apply balanced_callAPIMethod. Qed.

Lemma balanced_call_registerCallback apiRootObject name fn s :
  balanced_step 0 s (call_registerCallback apiRootObject name fn s).
Proof.
  unfold call_registerCallback.
  destruct apiRootObject as [| | | | |r]; try apply (balanced_step_settled s (inl _)).
  destruct (heap s !! r) as [[body| |o|instance body conversion]|]; try apply (balanced_step_settled s (inl _)).
  destruct (getOwnProperty (properties o) "registerCallback") as [[g st e c|c wr e cf]|];
    try apply (balanced_step_settled s (inl _)).
  - destruct g as [t p]. destruct (keeps_stack_getter t p s) as [A B]. simpl call_getter.
    destruct (_createGetter t p s) as [s' t']. simpl in *.
    exists 0%nat. simpl. split; [rewrite A; apply stack_effect_refl|].
    split; [reflexivity|]. split; [exact B|exact I].
  - apply balanced_call_method.
Qed.

Lemma balanced_register_each apiRootObject entries : forall s,
  balanced_step 0 s (register_each apiRootObject entries s).
Proof.
  induction entries as [|[name fn] entries IH]; intros s.
  - apply (balanced_step_settled s (inr VUndefined)).
  - simpl. apply balanced_bind.
    + apply balanced_call_registerCallback.
    + intros _ s'. apply IH.
Qed.

Lemma balanced_jrpc_call method params k s :
  (forall response s', balanced_step 0 s' (k response s')) ->
  balanced_step 0 s (jrpc_call method params k s).
Proof.
  intros Hk. unfold jrpc_call. exists 0%nat. simpl.
  split; [apply stack_effect_refl|].
  intros [response|e] s'; [apply Hk|apply (balanced_step_settled s' (inl (RemoteError e)))].
Qed.

Lemma balanced_deserialize value s : balanced_step 0 s (_deserialize value s).
Proof. apply starts_keeping; apply keeps_stack_deserialize. Qed.

Lemma balanced_initialize token s : balanced_step 0 s (initialize token s).
Proof.
  unfold initialize.
  apply balanced_jrpc_call. intros _ s1.
  apply balanced_jrpc_call. intros response s2.
  apply balanced_bind; [apply balanced_deserialize|].
  intros apiRootObject s3.
  apply balanced_bind; [apply balanced_register_each|].
  intros _ s4. apply (balanced_step_settled s4 (inr apiRootObject)).
Qed.

Lemma keeps_stack_start_all ws : forall s,
  _scriptObjectListStack (fst (start_all (map _deserialize ws) s)) = _scriptObjectListStack s
  ∧ Forall keeps_stack (snd (start_all (map _deserialize ws) s)).
Proof.
  induction ws as [|w ws IH]; intros s.
  - split; [reflexivity|constructor].
  - simpl. destruct (keeps_stack_deserialize w s) as [A B].
    destruct (_deserialize w s) as [s1 t]. simpl in *.
    destruct (IH s1) as [A' B']. simpl in *.
    destruct (start_all (map _deserialize ws) s1) as [s2 ts]. simpl in *.
    split; [congruence|constructor; assumption].
Qed.

Lemma balanced_handleAPICallback functionId args s :
  balanced_step 0 s (_handleAPICallback functionId args s).
Proof.
  unfold _handleAPICallback.
  destruct (_findScriptObject functionId s) as [callbackFunction|];
    [|apply (balanced_step_settled s (inl _))].
  destruct (as_function callbackFunction s) as [body|];
    [|apply (balanced_step_settled s (inl _))].
  unfold Promise_all. destruct (keeps_stack_start_all args s) as [A B].
  destruct (start_all (map _deserialize args) s) as [s1 ts]. simpl in *.
  eapply (balanced_step_then 0 0 s s1); [rewrite A; apply stack_effect_refl|].
  apply balanced_join; [exact B|].
  intros [e|vs] s'; [apply (balanced_step_settled s' (inl e))|].
  unfold apply_function.
  destruct (body vs) as [v|e].
  - apply (balanced_step_settled (record_application callbackFunction vs s') (inr VUndefined)).
  - apply (balanced_step_settled (record_application callbackFunction vs s') (inl e)).
Qed.

Lemma balanced_on_callback id functionId args s :
  balanced_step 0 s (on_callback id functionId args s).
Proof.
  unfold on_callback.
  destruct (balanced_handleAPICallback functionId args s) as (n & A & B).
  destruct (_handleAPICallback functionId args s) as [s1 t]. simpl in *.
  eapply balanced_step_then; [exact A|].
  replace n with (n + 0)%nat by lia. apply balanced_on_settle; [exact B|].
  intros o s'. exists 0%nat. simpl. split; [apply stack_effect_refl|destruct o; reflexivity].
Qed.

(** Shifting [d] frames off a stack that has more than [d] frames on top
    of its last frame leaves the last frame where it is. *)
Lemma stack_effect_bottom n n' k k' top bottom :
  stack_effect n n' k k' ->
  k = (top ++ [bottom])%list ->
  (n <= length top)%nat ->
  exists top',
    k' = (top' ++ [bottom])%list ∧ (length top' + n = length top + n')%nat.
Proof.
  intros (new & d & -> & A & B) -> Hn.
  exists (new ++ drop d top)%list. split.
  - rewrite drop_app_le by lia. rewrite <- app_assoc. reflexivity.
  - rewrite length_app, length_drop. lia.
Qed.

Lemma balanced_deliver_tasks id r bottom ts : forall ns top s,
  Forall2 owes ts ns ->
  _scriptObjectListStack s = (top ++ [bottom])%list ->
  (sum_list ns <= length top)%nat ->
  exists ns' top',
    Forall2 owes (snd (deliver_each id r ts s)) ns'
    ∧ _scriptObjectListStack (fst (deliver_each id r ts s)) = (top' ++ [bottom])%list
    ∧ (length top' + sum_list ns = length top + sum_list ns')%nat.
Proof.
  induction ts as [|t ts IH]; intros ns top s Hts Hstack Hsum.
  - inversion Hts; subst. exists [], top. simpl. split; [constructor|]. split; [exact Hstack|lia].
  - inversion Hts as [|? n ? ns0 Ht Hrest]; subst. simpl in Hsum.
    rewrite deliver_each_cons.
    destruct (balanced_deliver id r t n s Ht) as (n' & A & B).
    destruct (deliver id r t s) as [s1 t1]. simpl in *.
    destruct (stack_effect_bottom _ _ _ _ top bottom A Hstack) as (top1 & Hs1 & Hlen); [lia|].
    destruct (IH ns0 top1 s1 Hrest Hs1) as (ns' & top' & C & D & E); [lia|].
    destruct (deliver_each id r ts s1) as [s2 ts2]. simpl in *.
    exists (n' :: ns'), top'. split; [constructor; assumption|].
    split; [exact D|]. simpl. lia.
Qed.

Lemma balanced_spawn bottom m w :
  balanced bottom w ->
  (forall s, balanced_step 0 s (m s)) ->
  balanced bottom (spawn m w).
Proof.
  intros (ns & top & Hts & Hstack & Hlen) Hm. unfold spawn.
  destruct (Hm (state w)) as (n' & A & B).
  destruct (m (state w)) as [s t]. simpl in *.
  destruct (stack_effect_bottom _ _ _ _ top bottom A Hstack) as (top' & Hs & Hl); [lia|].
  exists (ns ++ [n'])%list, top'. simpl.
  split; [apply Forall2_app; [exact Hts|constructor; [exact B|constructor]]|].
  split; [exact Hs|]. rewrite sum_list_with_app, <- Hlen. simpl. unfold id. lia.
Qed.

Lemma balanced_receive bottom id r w :
  balanced bottom w ->
  balanced bottom (mkWorld (fst (deliver_each id r (tasks w) (state w)))
                           (snd (deliver_each id r (tasks w) (state w)))).
Proof.
  intros (ns & top & Hts & Hstack & Hlen).
  destruct (balanced_deliver_tasks id r bottom (tasks w) ns top (state w) Hts Hstack)
    as (ns' & top' & A & B & C); [lia|].
  exists ns', top'. simpl. split; [exact A|]. split; [exact B|lia].
Qed.

Lemma balanced_perform bottom a w : balanced bottom w -> balanced bottom (perform a w).
Proof.
  intros Hw. destruct a as [o|token|proxy name|proxy name value|proxy name args|message]; simpl.
  - destruct Hw as (ns & top & A & B & C). exists ns, top. simpl. auto.
  - apply balanced_spawn; [exact Hw|]. apply balanced_initialize.
  - unfold caller_reads.
    destruct (member (VObject proxy) name (state w)) as [[g st e c|c wr e cf]|]; try exact Hw.
    apply balanced_spawn; [exact Hw|]. apply balanced_call_getter.
  - destruct (exists_in (state w) value); [|exact Hw]. unfold caller_writes.
    destruct (member (VObject proxy) name (state w)) as [[g st e c|c wr e cf]|]; try exact Hw.
    apply balanced_spawn; [exact Hw|]. apply balanced_call_setter.
  - destruct (forallb (exists_in (state w)) args); [|exact Hw]. unfold caller_calls.
    destruct (member (VObject proxy) name (state w)) as [[g st e c|c wr e cf]|]; try exact Hw.
    + apply balanced_spawn; [exact Hw|]. apply balanced_call_getter.
    + apply balanced_spawn; [exact Hw|]. apply balanced_call_method.
  - destruct message as [id result|id error|id functionId args]; simpl.
    + pose proof (balanced_receive bottom id (Result result) w Hw) as H.
      destruct (deliver_each id (Result result) (tasks w) (state w)). exact H.
    + pose proof (balanced_receive bottom id (ErrorReply error) w Hw) as H.
      destruct (deliver_each id (ErrorReply error) (tasks w) (state w)). exact H.
    + apply balanced_spawn; [exact Hw|]. apply balanced_on_callback.
Qed.

Lemma balanced_run bottom actions : forall w,
  balanced bottom w -> balanced bottom (run actions w).
Proof.
  induction actions as [|a actions IH]; intros w Hw; [exact Hw|].
  apply (IH (perform a w)), balanced_perform, Hw.
Qed.

(** In every session, at every moment, the frame stack is the frames that
    the method calls under way have still to shift, on top of the frame of
    the global callbacks: that frame is never shifted. *)
Lemma global_frame_is_never_shifted objects globalCallbacksMap actions :
  balanced (Object_values globalCallbacksMap) (run actions (start objects globalCallbacksMap))
  ∧ exists top,
      _scriptObjectListStack (state (run actions (start objects globalCallbacksMap)))
      = (top ++ [Object_values globalCallbacksMap])%list.
Proof.
  assert (H : balanced (Object_values globalCallbacksMap)
                       (run actions (start objects globalCallbacksMap))).
  { apply balanced_run. exists [], []. split; [constructor|]. split; [|reflexivity].
    apply (constructor_fields objects globalCallbacksMap). }
  split; [exact H|]. destruct H as (ns & top & _ & Hs & _). exists top. exact Hs.
Qed.

(** C1, at calls that overlap.  The caller starts [foo(f)] and then
    [foo(g)] without waiting; the reply to the first call arrives.  The
    first call is settled and the second still waits for its reply, but
    the frame that was shifted is the one on top, that of the second call:
    the frame stack now holds [f], whose call has settled, and not [g],
    whose call has not.  A callback for the handle of [g] is refused with
    "Function was not found - ID: 2" and [g] is not applied. *)
Theorem C1_overlapping_calls_lose_the_wrong_frame :
  (exists k, tasks overlapping_calls !! 2%nat = Some (Pending 6 k))
  ∧ tasks overlapping_calls !! 1%nat = Some (Resolved (VBool true))
  ∧ _scriptObjectListStack (state overlapping_calls) = [[0%nat]; []]
  ∧ _scriptObjectIdMap (state overlapping_calls) !! 0%nat = Some 1
  ∧ _scriptObjectIdMap (state overlapping_calls) !! 1%nat = Some 2
  ∧ _findScriptObject 1 (state overlapping_calls) = Some 0%nat
  ∧ _findScriptObject 2 (state overlapping_calls) = None
  ∧ sent (state (perform (Receive (InCallback 1000 2 [])) overlapping_calls))
    = (sent (state overlapping_calls)
       ++ [OutError 1000 (JSError "Function was not found - ID: 2")])%list
  ∧ applied (state (perform (Receive (InCallback 1000 2 [])) overlapping_calls)) = [].
Proof.
  split; [eexists; vm_compute; reflexivity|].
  repeat split; vm_compute; reflexivity.
Qed.

(* ===================================================================== *)
(** ** C3: a callback whose handle resolves to a function *)
(* ===================================================================== *)

Lemma on_settle_with_orphans t bg h s :
  on_settle (with_orphans t bg) h s
  = let (s', t') := on_settle t h s in (s', with_orphans t' bg).
Proof.
  destruct bg as [|b bg]; simpl.
  - destruct (on_settle t h s). reflexivity.
  - reflexivity.
Qed.

(** [then], [catch] and [finally] on [Promise.all] go into its
    continuation. *)
Lemma on_settle_join ts k h s :
  (let (s1, t) := join ts k s in on_settle t h s1)
  = join ts (fun o s' => let (s'', t') := k o s' in on_settle t' h s'') s.
Proof.
  unfold join. destruct (first_rejection ts) as [e|].
  - destruct (k (inl e) s) as [s' t]. rewrite on_settle_with_orphans. reflexivity.
  - destruct (all_resolved ts) as [vs|]; reflexivity.
Qed.

Lemma deserialize_at_once w s :
  decodes_at_once w = true -> _deserialize w s = (s, Resolved (decoded_at_once w)).
Proof.
  destruct w as [b|n|str| |h| |items]; unfold _deserialize; simpl;
    try discriminate; try reflexivity.
  intros H. rewrite H. reflexivity.
Qed.

Lemma start_all_at_once ws s :
  Forall (fun w => decodes_at_once w = true) ws ->
  start_all (map _deserialize ws) s = (s, map (fun w => Resolved (decoded_at_once w)) ws).
Proof.
  induction 1 as [|w ws Hw _ IH]; [reflexivity|].
  simpl. rewrite (deserialize_at_once w s Hw). simpl in IH. rewrite IH. reflexivity.
Qed.

Lemma join_resolved (vs : list SerializableValue) k s :
  join (map Resolved vs) k s = k (inr vs) s.
Proof.
  assert (H1 : forall vs : list SerializableValue, first_rejection (map Resolved vs) = None).
  { clear. induction vs as [|v vs IH]; [reflexivity|exact IH]. }
  assert (H2 : forall vs : list SerializableValue, all_resolved (map Resolved vs) = Some vs).
  { clear. induction vs as [|v vs IH]; [reflexivity|]. simpl. rewrite IH. reflexivity. }
  unfold join. rewrite H1, H2. reflexivity.
Qed.

(** C3, as stated, fails: the callback "cb" of [callback_session] has
    handle 1 and returns 42, which would serialize to the number 42; but
    the handler resolves to the absence value, and the reply to the
    callback carries [true]. *)
Lemma C3_counterexample :
  _findScriptObject 1 callback_session = Some 0%nat
  ∧ as_function 0%nat callback_session = Some (fun _ => Returns (VNum 42))
  ∧ _serialize (VNum 42) callback_session = inr (WNum 42)
  ∧ snd (_handleAPICallback 1 [] callback_session) = Resolved VUndefined
  ∧ sent (fst (on_callback 1000 1 [] callback_session)) = [OutResult 1000 (WBool true)]
  ∧ applied (fst (on_callback 1000 1 [] callback_session)) = [(0%nat, [])]
  ∧ OutResult 1000 (WBool true) ≠ OutResult 1000 (WNum 42).
Proof. repeat split; try (vm_compute; reflexivity). discriminate. Qed.

(** C3, amended.  When the handle of an inbound callback resolves to a
    function, the handler starts decoding every argument, in order, and
    waits for all of them as [Promise.all] does.  If an argument cannot be
    decoded, the function is not applied and the reply is that error.
    Once all arguments are decoded, the function is applied to them, once.
    What it returns is not kept: if it returns, the handler resolves to the
    absence value and the reply carries [true], whatever was returned; if
    it throws, the handler is rejected with what was thrown and the reply
    is that error.  With arguments that decode on the spot, all of this
    happens at once. *)
Theorem C3_callback_is_applied_and_its_value_dropped :
  forall (id : nat) (functionId : Z) (serializedArgs : list SerializedValue) (st : State)
         (callbackFunction : Ref) (body : list SerializableValue -> Outcome),
    _findScriptObject functionId st = Some callbackFunction ->
    as_function callbackFunction st = Some body ->
    exists k,
      on_callback id functionId serializedArgs st
      = join (snd (start_all (map _deserialize serializedArgs) st)) k
             (fst (start_all (map _deserialize serializedArgs) st))
      ∧ (forall functionArguments s,
           k (inr functionArguments) s
           = match body functionArguments with
             | Returns _ =>
                 (sendMessage (OutResult id (WBool true))
                              (record_application callbackFunction functionArguments s),
                  Resolved VUndefined)
             | Throws e =>
                 (sendMessage (OutError id e)
                              (record_application callbackFunction functionArguments s),
                  Rejected e)
             end)
      ∧ (forall e s, k (inl e) s = (sendMessage (OutError id e) s, Rejected e))
      ∧ (Forall (fun w => decodes_at_once w = true) serializedArgs ->
         on_callback id functionId serializedArgs st
         = k (inr (map decoded_at_once serializedArgs)) st).
Proof.
  intros id functionId serializedArgs st callbackFunction body Hfind Hfn.
  set (h := fun (o : Settlement) (s : State) => (sendMessage (reply_to id o) s, settled o)).
  set (k0 := fun (o : Error + list SerializableValue) =>
               match o with
               | inr vs => apply_function callbackFunction body vs
               | inl e => throw e
               end).
  exists (fun o s' => let (s'', t') := k0 o s' in on_settle t' h s'').
  assert (E : on_callback id functionId serializedArgs st
              = join (snd (start_all (map _deserialize serializedArgs) st))
                     (fun o s' => let (s'', t') := k0 o s' in on_settle t' h s'')
                     (fst (start_all (map _deserialize serializedArgs) st))).
  { unfold on_callback, _handleAPICallback. rewrite Hfind, Hfn. unfold Promise_all.
    destruct (start_all (map _deserialize serializedArgs) st) as [s1 ts]. simpl.
    fold k0. fold h. apply on_settle_join. }
  split; [exact E|]. split; [|split].
  - intros functionArguments s. subst k0 h. unfold apply_function.
    destruct (body functionArguments); reflexivity.
  - intros e s. reflexivity.
  - intros Hall. rewrite E, start_all_at_once by exact Hall. simpl.
    rewrite <- (map_map decoded_at_once Resolved). apply join_resolved.
Qed.

Lemma C3_witness :
  (_findScriptObject 1 callback_session = Some 0%nat
   ∧ as_function 0%nat callback_session = Some (fun _ => Returns (VNum 42)))
  ∧ on_callback 1000 1 [WNum 7; WEmpty] callback_session
    = (sendMessage (OutResult 1000 (WBool true))
                   (record_application 0%nat [VNum 7; VUndefined] callback_session),
       Resolved VUndefined).
Proof.
  assert (H1 : _findScriptObject 1 callback_session = Some 0%nat) by (vm_compute; reflexivity).
  assert (H2 : as_function 0%nat callback_session = Some (fun _ => Returns (VNum 42)))
    by (vm_compute; reflexivity).
  split; [split; [exact H1|exact H2]|].
  destruct (C3_callback_is_applied_and_its_value_dropped 1000 1 [WNum 7; WEmpty]
              callback_session 0%nat _ H1 H2) as (k & _ & Hk & _ & Hnow).
  rewrite Hnow by (repeat constructor). rewrite Hk. reflexivity.
Defined.

(* ===================================================================== *)
(** ** C9: the registration of the global callbacks *)
(* ===================================================================== *)

Lemma State_eq a b :
  _lastScriptObjectId a = _lastScriptObjectId b ->
  _scriptObjectIdMap a = _scriptObjectIdMap b ->
  _globalCallbacksMap a = _globalCallbacksMap b ->
  _scriptObjectListStack a = _scriptObjectListStack b ->
  jrpc_id a = jrpc_id b ->
  sent a = sent b ->
  heap a = heap b ->
  applied a = applied b ->
  a = b.
Proof. destruct a, b. simpl. intros. subst. reflexivity. Qed.

Lemma after_requests_nil s : after_requests [] s = s.
Proof. apply State_eq; try reflexivity. simpl. apply app_nil_r. Qed.

Lemma after_requests_app r1 r2 s :
  after_requests r2 (after_requests r1 s) = after_requests (r1 ++ r2) s.
Proof.
  apply State_eq; try reflexivity; simpl.
  - rewrite length_app. lia.
  - rewrite app_assoc. reflexivity.
Qed.

Lemma registrations_ext serializedTarget ids1 ids2 entries : forall id,
  Forall (fun e : string * Ref => ids1 !! snd e = ids2 !! snd e) entries ->
  registrations serializedTarget ids1 id entries
  = registrations serializedTarget ids2 id entries.
Proof.
  induction entries as [|[name fn] entries IH]; intros id H; [reflexivity|].
  inversion H as [|? ? Hfn Hrest]; subst. simpl in *.
  rewrite Hfn, (IH (S id) Hrest). reflexivity.
Qed.

(** One turn of the loop of [initialize], followed by what [initialize]
    does when the loop is over: the registration is sent with the frame
    [fn] pushed, and a reply that decodes on the spot shifts the frame and
    starts the next turn. *)
Lemma register_first p o serializedTarget apiRootObject name fn scriptObjectId rest s :
  heap s !! p = Some (HProxy o) ->
  getOwnProperty (properties o) "registerCallback"
  = Some (DataProperty (Method serializedTarget "registerCallback") false true false) ->
  _scriptObjectIdMap s !! fn = Some scriptObjectId ->
  exists k,
    bind (register_each (VObject p) ((name, fn) :: rest)) (fun _ => ret apiRootObject) s
    = (sendMessage (OutRequest (jrpc_id s) "execute"
                      (Some [serializedTarget; WStr "registerCallback"; WStr name;
                             WScriptObject scriptObjectId]))
                   (next_jrpc_id
                      (unshift (omap (instanceof_Object s) [VStr name; VObject fn]) s)),
       Pending (jrpc_id s) k)
    ∧ (forall w s', decodes_at_once w = true ->
         k (Result w) s'
         = bind (register_each (VObject p) rest) (fun _ => ret apiRootObject) (shift s'))
    ∧ (forall response s' e,
         _deserialize response s' = (s', Rejected e) ->
         k (Result response) s' = (shift s', Rejected e))
    ∧ (forall error s', k (ErrorReply error) s' = (shift s', Rejected (RemoteError error))).
Proof.
  intros Hheap Hprop Hfn.
  set (args := [VStr name; VObject fn]).
  set (frame := omap (instanceof_Object s) args).
  assert (Hassign : assign_each frame s = s).
  { subst frame args. simpl.
    destruct (heap s !! fn) as [[body| |o'|[|] body conversion]|]; simpl; try reflexivity;
      apply (assign_registered fn s scriptObjectId Hfn). }
  assert (Hser : serialize_each args (unshift frame (assign_each frame s))
                 = inr [WStr name; WScriptObject scriptObjectId]).
  { rewrite Hassign. unfold args, serialize_each, _serialize. simpl. rewrite Hfn. reflexivity. }
  unfold bind at 1. simpl register_each. unfold bind at 1.
  unfold call_registerCallback. rewrite Hheap, Hprop.
  simpl call_method. fold args.
  rewrite (callAPIMethod_sends serializedTarget "registerCallback" args s _ Hser).
  fold frame. rewrite Hassign. cbn [on_settle].
  eexists. split; [reflexivity|]. split; [|split].
  - intros w s' Hw. cbn beta iota. rewrite (deserialize_at_once w s' Hw). reflexivity.
  - intros response s' e He. cbn beta iota. rewrite He. reflexivity.
  - intros error s'. reflexivity.
Qed.

Lemma register_none p apiRootObject s :
  bind (register_each (VObject p) []) (fun _ => ret apiRootObject) s
  = (s, Resolved apiRootObject).
Proof. reflexivity. Qed.

Lemma receive_single id result k s :
  perform (Receive (InResult id result)) (mkWorld s [Pending id k])
  = mkWorld (fst (k (Result result) s)) [snd (k (Result result) s)].
Proof.
  simpl. unfold deliver_each. simpl. rewrite Nat.eqb_refl.
  destruct (k (Result result) s). reflexivity.
Qed.

Lemma run_app l1 l2 w : run (l1 ++ l2) w = run l2 (run l1 w).
Proof. unfold run. apply foldl_app. Qed.

Lemma receive_reply id r k s :
  perform (Receive (inbound_reply id r)) (mkWorld s [Pending id k])
  = mkWorld (fst (k r s)) [snd (k r s)].
Proof.
  destruct r as [result|error]; simpl; unfold deliver_each; simpl; rewrite Nat.eqb_refl;
    destruct (k _ s); reflexivity.
Qed.

Lemma refusal_spec r e :
  refusal r = Some e ->
  (exists error, r = ErrorReply error ∧ e = RemoteError error)
  ∨ (exists response, r = Result response
                      ∧ forall s, _deserialize response s = (s, Rejected e)).
Proof.
  destruct r as [[b|n|str| |h| |items]|error]; simpl; try discriminate; intros [= <-].
  - right. exists WNull. split; reflexivity.
  - right. exists (WArray items). split; reflexivity.
  - left. eauto.
Qed.

(** The loop of [initialize] against a peer that answers some
    registrations with results that decode on the spot and the next one
    with an error, or with a result that cannot be decoded: the frame is
    shifted and the loop ends there. *)
Lemma register_loop_refused p o serializedTarget apiRootObject reply e entries :
  forall results s,
  heap s !! p = Some (HProxy o) ->
  getOwnProperty (properties o) "registerCallback"
  = Some (DataProperty (Method serializedTarget "registerCallback") false true false) ->
  Forall (fun e => is_Some (_scriptObjectIdMap s !! snd e)) entries ->
  Forall (fun w => decodes_at_once w = true) results ->
  refusal reply = Some e ->
  (length results < length entries)%nat ->
  let now := bind (register_each (VObject p) entries) (fun _ => ret apiRootObject) s in
  run (results_from (jrpc_id s) results
       ++ [Receive (inbound_reply (length results + jrpc_id s) reply)])
      (mkWorld (fst now) [snd now])
  = mkWorld (after_requests (registrations serializedTarget (_scriptObjectIdMap s) (jrpc_id s)
                                           (take (S (length results)) entries)) s)
            [Rejected e].
Proof.
  induction entries as [|[name fn] entries IH];
    intros results s Hheap Hprop Hreg Hres Hreply Hlen; [simpl in Hlen; lia|].
  inversion Hreg as [|? ? [h Hfn] Hrest]; subst. simpl in Hfn.
  destruct (register_first p o serializedTarget apiRootObject name fn h entries s
              Hheap Hprop Hfn) as (k & Hnow & Hk & Hthrown & Hrefused).
  cbn zeta. rewrite Hnow. cbn [fst snd].
  set (request := OutRequest (jrpc_id s) "execute"
                    (Some [serializedTarget; WStr "registerCallback"; WStr name;
                           WScriptObject h])).
  destruct results as [|r results].
  - cbn [results_from app length Nat.add].
    change (run [?a] ?w) with (perform a w).
    assert (Hend : forall s', k reply s' = (shift s', Rejected e)).
    { intros s'. destruct (refusal_spec reply e Hreply)
        as [(error & -> & ->)|(response & -> & Hthrows)].
      - apply Hrefused.
      - apply Hthrown, Hthrows. }
    rewrite receive_reply, Hend. cbn [fst snd].
    simpl take. simpl registrations. rewrite Hfn. reflexivity.
  - inversion Hres as [|? ? Hr Hres']; subst.
    cbn [results_from app]. change (run (?a :: ?l) ?w) with (run l (perform a w)).
    rewrite receive_single, (Hk r _ Hr).
    change (shift (sendMessage request (next_jrpc_id (unshift ?frame s))))
      with (after_requests [request] s).
    specialize (IH results (after_requests [request] s) Hheap Hprop Hrest Hres' Hreply).
    simpl in Hlen. specialize (IH ltac:(lia)). cbn zeta in IH.
    change (jrpc_id (after_requests [request] s)) with (S (jrpc_id s)) in IH.
    change (_scriptObjectIdMap (after_requests [request] s))
      with (_scriptObjectIdMap s) in IH.
    replace (length (r :: results) + jrpc_id s)%nat
      with (length results + S (jrpc_id s))%nat by (simpl; lia).
    rewrite IH, after_requests_app. simpl. rewrite Hfn. reflexivity.
Qed.

(** ** The loop of [initialize], whatever the peer answers *)

Lemma bind_Pending m f s s1 id k :
  m s = (s1, Pending id k) ->
  bind m f s = (s1, Pending id (fun r => bind (k r) f)).
Proof. intros H. unfold bind. rewrite H. reflexivity. Qed.

Lemma try_finally_Pending m cleanup s s1 id k :
  m s = (s1, Pending id k) ->
  try_finally m cleanup s = (s1, Pending id (fun r => try_finally (k r) cleanup)).
Proof. intros H. unfold try_finally. rewrite H. reflexivity. Qed.

Lemma lifts_turn (f g : SerializableValue -> Async) :
  lifts (fun m => bind (bind (try_finally m shift) f) g).
Proof.
  intros m s s1 id k H.
  rewrite (bind_Pending _ g s s1 id (fun r => bind (try_finally (k r) shift) f));
    [reflexivity|].
  rewrite (bind_Pending _ f s s1 id (fun r => try_finally (k r) shift)); [reflexivity|].
  apply try_finally_Pending, H.
Qed.

(** The materialisation of a proxy inside an [await], from the reply that
    is a handle to the moment both lists of names are there. *)
Lemma receive_description wrap scriptObject P M s :
  lifts wrap ->
  scriptObject ≠ API_VALUE_INVALID_SCRIPT_OBJECT ->
  let now := wrap (_deserialize (WScriptObject scriptObject)) s in
  let s3 := after_requests
              [OutRequest (jrpc_id s) "listProperties" (Some [WScriptObject scriptObject]);
               OutRequest (S (jrpc_id s)) "listMethods" (Some [WScriptObject scriptObject])]
              s in
  let then_ := wrap (build_proxy scriptObject (WArray P) (WArray M)) s3 in
  run [Receive (InResult (jrpc_id s) (WArray P));
       Receive (InResult (S (jrpc_id s)) (WArray M))]
      (mkWorld (fst now) [snd now])
  = mkWorld (fst then_) [snd then_].
Proof.
  intros Hwrap Hid now s3 then_. subst now then_.
  rewrite deserialize_valid_handle by exact Hid.
  unfold _describeScriptObject.
  erewrite Hwrap by (unfold jrpc_call at 1; reflexivity).
  cbn [fst snd].
  change (run (?a :: ?l) ?w) with (run l (perform a w)).
  rewrite receive_single. cbn beta iota.
  erewrite Hwrap by (unfold jrpc_call at 1; reflexivity).
  cbn [fst snd jrpc_id sendMessage next_jrpc_id].
  change (run (?a :: ?l) ?w) with (run l (perform a w)).
  rewrite receive_single. cbn beta iota.
  change (run [] ?w) with w.
  match goal with |- context [wrap _ ?s] => set (s3' := s) end.
  assert (Hs3 : s3' = s3).
  { subst s3' s3. apply State_eq; try reflexivity. simpl. rewrite <- app_assoc. reflexivity. }
  rewrite Hs3. reflexivity.
Qed.

(** One turn of the loop of [initialize]: the registration is sent with
    the frame of [fn] pushed; the result is decoded inside the [try] whose
    [finally] shifts the frame, and the next turn follows. *)
Lemma register_turn p o serializedTarget apiRootObject name fn scriptObjectId rest s :
  heap s !! p = Some (HProxy o) ->
  getOwnProperty (properties o) "registerCallback"
  = Some (DataProperty (Method serializedTarget "registerCallback") false true false) ->
  _scriptObjectIdMap s !! fn = Some scriptObjectId ->
  exists k,
    bind (register_each (VObject p) ((name, fn) :: rest)) (fun _ => ret apiRootObject) s
    = (sendMessage (OutRequest (jrpc_id s) "execute"
                      (Some [serializedTarget; WStr "registerCallback"; WStr name;
                             WScriptObject scriptObjectId]))
                   (next_jrpc_id
                      (unshift (omap (instanceof_Object s) [VStr name; VObject fn]) s)),
       Pending (jrpc_id s) k)
    ∧ (forall response s',
         k (Result response) s'
         = bind (bind (try_finally (_deserialize response) shift)
                      (fun _ => register_each (VObject p) rest))
                (fun _ => ret apiRootObject) s')
    ∧ (forall error s', k (ErrorReply error) s' = (shift s', Rejected (RemoteError error))).
Proof.
  intros Hheap Hprop Hfn.
  set (args := [VStr name; VObject fn]).
  set (frame := omap (instanceof_Object s) args).
  assert (Hassign : assign_each frame s = s).
  { subst frame args. simpl.
    destruct (heap s !! fn) as [[body| |o'|[|] body conversion]|]; simpl; try reflexivity;
      apply (assign_registered fn s scriptObjectId Hfn). }
  assert (Hser : serialize_each args (unshift frame (assign_each frame s))
                 = inr [WStr name; WScriptObject scriptObjectId]).
  { rewrite Hassign. unfold args, serialize_each, _serialize. simpl. rewrite Hfn. reflexivity. }
  unfold bind at 1. simpl register_each. unfold bind at 1.
  unfold call_registerCallback. rewrite Hheap, Hprop.
  simpl call_method. fold args.
  rewrite (callAPIMethod_sends serializedTarget "registerCallback" args s _ Hser).
  fold frame. rewrite Hassign. cbn [on_settle].
  eexists. split; [reflexivity|]. split.
  - intros response s'. reflexivity.
  - intros error s'. reflexivity.
Qed.

Lemma conversation_ext serializedTarget ids1 ids2 entries : forall id answers,
  Forall (fun e : string * Ref => ids1 !! snd e = ids2 !! snd e) entries ->
  conversation serializedTarget ids1 id entries answers
  = conversation serializedTarget ids2 id entries answers.
Proof.
  induction entries as [|[name fn] entries IH]; intros id answers H; [reflexivity|].
  inversion H as [|? ? Hfn Hrest]; subst. simpl in *. rewrite Hfn.
  destruct answers as [|[result|scriptObject P M] answers]; [reflexivity| |];
    rewrite (IH _ _ Hrest); reflexivity.
Qed.

(** When no answer is a handle, the requests of the loop are the
    registrations, one more than there are answers. *)
Lemma conversation_immediate serializedTarget ids entries : forall id results,
  conversation serializedTarget ids id entries (map Immediate results)
  = registrations serializedTarget ids id (take (S (length results)) entries).
Proof.
  induction entries as [|[name fn] entries IH]; intros id results; [reflexivity|].
  destruct results as [|r results]; simpl.
  - reflexivity.
  - rewrite IH. reflexivity.
Qed.

Lemma world_eta w : w = mkWorld (state w) (tasks w).
Proof. destruct w. reflexivity. Qed.

(** The loop of [initialize] against a peer that gives the [answers]:
    each registration leaves when the one before it has its answer, and
    the promise that waits for the next reply is rejected by an error and
    by a result that cannot be decoded. *)
Lemma register_conversation p o serializedTarget apiRootObject entries : forall answers s,
  heap s !! p = Some (HProxy o) ->
  getOwnProperty (properties o) "registerCallback"
  = Some (DataProperty (Method serializedTarget "registerCallback") false true false) ->
  Forall (fun e : string * Ref =>
            (snd e < length (heap s))%nat ∧ is_Some (_scriptObjectIdMap s !! snd e))
         entries ->
  Forall decodable answers ->
  (length answers <= length entries)%nat ->
  let now := bind (register_each (VObject p) entries) (fun _ => ret apiRootObject) s in
  let w := run (answers_from (jrpc_id s) answers) (mkWorld (fst now) [snd now]) in
  sent (state w)
  = (sent s ++ conversation serializedTarget (_scriptObjectIdMap s) (jrpc_id s)
                            entries answers)%list
  ∧ (length answers = length entries -> tasks w = [Resolved apiRootObject])
  ∧ ((length answers < length entries)%nat ->
       exists k,
         tasks w = [Pending (span answers + jrpc_id s) k]
         ∧ (forall error s', k (ErrorReply error) s' = (shift s', Rejected (RemoteError error)))
         ∧ (forall response s' e,
              _deserialize response s' = (s', Rejected e) ->
              k (Result response) s' = (shift s', Rejected e))).
Proof.
  induction entries as [|[name fn] entries IH]; intros answers s Hheap Hprop Hreg Hans Hlen.
  - destruct answers as [|a answers]; [|simpl in Hlen; lia].
    rewrite register_none. simpl. split; [rewrite app_nil_r; reflexivity|].
    split; [reflexivity|lia].
  - inversion Hreg as [|? ? [Hlt [h Hfn]] Hrest]; subst. simpl in Hfn, Hlt.
    destruct (register_turn p o serializedTarget apiRootObject name fn h entries s
                Hheap Hprop Hfn) as (k & Hnow & Hk & Hrefused).
    rewrite Hnow. cbn [fst snd].
    set (request := OutRequest (jrpc_id s) "execute"
                      (Some [serializedTarget; WStr "registerCallback"; WStr name;
                             WScriptObject h])).
    destruct answers as [|[r|scriptObject P M] answers].
    + simpl. rewrite Hfn. simpl. split; [reflexivity|].
      split; [discriminate|]. intros _. exists k. split; [reflexivity|].
      split; [exact Hrefused|].
      intros response s' e He. rewrite Hk. unfold bind, try_finally. rewrite He. reflexivity.
    + inversion Hans as [|? ? Hr Hans']; subst. simpl in Hr.
      cbn [answers_from]. change (run (?a :: ?l) ?w) with (run l (perform a w)).
      rewrite receive_single, Hk.
      assert (Hnext : forall s',
                 bind (bind (try_finally (_deserialize r) shift)
                            (fun _ => register_each (VObject p) entries))
                      (fun _ => ret apiRootObject) s'
                 = bind (register_each (VObject p) entries)
                        (fun _ => ret apiRootObject) (shift s')).
      { intros s'. unfold bind at 1 2. unfold try_finally.
        rewrite (deserialize_at_once r s' Hr). reflexivity. }
      rewrite Hnext.
      change (shift (sendMessage request (next_jrpc_id (unshift ?frame s))))
        with (after_requests [request] s).
      specialize (IH answers (after_requests [request] s) Hheap Hprop Hrest Hans').
      simpl in Hlen. specialize (IH ltac:(lia)).
      cbn zeta in IH. destruct IH as (IH1 & IH2 & IH3).
      change (jrpc_id (after_requests [request] s)) with (S (jrpc_id s)) in *.
      change (_scriptObjectIdMap (after_requests [request] s))
        with (_scriptObjectIdMap s) in *.
      split; [|split].
      * rewrite IH1. simpl. rewrite Hfn. simpl. rewrite <- app_assoc. reflexivity.
      * intros Hcomplete. simpl in Hcomplete. apply IH2. lia.
      * intros Hpending. simpl in Hpending.
        destruct IH3 as (k' & Hk' & Hrest'); [lia|]. exists k'. split; [|exact Hrest'].
        rewrite Hk'. simpl. rewrite Nat.add_succ_r. reflexivity.
    + inversion Hans as [|? ? Hdec Hans']; subst. destruct Hdec as (Hid & Hnd & _).
      cbn [answers_from]. change (run (?a :: ?l) ?w) with (run l (perform a w)).
      rewrite receive_single.
      set (s1 := sendMessage request
                   (next_jrpc_id (unshift (omap (instanceof_Object s)
                                                [VStr name; VObject fn]) s))).
      set (wrap := fun m : Async =>
                     bind (bind (try_finally m shift)
                                (fun _ => register_each (VObject p) entries))
                          (fun _ => ret apiRootObject)).
      rewrite Hk.
      change (bind (bind (try_finally ?m shift) _) _ s1) with (wrap m s1).
      change (run (?a :: ?b :: ?l) ?w) with (run l (run [a; b] w)).
      pose proof (receive_description wrap scriptObject P M s1
                    (lifts_turn _ _) Hid) as Hdescribed.
      cbn zeta in Hdescribed.
      change (jrpc_id s1) with (S (jrpc_id s)) in Hdescribed.
      rewrite Hdescribed. clear Hdescribed.
      set (describing := [OutRequest (S (jrpc_id s)) "listProperties"
                                     (Some [WScriptObject scriptObject]);
                          OutRequest (S (S (jrpc_id s))) "listMethods"
                                     (Some [WScriptObject scriptObject])]).
      set (s3 := after_requests describing s1).
      pose proof (build_object_spec (WScriptObject scriptObject) P M) as Hbuild.
      destruct (build_object (WScriptObject scriptObject) (WArray P) (WArray M))
        as [[e o']|o'] eqn:E; [contradiction|]. clear Hbuild.
      set (s4 := set_scriptObjectIdMap
                   (<[length (heap s) := scriptObject]> (_scriptObjectIdMap s))
                   (set_heap (heap s ++ [HProxy o'])
                             (after_requests (request :: describing) s))).
      assert (Hthen : wrap (build_proxy scriptObject (WArray P) (WArray M)) s3
                      = bind (register_each (VObject p) entries)
                             (fun _ => ret apiRootObject) s4).
      { unfold wrap. unfold bind at 1 2. unfold try_finally, build_proxy. rewrite E.
        cbn [on_settle settled].
        match goal with |- context [register_each _ _ ?s'] => set (s4' := s') end.
        assert (Hs4 : s4' = s4).
        { subst s4' s4 s3 s1. apply State_eq; try reflexivity.
          simpl. rewrite <- app_assoc. reflexivity. }
        rewrite Hs4. reflexivity. }
      rewrite Hthen.
      assert (Hheap4 : heap s4 !! p = Some (HProxy o)).
      { subst s4. simpl. rewrite lookup_app_l; [exact Hheap|].
        apply lookup_lt_Some in Hheap. exact Hheap. }
      assert (Hsame : Forall (fun e : string * Ref =>
                                _scriptObjectIdMap s4 !! snd e = _scriptObjectIdMap s !! snd e)
                             entries).
      { eapply Forall_impl; [exact Hrest|]. intros e [He _]. subst s4. simpl.
        apply lookup_insert_ne. lia. }
      assert (Hreg4 : Forall (fun e : string * Ref =>
                                (snd e < length (heap s4))%nat
                                ∧ is_Some (_scriptObjectIdMap s4 !! snd e)) entries).
      { rewrite Forall_forall in Hrest, Hsame |- *. intros e He.
        destruct (Hrest e He) as [Hlt' Hsome]. split.
        - subst s4. simpl. rewrite length_app. simpl. lia.
        - rewrite (Hsame e He). exact Hsome. }
      specialize (IH answers s4 Hheap4 Hprop Hreg4 Hans').
      simpl in Hlen. specialize (IH ltac:(lia)).
      cbn zeta in IH. destruct IH as (IH1 & IH2 & IH3).
      change (jrpc_id s4) with (S (S (S (jrpc_id s)))) in *.
      rewrite (conversation_ext _ _ _ _ _ _ Hsame) in IH1.
      split; [|split].
      * rewrite IH1. simpl. rewrite Hfn. simpl. rewrite <- app_assoc. reflexivity.
      * intros Hcomplete. simpl in Hcomplete. apply IH2. lia.
      * intros Hpending. simpl in Hpending.
        destruct IH3 as (k' & Hk' & Hrest'); [lia|]. exists k'. split; [|exact Hrest'].
        rewrite Hk'. simpl. rewrite !Nat.add_succ_r. reflexivity.
Qed.

(** [initialize] up to the loop, one reply after the other. *)
Lemma initialize_chain token s :
  exists k1,
    initialize token s
    = (sendMessage (OutRequest (jrpc_id s) "authenticate" (Some [WStr token])) (next_jrpc_id s),
       Pending (jrpc_id s) k1)
    ∧ forall auth s1, exists k2,
        k1 (Result auth) s1
        = (sendMessage (OutRequest (jrpc_id s1) "getRootObject" None) (next_jrpc_id s1),
           Pending (jrpc_id s1) k2)
        ∧ forall scriptObject s2,
            scriptObject ≠ API_VALUE_INVALID_SCRIPT_OBJECT ->
            exists k3,
              k2 (Result (WScriptObject scriptObject)) s2
              = (sendMessage (OutRequest (jrpc_id s2) "listProperties"
                                         (Some [WScriptObject scriptObject]))
                             (next_jrpc_id s2),
                 Pending (jrpc_id s2) k3)
              ∧ forall properties s3, exists k4,
                  k3 (Result properties) s3
                  = (sendMessage (OutRequest (jrpc_id s3) "listMethods"
                                             (Some [WScriptObject scriptObject]))
                                 (next_jrpc_id s3),
                     Pending (jrpc_id s3) k4)
                  ∧ forall methods s4,
                      k4 (Result methods) s4
                      = bind (build_proxy scriptObject properties methods)
                             (fun apiRootObject st =>
                                bind (register_each apiRootObject
                                        (Object_entries (_globalCallbacksMap st)))
                                     (fun _ => ret apiRootObject) st) s4.
Proof.
  unfold initialize. unfold jrpc_call at 1.
  eexists. split; [reflexivity|]. intros auth s1. cbn beta iota.
  unfold jrpc_call at 1.
  eexists. split; [reflexivity|]. intros scriptObject s2 Hid. cbn beta iota.
  unfold bind at 1. rewrite deserialize_valid_handle by exact Hid.
  unfold _describeScriptObject. unfold jrpc_call at 1. cbn [on_settle].
  eexists. split; [reflexivity|]. intros properties s3. cbn beta iota.
  unfold jrpc_call at 1. cbn [on_settle].
  eexists. split; [reflexivity|]. intros methods s4. reflexivity.
Qed.

Lemma spawn_first m s :
  spawn m (mkWorld s []) = mkWorld (fst (m s)) [snd (m s)].
Proof. unfold spawn. simpl. destruct (m s). reflexivity. Qed.

Lemma initialize_reaches_loop objects globalCallbacksMap token auth scriptObject P M :
  scriptObject ≠ API_VALUE_INVALID_SCRIPT_OBJECT ->
  NoDup (P ++ M) ->
  let st := constructor objects globalCallbacksMap in
  let serializedTarget := WScriptObject scriptObject in
  let o := {| properties :=
                map (fun n => (n, property_descriptor serializedTarget n)) P
                ++ map (fun n => (n, method_descriptor serializedTarget n)) M;
              extensible := false |} in
  let requests := [OutRequest 1 "authenticate" (Some [WStr token]);
                   OutRequest 2 "getRootObject" None;
                   OutRequest 3 "listProperties" (Some [serializedTarget]);
                   OutRequest 4 "listMethods" (Some [serializedTarget])] in
  let s5 := set_scriptObjectIdMap
              (<[length objects := scriptObject]> (_scriptObjectIdMap st))
              (set_heap (objects ++ [HProxy o]) (after_requests requests st)) in
  run [Initialize token;
       Receive (InResult 1 auth);
       Receive (InResult 2 serializedTarget);
       Receive (InResult 3 (WArray P));
       Receive (InResult 4 (WArray M))]
      (start objects globalCallbacksMap)
  = mkWorld
      (fst (bind (register_each (VObject (length objects)) (Object_entries globalCallbacksMap))
                 (fun _ => ret (VObject (length objects))) s5))
      [snd (bind (register_each (VObject (length objects)) (Object_entries globalCallbacksMap))
                 (fun _ => ret (VObject (length objects))) s5)].
Proof.
  intros Hid Hnd st serializedTarget o requests s5.
  pose proof (build_object_spec serializedTarget P M) as Hbuild.
  destruct (build_object serializedTarget (WArray P) (WArray M)) as [[e o']|o'] eqn:E;
    [contradiction|].
  destruct Hbuild as [_ Ho']. fold o in Ho'. subst o'.
  destruct (constructor_fields objects globalCallbacksMap) as (A & B & C & D & F & G).
  fold st in A, B, C, D, F, G.
  unfold start. fold st. clearbody st.
  destruct (initialize_chain token st) as (k1 & H0 & H1).
  change (run (?a :: ?l) ?w) with (run l (perform a w)).
  change (perform (Initialize token) ?w) with (spawn (initialize token) w).
  rewrite spawn_first, H0, B. cbn [fst snd].
  edestruct H1 as (k2 & H1' & H2). clear H1.
  change (run (?a :: ?l) ?w) with (run l (perform a w)).
  rewrite receive_single, H1'. cbn [fst snd jrpc_id sendMessage next_jrpc_id]. rewrite B.
  edestruct (H2 scriptObject) as (k3 & H2' & H3); [exact Hid|]. clear H2.
  change (run (?a :: ?l) ?w) with (run l (perform a w)).
  rewrite receive_single. fold serializedTarget in H2'. rewrite H2'.
  cbn [fst snd jrpc_id sendMessage next_jrpc_id]. rewrite B.
  edestruct (H3 (WArray P)) as (k4 & H3' & H4). clear H3.
  change (run (?a :: ?l) ?w) with (run l (perform a w)).
  rewrite receive_single, H3'.
  cbn [fst snd jrpc_id sendMessage next_jrpc_id]. rewrite B.
  change (run (?a :: ?l) ?w) with (run l (perform a w)).
  rewrite receive_single, H4.
  match goal with |- context [bind (build_proxy _ _ _) _ ?s] => set (s4 := s) end.
  change (run [] ?w) with w.
  unfold bind at 1 3. unfold build_proxy. fold serializedTarget. rewrite E.
  cbn [on_settle].
  assert (Hs5 : set_scriptObjectIdMap
                  (<[length (heap s4) := scriptObject]>
                     (_scriptObjectIdMap (set_heap (heap s4 ++ [HProxy o]) s4)))
                  (set_heap (heap s4 ++ [HProxy o]) s4) = s5).
  { subst s4 s5. apply State_eq; simpl; rewrite ?C, ?A, ?B, ?G; reflexivity. }
  rewrite Hs5.
  assert (Hlen : length (heap s4) = length objects) by (subst s4; simpl; rewrite C; reflexivity).
  rewrite Hlen.
  assert (Hg : _globalCallbacksMap s5 = globalCallbacksMap) by (subst s5; simpl; exact G).
  rewrite Hg. reflexivity.
Qed.

Lemma constructor_registers objects globalCallbacksMap :
  Forall (fun e : string * Ref =>
            is_Some (_scriptObjectIdMap (constructor objects globalCallbacksMap) !! snd e))
         (Object_entries globalCallbacksMap).
Proof.
  unfold constructor. simpl.
  pose proof (assign_each_registers (Object_values globalCallbacksMap)
                (mkState API_VALUE_INVALID_SCRIPT_OBJECT ∅ [] [] 1%nat [] objects [])) as H.
  apply Forall_forall. intros e He.
  apply (proj1 (Forall_forall _ _) H).
  unfold Object_values. apply list_elem_of_fmap. exists e. split; [reflexivity|exact He].
Qed.

(** C9, as stated, fails: with the callbacks written as [{b: f, 1: g}],
    the first registration that [initialize] sends is that of "1", which
    was written second. *)
Lemma C9_counterexample :
  _globalCallbacksMap (state index_named_callbacks) = [("b", 0%nat); ("1", 1%nat)]
  ∧ sent (state index_named_callbacks)
    = [OutRequest 1 "authenticate" (Some [WStr "valid token"]);
       OutRequest 2 "getRootObject" None;
       OutRequest 3 "listProperties" (Some [WScriptObject 123]);
       OutRequest 4 "listMethods" (Some [WScriptObject 123]);
       OutRequest 5 "execute"
         (Some [WScriptObject 123; WStr "registerCallback"; WStr "1"; WScriptObject 1])].
Proof. split; vm_compute; reflexivity. Qed.

(** C9, amended.  Let "authenticate" succeed, "getRootObject" return a
    handle other than 0, and the two describe calls return distinct names
    with "registerCallback" among the methods and "then" not among the
    names.  Then [initialize] registers the configured callbacks by
    "execute" requests for [registerCallback(name, handle of fn)] in the
    order of [Object.entries] over the callback map: names that are array
    indices first, in ascending numeric order, then the other names in the
    order in which they were written (so, in the order written when no
    name is an array index).  The next registration is sent only when the
    reply to the previous one has arrived and has been decoded: at once
    when the reply is a plain value, the empty marker or the invalid
    handle, and after the two describe calls when it is the handle of an
    object (whose names are distinct and without "then").  With such
    answers, after [n] of them exactly [n + 1] registrations have left,
    and after the last one [initialize] resolves with the root proxy.  A
    reply to a registration that is an error, or a result that cannot be
    decoded (null or an array), rejects [initialize] with that failure: no
    registration follows it, whatever replies arrive later. *)
Theorem C9_callbacks_are_registered_in_Object_entries_order :
  forall (objects : list HeapObject) (globalCallbacksMap : JSRecord) (token : string)
         (auth : SerializedValue) (scriptObject : Z) (P M : list string)
         (answers : list Answer),
    callbacks_exist objects globalCallbacksMap = true ->
    scriptObject ≠ API_VALUE_INVALID_SCRIPT_OBJECT ->
    NoDup (P ++ M) ->
    "registerCallback" ∈ M ->
    "then" ∉ (P ++ M)%list ->
    Forall decodable answers ->
    (length answers <= length globalCallbacksMap)%nat ->
    let w := run ([Initialize token;
                   Receive (InResult 1 auth);
                   Receive (InResult 2 (WScriptObject scriptObject));
                   Receive (InResult 3 (WArray P));
                   Receive (InResult 4 (WArray M))]
                  ++ answers_from 5 answers)
                 (start objects globalCallbacksMap) in
    sent (state w)
    = ([OutRequest 1 "authenticate" (Some [WStr token]);
        OutRequest 2 "getRootObject" None;
        OutRequest 3 "listProperties" (Some [WScriptObject scriptObject]);
        OutRequest 4 "listMethods" (Some [WScriptObject scriptObject])]
       ++ conversation (WScriptObject scriptObject)
                       (_scriptObjectIdMap (constructor objects globalCallbacksMap)) 5
                       (Object_entries globalCallbacksMap) answers)%list
    ∧ (forall results,
         answers = map Immediate results ->
         conversation (WScriptObject scriptObject)
                      (_scriptObjectIdMap (constructor objects globalCallbacksMap)) 5
                      (Object_entries globalCallbacksMap) answers
         = registrations (WScriptObject scriptObject)
                         (_scriptObjectIdMap (constructor objects globalCallbacksMap)) 5
                         (take (S (length results)) (Object_entries globalCallbacksMap)))
    ∧ (length answers = length globalCallbacksMap ->
         tasks w = [Resolved (VObject (length objects))])
    ∧ ((length answers < length globalCallbacksMap)%nat ->
         exists k, tasks w = [Pending (5 + span answers) k])
    ∧ (Forall (fun p => array_index (fst p) = None) globalCallbacksMap ->
         Object_entries globalCallbacksMap = globalCallbacksMap)
    ∧ (forall reply e,
         refusal reply = Some e ->
         (length answers < length globalCallbacksMap)%nat ->
         let w' := perform (Receive (inbound_reply (5 + span answers) reply)) w in
         tasks w' = [Rejected e]
         ∧ sent (state w') = sent (state w)
         ∧ forall id r, perform (Receive (inbound_reply id r)) w' = w').
Proof.
  intros objects globalCallbacksMap token auth scriptObject P M answers
         Hgcm Hid Hnd HM Hthen Hans Hlen w.
  subst w. rewrite run_app, initialize_reaches_loop by assumption.
  set (st := constructor objects globalCallbacksMap).
  set (serializedTarget := WScriptObject scriptObject).
  set (o := {| properties :=
                 map (fun n => (n, property_descriptor serializedTarget n)) P
                 ++ map (fun n => (n, method_descriptor serializedTarget n)) M;
               extensible := false |}).
  set (requests := [OutRequest 1 "authenticate" (Some [WStr token]);
                    OutRequest 2 "getRootObject" None;
                    OutRequest 3 "listProperties" (Some [serializedTarget]);
                    OutRequest 4 "listMethods" (Some [serializedTarget])]).
  set (s5 := set_scriptObjectIdMap
               (<[length objects := scriptObject]> (_scriptObjectIdMap st))
               (set_heap (objects ++ [HProxy o]) (after_requests requests st))).
  destruct (constructor_fields objects globalCallbacksMap) as (A & B & C & D & F & G).
  pose proof (constructor_registers objects globalCallbacksMap) as Hc.
  fold st in A, B, C, D, F, G, Hc. clearbody st.
  assert (Hentries : length (Object_entries globalCallbacksMap) = length globalCallbacksMap)
    by (apply Permutation_length, Object_entries_perm).
  assert (Hexist : Forall (fun e : string * Ref => (snd e < length objects)%nat)
                          (Object_entries globalCallbacksMap)).
  { apply Object_entries_exist. unfold callbacks_exist in Hgcm.
    rewrite forallb_forall in Hgcm. apply Forall_forall. intros e He.
    apply Nat.ltb_lt, Hgcm, list_elem_of_In, He. }
  assert (Hheap : heap s5 !! length objects = Some (HProxy o)).
  { subst s5. simpl. apply list_lookup_middle. reflexivity. }
  assert (Hprop : getOwnProperty (properties o) "registerCallback"
                  = Some (DataProperty (Method serializedTarget "registerCallback")
                                       false true false)).
  { subst o. simpl. rewrite getOwnProperty_app, !getOwnProperty_named.
    apply NoDup_app in Hnd as (_ & Hdisj & _).
    rewrite decide_False by (intros HP; exact (Hdisj _ HP HM)).
    rewrite decide_True by exact HM. reflexivity. }
  assert (Hsame : Forall (fun e : string * Ref =>
                            _scriptObjectIdMap s5 !! snd e = _scriptObjectIdMap st !! snd e)
                         (Object_entries globalCallbacksMap)).
  { eapply Forall_impl; [exact Hexist|]. intros e He. subst s5. simpl in *.
    apply lookup_insert_ne. lia. }
  assert (Hreg : Forall (fun e : string * Ref =>
                           (snd e < length (heap s5))%nat
                           ∧ is_Some (_scriptObjectIdMap s5 !! snd e))
                        (Object_entries globalCallbacksMap)).
  { rewrite Forall_forall in Hsame, Hc, Hexist |- *. intros e He. split.
    - subst s5. simpl. rewrite length_app. specialize (Hexist e He). simpl. lia.
    - rewrite (Hsame e He). apply Hc, He. }
  assert (Hid5 : jrpc_id s5 = 5%nat) by (subst s5; simpl; rewrite B; reflexivity).
  assert (Hsent5 : sent s5 = requests) by (subst s5; simpl; rewrite A; reflexivity).
  pose proof (register_conversation (length objects) o serializedTarget
                (VObject (length objects)) (Object_entries globalCallbacksMap) answers s5
                Hheap Hprop Hreg Hans ltac:(lia)) as Hloop.
  cbn zeta in Hloop. rewrite Hid5, Hsent5 in Hloop.
  rewrite (conversation_ext _ _ _ _ _ _ Hsame) in Hloop.
  destruct Hloop as (L1 & L2 & L3).
  split; [exact L1|]. split; [|split; [|split; [|split]]].
  - intros results ->. apply conversation_immediate.
  - intros Hcomplete. apply L2. lia.
  - intros Hpending. destruct L3 as (k & Hk & _); [lia|].
    exists k. rewrite Hk, Nat.add_comm. reflexivity.
  - apply Object_entries_no_index.
  - intros reply e Hreply Hpending w'.
    destruct L3 as (k & Hk & Herror & Hthrown); [lia|].
    assert (Hend : forall s', k reply s' = (shift s', Rejected e)).
    { intros s'. destruct (refusal_spec reply e Hreply)
        as [(error & -> & ->)|(response & -> & Hthrows)].
      - apply Herror.
      - apply Hthrown, Hthrows. }
    subst w'.
    match goal with |- context [perform _ ?w0] => set (w := w0) in * end.
    rewrite (world_eta w), Hk, (Nat.add_comm 5), receive_reply, Hend. cbn [fst snd tasks state].
    split; [reflexivity|]. split; [reflexivity|].
    intros id [result|error]; reflexivity.
Qed.

(** The callbacks "b" and "1", a peer that answers the registration of
    "1" with the handle 200 of an object with the property "x", and then
    the registration of "b" with null. *)
Lemma C9_witness :
  (callbacks_exist [returns_42; returns_42] [("b", 0%nat); ("1", 1%nat)] = true
   ∧ 123 ≠ API_VALUE_INVALID_SCRIPT_OBJECT
   ∧ NoDup ([] ++ ["registerCallback"])
   ∧ "registerCallback" ∈ ["registerCallback"]
   ∧ ("then" ∉ ([] ++ ["registerCallback"])%list)
   ∧ Forall decodable [Described 200 ["x"] []]
   ∧ (length [Described 200 ["x"] []] <= length [("b", 0%nat); ("1", 1%nat)])%nat)
  ∧ sent (state (run ([Initialize "valid token";
                       Receive (InResult 1 (WBool true));
                       Receive (InResult 2 (WScriptObject 123));
                       Receive (InResult 3 (WArray []));
                       Receive (InResult 4 (WArray ["registerCallback"]))]
                      ++ answers_from 5 [Described 200 ["x"] []])
                     (start [returns_42; returns_42] [("b", 0%nat); ("1", 1%nat)])))
    = [OutRequest 1 "authenticate" (Some [WStr "valid token"]);
       OutRequest 2 "getRootObject" None;
       OutRequest 3 "listProperties" (Some [WScriptObject 123]);
       OutRequest 4 "listMethods" (Some [WScriptObject 123]);
       OutRequest 5 "execute"
         (Some [WScriptObject 123; WStr "registerCallback"; WStr "1"; WScriptObject 1]);
       OutRequest 6 "listProperties" (Some [WScriptObject 200]);
       OutRequest 7 "listMethods" (Some [WScriptObject 200]);
       OutRequest 8 "execute"
         (Some [WScriptObject 123; WStr "registerCallback"; WStr "b"; WScriptObject 2])]
  ∧ tasks (run ([Initialize "valid token";
                 Receive (InResult 1 (WBool true));
                 Receive (InResult 2 (WScriptObject 123));
                 Receive (InResult 3 (WArray []));
                 Receive (InResult 4 (WArray ["registerCallback"]))]
                ++ answers_from 5 [Described 200 ["x"] []]
                ++ [Receive (InResult 8 WNull)])
               (start [returns_42; returns_42] [("b", 0%nat); ("1", 1%nat)]))
    = [Rejected (UnexpectedWire WNull)].
Proof.
  assert (H1 : callbacks_exist [returns_42; returns_42] [("b", 0%nat); ("1", 1%nat)] = true)
    by reflexivity.
  assert (H2 : 123 ≠ API_VALUE_INVALID_SCRIPT_OBJECT) by discriminate.
  assert (H3 : NoDup ([] ++ ["registerCallback"])) by (apply (bool_decide_unpack _); reflexivity).
  assert (H4 : "registerCallback" ∈ ["registerCallback"])
    by (apply (bool_decide_unpack _); reflexivity).
  assert (Hthen : "then" ∉ ([] ++ ["registerCallback"])%list)
    by (apply (bool_decide_unpack _); reflexivity).
  assert (H5 : Forall decodable [Described 200 ["x"] []]).
  { constructor; [|constructor]. split; [discriminate|].
    split; apply (bool_decide_unpack _); reflexivity. }
  assert (H6 : (length [Described 200 ["x"] []] <= length [("b", 0%nat); ("1", 1%nat)])%nat)
    by (simpl; lia).
  split; [repeat split; assumption|].
  destruct (C9_callbacks_are_registered_in_Object_entries_order
              [returns_42; returns_42] [("b", 0%nat); ("1", 1%nat)] "valid token"
              (WBool true) 123 [] ["registerCallback"] [Described 200 ["x"] []]
              H1 H2 H3 H4 Hthen H5 H6)
    as (H & _ & _ & _ & _ & Hrefused).
  split; [rewrite H; vm_compute; reflexivity|].
  destruct (Hrefused (Result WNull) (UnexpectedWire WNull) eq_refl ltac:(simpl; lia))
    as (Htasks & _).
  rewrite !app_assoc, run_app.
  change (run [?a] ?w) with (perform a w).
  exact Htasks.
Defined.

(* ===================================================================== *)
(** * Further properties of the manager *)
(* ===================================================================== *)

(** ** What [_findScriptObject] finds *)

Lemma find_in_list_find ids scriptObjectId l :
  find_in_list ids scriptObjectId l
  = List.find (fun r => bool_decide (ids !! r = Some scriptObjectId)) l.
Proof.
  induction l as [|x l IH]; simpl; [reflexivity|].
  destruct (ids !! x) as [h|] eqn:E.
  - destruct (Z.eqb_spec h scriptObjectId) as [->|Hne].
    + rewrite bool_decide_eq_true_2 by reflexivity. reflexivity.
    + rewrite bool_decide_eq_false_2 by congruence. exact IH.
  - rewrite bool_decide_eq_false_2 by discriminate. exact IH.
Qed.

Lemma find_app {A} (f : A -> bool) l1 l2 :
  List.find f (l1 ++ l2)
  = match List.find f l1 with Some x => Some x | None => List.find f l2 end.
Proof.
  induction l1 as [|x l1 IH]; simpl; [reflexivity|].
  destruct (f x); [reflexivity|exact IH].
Qed.

Lemma find_in_stack_find ids scriptObjectId stack :
  find_in_stack ids scriptObjectId stack
  = List.find (fun r => bool_decide (ids !! r = Some scriptObjectId)) (concat stack).
Proof.
  induction stack as [|l stack IH]; simpl; [reflexivity|].
  rewrite find_app, <- find_in_list_find, IH. reflexivity.
Qed.

Lemma findScriptObject_None_inv scriptObjectId st r :
  _findScriptObject scriptObjectId st = None ->
  in_frames st r -> _scriptObjectIdMap st !! r ≠ Some scriptObjectId.
Proof.
  unfold _findScriptObject. rewrite find_in_stack_find. intros Hnone Hin Hr.
  pose proof (find_none _ _ Hnone r (proj1 (list_elem_of_In _ _) Hin)) as Hf.
  simpl in Hf. rewrite bool_decide_eq_true_2 in Hf by exact Hr. discriminate.
Qed.

(** X1.  [_findScriptObject(scriptObjectId)] returns the first reference
    with that handle, going through the frames from the newest to the
    oldest and through each frame from its first argument on; what it
    returns is in a frame and has the handle, and it returns [undefined]
    exactly when no reference of any frame has the handle. *)
Theorem X1_findScriptObject_returns_the_first_match :
  forall (scriptObjectId : Z) (st : State),
    _findScriptObject scriptObjectId st
    = List.find (fun r => bool_decide (_scriptObjectIdMap st !! r = Some scriptObjectId))
                (concat (_scriptObjectListStack st))
    ∧ (forall r, _findScriptObject scriptObjectId st = Some r ->
         in_frames st r ∧ _scriptObjectIdMap st !! r = Some scriptObjectId)
    ∧ (_findScriptObject scriptObjectId st = None
       <-> forall r, in_frames st r -> _scriptObjectIdMap st !! r ≠ Some scriptObjectId).
Proof.
  intros scriptObjectId st. split; [apply find_in_stack_find|]. split.
  - intros r. apply findScriptObject_Some.
  - split; [|apply findScriptObject_None].
    intros Hnone r. apply findScriptObject_None_inv, Hnone.
Qed.

(** ** The handles the constructor draws *)

(** Handles drawn for references not seen before, each listed once: they
    are the next handles, in the order of the list. *)
Lemma assign_each_fresh objects : forall s,
  NoDup objects ->
  (forall r, r ∈ objects -> _scriptObjectIdMap s !! r = None) ->
  _lastScriptObjectId (assign_each objects s)
  = _lastScriptObjectId s + Z.of_nat (length objects)
  ∧ (forall (i : nat) r, objects !! i = Some r ->
       _scriptObjectIdMap (assign_each objects s) !! r
       = Some (_lastScriptObjectId s + Z.of_nat i + 1))
  ∧ (forall r, r ∉ objects ->
       _scriptObjectIdMap (assign_each objects s) !! r = _scriptObjectIdMap s !! r).
Proof.
  induction objects as [|x objects IH]; intros s Hnd Hnew.
  - simpl. split; [lia|]. split; [intros i r H; rewrite lookup_nil in H; discriminate|].
    reflexivity.
  - apply NoDup_cons in Hnd as [Hx Hnd]. rewrite assign_each_cons.
    assert (Ex : _scriptObjectIdMap s !! x = None) by (apply Hnew; left).
    rewrite (assign_unseen x s Ex).
    set (s1 := set_scriptObjectIdMap _ _).
    destruct (IH s1 Hnd) as (A & B & C).
    { intros r Hr. subst s1. simpl. rewrite lookup_insert_ne.
      - apply Hnew. right. exact Hr.
      - intros ->. contradiction. }
    split; [|split].
    + rewrite A. subst s1. simpl length. simpl _lastScriptObjectId. lia.
    + intros [|i] r Hr; simpl in Hr.
      * injection Hr as <-. rewrite (C x Hx). subst s1. simpl.
        rewrite lookup_insert_eq. f_equal. lia.
      * rewrite (B i r Hr). subst s1. simpl. f_equal. lia.
    + intros r Hr. apply not_elem_of_cons in Hr as [Hne Hr].
      rewrite (C r Hr). subst s1. simpl. apply lookup_insert_ne. congruence.
Qed.

(** X2.  [new RPCManager(globalCallbacksMap)], for callbacks that are
    different functions: the functions get the handles 1, 2, ... in the
    order of [Object.values] over the map, the counter ends at their
    number, nothing else is registered, the frame stack is the one frame of
    these functions, and each of them is what [_findScriptObject] returns
    for its handle. *)
Theorem X2_constructor_numbers_the_global_callbacks :
  forall (objects : list HeapObject) (globalCallbacksMap : JSRecord),
    NoDup (Object_values globalCallbacksMap) ->
    let st := constructor objects globalCallbacksMap in
    _lastScriptObjectId st = Z.of_nat (length globalCallbacksMap)
    ∧ (forall (i : nat) fn, Object_values globalCallbacksMap !! i = Some fn ->
         _scriptObjectIdMap st !! fn = Some (Z.of_nat i + 1)
         ∧ _findScriptObject (Z.of_nat i + 1) st = Some fn)
    ∧ (forall r, is_Some (_scriptObjectIdMap st !! r) <-> r ∈ Object_values globalCallbacksMap)
    ∧ _scriptObjectListStack st = [Object_values globalCallbacksMap].
Proof.
  intros objects globalCallbacksMap Hnd st.
  set (fns := Object_values globalCallbacksMap) in *.
  set (s0 := mkState API_VALUE_INVALID_SCRIPT_OBJECT ∅ [] [] 1%nat [] objects []).
  destruct (assign_each_fresh fns s0 Hnd) as (A & B & C).
  { intros r _. apply lookup_empty. }
  assert (Hmap : _scriptObjectIdMap st = _scriptObjectIdMap (assign_each fns s0)) by reflexivity.
  assert (Hcount : _lastScriptObjectId st = _lastScriptObjectId (assign_each fns s0))
    by reflexivity.
  assert (Hstack : _scriptObjectListStack st = [fns]) by reflexivity.
  assert (Hlen : length fns = length globalCallbacksMap).
  { subst fns. unfold Object_values. rewrite length_map.
    apply Permutation_length, Object_entries_perm. }
  assert (Hhandle : forall (i : nat) fn, fns !! i = Some fn ->
            _scriptObjectIdMap st !! fn = Some (Z.of_nat i + 1)).
  { intros i fn Hi. rewrite Hmap, (B i fn Hi). reflexivity. }
  split; [rewrite Hcount, A, Hlen; reflexivity|].
  split; [|split; [|exact Hstack]].
  - intros i fn Hi. split; [apply Hhandle, Hi|].
    destruct (_findScriptObject (Z.of_nat i + 1) st) as [r|] eqn:E.
    + apply findScriptObject_Some in E as [Hin Hr].
      unfold in_frames in Hin. rewrite Hstack in Hin. simpl in Hin.
      rewrite app_nil_r in Hin.
      apply list_elem_of_lookup in Hin as [j Hj].
      rewrite (Hhandle j r Hj) in Hr. injection Hr as Hr.
      assert (j = i) by lia. subst j. congruence.
    + exfalso.
      assert (Hin : in_frames st fn).
      { unfold in_frames. rewrite Hstack. simpl. rewrite app_nil_r.
        apply list_elem_of_lookup. eauto. }
      exact (findScriptObject_None_inv _ st fn E Hin (Hhandle i fn Hi)).
  - intros r. rewrite Hmap. split.
    + intros Hr. destruct (decide (r ∈ fns)) as [Hin|Hout]; [exact Hin|].
      rewrite (C r Hout) in Hr. simpl in Hr. rewrite lookup_empty in Hr.
      destruct Hr; discriminate.
    + intros Hin. apply list_elem_of_lookup in Hin as [i Hi].
      rewrite (B i r Hi). eauto.
Qed.

Lemma X2_witness :
  NoDup (Object_values [("b", 0%nat); ("1", 1%nat)])
  ∧ _lastScriptObjectId (constructor [returns_42; returns_42] [("b", 0%nat); ("1", 1%nat)]) = 2.
Proof.
  assert (H : NoDup (Object_values [("b", 0%nat); ("1", 1%nat)]))
    by (apply (bool_decide_unpack _); vm_compute; exact I).
  split; [exact H|].
  apply (X2_constructor_numbers_the_global_callbacks
           [returns_42; returns_42] [("b", 0%nat); ("1", 1%nat)] H).
Defined.

(** ** No frame is left behind *)




(** ** Every proxy is a new object *)

(** X5.  [_describeScriptObject] never returns an object that exists
    already: the proxy it resolves with is a new object.  So when the same
    handle is materialised a second time, at any later moment, the second
    proxy is another object than the first, and both are registered under
    the handle and serialize to it. *)
Theorem X5_every_materialisation_is_a_new_object :
  forall (scriptObject : Z) (properties methods properties' methods' : SerializedValue)
         (st s1 s2 s' st' s1' s2' s'' : State) (proxy proxy' : Ref),
    describe_with scriptObject properties methods st s1 s2 = (s', Resolved (VObject proxy)) ->
    extends s' s2' ->
    describe_with scriptObject properties' methods' st' s1' s2'
    = (s'', Resolved (VObject proxy')) ->
    heap s2 !! proxy = None
    ∧ is_proxy s' proxy = true
    ∧ heap s2' !! proxy' = None
    ∧ proxy' ≠ proxy
    ∧ _serialize (VObject proxy) s'' = inr (WScriptObject scriptObject)
    ∧ _serialize (VObject proxy') s'' = inr (WScriptObject scriptObject).
Proof.
  intros scriptObject properties methods properties' methods'
         st s1 s2 s' st' s1' s2' s'' proxy proxy' H Hext H'.
  rewrite describe_with_build in H, H'.
  apply build_proxy_resolved in H as (o & _ & -> & ->).
  apply build_proxy_resolved in H' as (o' & _ & -> & ->).
  pose proof (extends_heap_length _ _ Hext) as Hlen. simpl in Hlen.
  rewrite length_app in Hlen. simpl in Hlen.
  split; [apply lookup_ge_None_2; lia|].
  split; [unfold is_proxy; simpl; rewrite list_lookup_middle by reflexivity; reflexivity|].
  split; [apply lookup_ge_None_2; lia|].
  split; [lia|].
  split; apply serialize_registered; simpl.
  - rewrite lookup_insert_ne by lia.
    apply (extends_lookup _ _ _ _ Hext). simpl. apply lookup_insert_eq.
  - apply lookup_insert_eq.
Qed.

Lemma X5_witness :
  let s := constructor [] [] in
  let s' := fst (describe_with 123 (WArray ["x"]) (WArray []) s s s) in
  let s'' := fst (describe_with 123 (WArray ["x"]) (WArray []) s' s' s') in
  describe_with 123 (WArray ["x"]) (WArray []) s s s = (s', Resolved (VObject 0%nat))
  ∧ extends s' s'
  ∧ describe_with 123 (WArray ["x"]) (WArray []) s' s' s' = (s'', Resolved (VObject 1%nat))
  ∧ _serialize (VObject 0%nat) s'' = inr (WScriptObject 123)
  ∧ _serialize (VObject 1%nat) s'' = inr (WScriptObject 123).
Proof.
  intros s s' s''.
  assert (H1 : describe_with 123 (WArray ["x"]) (WArray []) s s s
               = (s', Resolved (VObject 0%nat))) by (vm_compute; reflexivity).
  assert (H2 : extends s' s') by reflexivity.
  assert (H3 : describe_with 123 (WArray ["x"]) (WArray []) s' s' s'
               = (s'', Resolved (VObject 1%nat))) by (vm_compute; reflexivity).
  split; [exact H1|]. split; [exact H2|]. split; [exact H3|].
  destruct (X5_every_materialisation_is_a_new_object
              123 (WArray ["x"]) (WArray []) (WArray ["x"]) (WArray [])
              s s s s' s' s' s' s'' 0%nat 1%nat H1 H2 H3) as (_ & _ & _ & _ & A & B).
  split; [exact A|exact B].
Defined.

(** ** How a materialisation ends *)

Lemma define_each_TypeError (descriptor : string -> PropertyDescriptor) names : forall o e o',
  define_each o names descriptor = inl (e, o') -> exists message, e = TypeError message.
Proof.
  induction names as [|n names IH]; intros o e o'; simpl; [discriminate|].
  unfold Object_defineProperty.
  destruct (getOwnProperty (properties o) n) as [current|].
  - destruct (configurable current); [apply IH|]. intros [= <- _]. eauto.
  - destruct (extensible o); [apply IH|]. intros [= <- _]. eauto.
Qed.

Lemma build_object_iterate serializedTarget properties methods P M :
  iterate properties = Some P -> iterate methods = Some M ->
  build_object serializedTarget properties methods
  = build_object serializedTarget (WArray P) (WArray M).
Proof. intros HP HM. unfold build_object. rewrite HP, HM. reflexivity. Qed.

Lemma build_object_TypeError serializedTarget properties methods e o :
  build_object serializedTarget properties methods = inl (e, o) ->
  exists message, e = TypeError message.
Proof.
  unfold build_object.
  destruct (iterate properties) as [P|]; [|intros [= <- _]; eauto].
  destruct (define_each empty_object P _) as [[e1 o1]|o1] eqn:E1.
  - intros [= <- _]. eapply define_each_TypeError, E1.
  - destruct (iterate methods) as [M|]; [|intros [= <- _]; eauto].
    destruct (define_each o1 M _) as [[e2 o2]|o2] eqn:E2; [|discriminate].
    intros [= <- _]. eapply define_each_TypeError, E2.
Qed.

(** X6.  How [_describeScriptObject] ends.  An error reply to
    "listProperties" rejects it at once and "listMethods" is never asked;
    an error reply to "listMethods" rejects it as well.  With both replies
    there: when one of them cannot be iterated, or a name occurs twice
    among the properties and methods together, it is rejected with a
    [TypeError]; when both can be iterated, no name occurs twice and none
    is "then", it resolves with the proxy, which is a new object.  In
    both cases nothing is sent after the two requests. *)
Theorem X6_describe_resolves_or_fails :
  forall (scriptObject : Z) (st : State),
    (forall error s,
       deliver (jrpc_id st) (ErrorReply error) (snd (_describeScriptObject scriptObject st)) s
       = (s, Rejected (RemoteError error)))
    ∧ (forall properties error s1 s2,
         deliver (jrpc_id s1) (ErrorReply error)
                 (snd (deliver (jrpc_id st) (Result properties)
                               (snd (_describeScriptObject scriptObject st)) s1)) s2
         = (s2, Rejected (RemoteError error)))
    ∧ (forall properties methods s1 s2,
         let now := describe_with scriptObject properties methods st s1 s2 in
         ((~ exists P M, iterate properties = Some P ∧ iterate methods = Some M
                         ∧ NoDup (P ++ M)) ->
          sent (fst now) = sent s2
          ∧ exists message, snd now = Rejected (TypeError message))
         ∧ (forall P M,
              iterate properties = Some P -> iterate methods = Some M ->
              NoDup (P ++ M) -> "then" ∉ (P ++ M)%list ->
              sent (fst now) = sent s2
              ∧ snd now = Resolved (VObject (length (heap s2)))
              ∧ heap s2 !! length (heap s2) = None
              ∧ is_proxy (fst now) (length (heap s2)) = true)).
Proof.
  intros scriptObject st. split; [|split].
  - intros error s. simpl. rewrite Nat.eqb_refl. reflexivity.
  - intros properties error s1 s2. simpl. rewrite Nat.eqb_refl. simpl.
    rewrite Nat.eqb_refl. reflexivity.
  - intros properties methods s1 s2 now. subst now. rewrite describe_with_build.
    unfold build_proxy.
    destruct (build_object (WScriptObject scriptObject) properties methods)
      as [[e o]|o] eqn:E; simpl.
    + split.
      * intros _. split; [reflexivity|].
        destruct (build_object_TypeError _ _ _ _ _ E) as [message ->]. eauto.
      * intros P M HP HM Hnd _. exfalso.
        rewrite (build_object_iterate _ _ _ P M HP HM) in E.
        pose proof (build_object_spec (WScriptObject scriptObject) P M) as Hspec.
        rewrite E in Hspec. contradiction.
    + split.
      * intros Hno. exfalso. apply Hno. unfold build_object in E.
        destruct (iterate properties) as [P|] eqn:HP; [|discriminate].
        destruct (iterate methods) as [M|] eqn:HM;
          [|destruct (define_each empty_object P _) as [[? ?]|?]; discriminate].
        exists P, M. split; [reflexivity|]. split; [reflexivity|].
        pose proof (build_object_spec (WScriptObject scriptObject) P M) as Hspec.
        unfold build_object in Hspec. cbn [iterate] in Hspec.
        destruct (define_each empty_object P _) as [[? ?]|o1]; [discriminate|].
        destruct (define_each o1 M _) as [[? ?]|o2]; [discriminate|].
        apply Hspec.
      * intros P M _ _ _ _. split; [reflexivity|]. split; [reflexivity|].
        split; [apply lookup_ge_None_2; lia|].
        unfold is_proxy. simpl. rewrite list_lookup_middle by reflexivity. reflexivity.
Qed.

(** ** The arguments of a callback *)

Lemma deserialize_start w s :
  fst (_deserialize w s) = after_requests (describe_requests (jrpc_id s) [w]) s
  ∧ (if decodes_at_once w
     then snd (_deserialize w s) = Resolved (decoded_at_once w)
     else all_resolved [snd (_deserialize w s)] = None).
Proof.
  destruct w as [b|n|str| |h| |items]; unfold _deserialize; simpl;
    try (split; [symmetry; apply after_requests_nil|reflexivity]).
  destruct (Z.eqb h API_VALUE_INVALID_SCRIPT_OBJECT); simpl.
  - split; [symmetry; apply after_requests_nil|reflexivity].
  - split; reflexivity.
Qed.

Lemma describe_requests_cons id w ws :
  describe_requests id (w :: ws)
  = (describe_requests id [w]
     ++ describe_requests (length (describe_requests id [w]) + id) ws)%list.
Proof.
  destruct w as [b|n|str| |h| |items]; simpl; try reflexivity.
  destruct (Z.eqb h API_VALUE_INVALID_SCRIPT_OBJECT); reflexivity.
Qed.

Lemma all_resolved_cons_None t ts :
  all_resolved [t] = None -> all_resolved (t :: ts) = None.
Proof. destruct t; simpl; try reflexivity. discriminate. Qed.

Lemma start_all_deserialize ws : forall s,
  fst (start_all (map _deserialize ws) s)
  = after_requests (describe_requests (jrpc_id s) ws) s
  ∧ (forallb decodes_at_once ws = false ->
     all_resolved (snd (start_all (map _deserialize ws) s)) = None).
Proof.
  induction ws as [|w ws IH]; intros s.
  - simpl. split; [symmetry; apply after_requests_nil|discriminate].
  - simpl map. simpl start_all.
    destruct (deserialize_start w s) as [Hs Ht].
    destruct (_deserialize w s) as [s1 t] eqn:E. simpl in Hs, Ht.
    destruct (IH s1) as [IHs IHt].
    destruct (start_all (map _deserialize ws) s1) as [s2 ts] eqn:E2. simpl in IHs, IHt.
    simpl fst. simpl snd. split.
    + rewrite IHs, Hs, after_requests_app, describe_requests_cons. reflexivity.
    + simpl forallb. destruct (decodes_at_once w).
      * simpl. intros H. rewrite Ht. simpl. rewrite (IHt H). reflexivity.
      * intros _. apply all_resolved_cons_None, Ht.
Qed.

(** X7.  A callback for a handle that resolves to a function, with any
    arguments: every argument that is a handle (other than the invalid
    one) is materialised, and the "listProperties" requests for all of
    them are sent at once, in the order of the arguments, before any reply
    is awaited.  Unless every argument decodes on the spot, that is all
    that happens at first: the function is not applied and the manager is
    otherwise as it was. *)
Theorem X7_callback_arguments_are_decoded_together :
  forall (functionId : Z) (args : list SerializedValue) (st : State) (fn : Ref)
         (body : list SerializableValue -> Outcome),
    _findScriptObject functionId st = Some fn ->
    as_function fn st = Some body ->
    let now := _handleAPICallback functionId args st in
    sent (fst now) = (sent st ++ describe_requests (jrpc_id st) args)%list
    ∧ (forallb decodes_at_once args = false ->
         fst now = after_requests (describe_requests (jrpc_id st) args) st).
Proof.
  intros functionId args st fn body Hfind Hfn now. subst now.
  unfold _handleAPICallback. rewrite Hfind, Hfn. unfold Promise_all.
  destruct (start_all_deserialize args st) as [Hs Ht].
  destruct (start_all (map _deserialize args) st) as [s1 ts]. simpl in Hs, Ht. subst s1.
  set (s1 := after_requests (describe_requests (jrpc_id st) args) st).
  unfold join. destruct (first_rejection ts) as [e|] eqn:Er.
  - unfold throw. simpl. split; [reflexivity|]. intros _. reflexivity.
  - destruct (all_resolved ts) as [vs|] eqn:Ea.
    + split.
      * unfold apply_function. destruct (body vs); reflexivity.
      * intros H. specialize (Ht H). congruence.
    + split; [reflexivity|]. intros _. reflexivity.
Qed.

Lemma X7_witness :
  (_findScriptObject 1 callback_session = Some 0%nat
   ∧ as_function 0%nat callback_session = Some (fun _ => Returns (VNum 42)))
  ∧ sent (fst (_handleAPICallback 1 [WScriptObject 5; WNum 1; WScriptObject 7] callback_session))
    = [OutRequest 1 "listProperties" (Some [WScriptObject 5]);
       OutRequest 2 "listProperties" (Some [WScriptObject 7])]
  ∧ applied (fst (_handleAPICallback 1 [WScriptObject 5; WNum 1; WScriptObject 7]
                                     callback_session)) = [].
Proof.
  assert (H1 : _findScriptObject 1 callback_session = Some 0%nat) by (vm_compute; reflexivity).
  assert (H2 : as_function 0%nat callback_session = Some (fun _ => Returns (VNum 42)))
    by (vm_compute; reflexivity).
  split; [split; [exact H1|exact H2]|].
  destruct (X7_callback_arguments_are_decoded_together
              1 [WScriptObject 5; WNum 1; WScriptObject 7] callback_session 0%nat _ H1 H2)
    as [A B].
  split; [rewrite A; reflexivity|]. rewrite B; reflexivity.
Defined.

(** ** A registration that the peer refuses *)

(** Where [initialize] stands when the root proxy has been built and the
    loop over the callbacks begins. *)
Lemma initialize_at_the_loop objects globalCallbacksMap token auth scriptObject P M :
  callbacks_exist objects globalCallbacksMap = true ->
  scriptObject ≠ API_VALUE_INVALID_SCRIPT_OBJECT ->
  NoDup (P ++ M) ->
  "registerCallback" ∈ M ->
  exists s5 o,
    run [Initialize token;
         Receive (InResult 1 auth);
         Receive (InResult 2 (WScriptObject scriptObject));
         Receive (InResult 3 (WArray P));
         Receive (InResult 4 (WArray M))]
        (start objects globalCallbacksMap)
    = mkWorld
        (fst (bind (register_each (VObject (length objects)) (Object_entries globalCallbacksMap))
                   (fun _ => ret (VObject (length objects))) s5))
        [snd (bind (register_each (VObject (length objects)) (Object_entries globalCallbacksMap))
                   (fun _ => ret (VObject (length objects))) s5)]
    ∧ heap s5 !! length objects = Some (HProxy o)
    ∧ getOwnProperty (properties o) "registerCallback"
      = Some (DataProperty (Method (WScriptObject scriptObject) "registerCallback")
                           false true false)
    ∧ Forall (fun e : string * Ref =>
                is_Some (_scriptObjectIdMap s5 !! snd e)
                ∧ _scriptObjectIdMap s5 !! snd e
                  = _scriptObjectIdMap (constructor objects globalCallbacksMap) !! snd e)
             (Object_entries globalCallbacksMap)
    ∧ jrpc_id s5 = 5%nat
    ∧ sent s5 = [OutRequest 1 "authenticate" (Some [WStr token]);
                 OutRequest 2 "getRootObject" None;
                 OutRequest 3 "listProperties" (Some [WScriptObject scriptObject]);
                 OutRequest 4 "listMethods" (Some [WScriptObject scriptObject])]
    ∧ _scriptObjectListStack s5 = [Object_values globalCallbacksMap]
    ∧ applied s5 = [].
Proof.
  intros Hgcm Hid Hnd HM.
  rewrite initialize_reaches_loop by assumption.
  set (st := constructor objects globalCallbacksMap).
  set (serializedTarget := WScriptObject scriptObject).
  set (o := {| properties :=
                 map (fun n => (n, property_descriptor serializedTarget n)) P
                 ++ map (fun n => (n, method_descriptor serializedTarget n)) M;
               extensible := false |}).
  set (requests := [OutRequest 1 "authenticate" (Some [WStr token]);
                    OutRequest 2 "getRootObject" None;
                    OutRequest 3 "listProperties" (Some [serializedTarget]);
                    OutRequest 4 "listMethods" (Some [serializedTarget])]).
  set (s5 := set_scriptObjectIdMap
               (<[length objects := scriptObject]> (_scriptObjectIdMap st))
               (set_heap (objects ++ [HProxy o]) (after_requests requests st))).
  destruct (constructor_fields objects globalCallbacksMap) as (A & B & C & D & F & G).
  pose proof (constructor_registers objects globalCallbacksMap) as Hc.
  fold st in A, B, C, D, F, G, Hc. clearbody st.
  exists s5, o. split; [reflexivity|].
  assert (Hexist : Forall (fun e : string * Ref => (snd e < length objects)%nat)
                          (Object_entries globalCallbacksMap)).
  { apply Object_entries_exist. unfold callbacks_exist in Hgcm.
    rewrite forallb_forall in Hgcm. apply Forall_forall. intros e He.
    apply Nat.ltb_lt, Hgcm, list_elem_of_In, He. }
  split; [subst s5; simpl; apply list_lookup_middle; reflexivity|].
  split.
  { subst o. simpl. rewrite getOwnProperty_app, !getOwnProperty_named.
    apply NoDup_app in Hnd as (_ & Hdisj & _).
    rewrite decide_False by (intros HP; exact (Hdisj _ HP HM)).
    rewrite decide_True by exact HM. reflexivity. }
  split.
  { rewrite Forall_forall in Hexist, Hc |- *. intros e He.
    assert (Hsame : _scriptObjectIdMap s5 !! snd e = _scriptObjectIdMap st !! snd e).
    { subst s5. simpl. apply lookup_insert_ne. specialize (Hexist e He). lia. }
    split; [rewrite Hsame; apply Hc, He|exact Hsame]. }
  split; [subst s5; simpl; rewrite B; reflexivity|].
  split; [subst s5; simpl; rewrite A; reflexivity|].
  split; [subst s5; simpl; exact F|].
  subst s5. simpl. exact D.
Qed.

(** X8.  [initialize] with a root proxy that has a method
    "registerCallback" and no member named "then", against a peer that
    answers the first registrations with results that carry no object (a
    plain value, the empty marker or the invalid handle) and then answers
    one with an error: the promise of [initialize] is rejected with that
    error, the callbacks after the refused one are never registered, the
    frame of the refused call has been shifted so that the frame stack is
    the frame of the global callbacks again, no callback has been applied,
    and replies that arrive later change nothing. *)
Theorem X8_initialize_stops_at_a_refused_registration :
  forall (objects : list HeapObject) (globalCallbacksMap : JSRecord) (token : string)
         (auth : SerializedValue) (scriptObject : Z) (P M : list string)
         (results : list SerializedValue) (error : SerializedValue),
    callbacks_exist objects globalCallbacksMap = true ->
    scriptObject ≠ API_VALUE_INVALID_SCRIPT_OBJECT ->
    NoDup (P ++ M) ->
    "registerCallback" ∈ M ->
    "then" ∉ (P ++ M)%list ->
    Forall (fun w => decodes_at_once w = true) results ->
    (length results < length globalCallbacksMap)%nat ->
    let w := run ([Initialize token;
                   Receive (InResult 1 auth);
                   Receive (InResult 2 (WScriptObject scriptObject));
                   Receive (InResult 3 (WArray P));
                   Receive (InResult 4 (WArray M))]
                  ++ results_from 5 results
                  ++ [Receive (InError (length results + 5) error)])
                 (start objects globalCallbacksMap) in
    tasks w = [Rejected (RemoteError error)]
    ∧ sent (state w)
      = ([OutRequest 1 "authenticate" (Some [WStr token]);
          OutRequest 2 "getRootObject" None;
          OutRequest 3 "listProperties" (Some [WScriptObject scriptObject]);
          OutRequest 4 "listMethods" (Some [WScriptObject scriptObject])]
         ++ registrations (WScriptObject scriptObject)
                          (_scriptObjectIdMap (constructor objects globalCallbacksMap)) 5
                          (take (S (length results)) (Object_entries globalCallbacksMap)))%list
    ∧ _scriptObjectListStack (state w) = [Object_values globalCallbacksMap]
    ∧ applied (state w) = []
    ∧ (forall message, perform (Receive message) w = w
                       ∨ exists id functionId serializedArgs,
                           message = InCallback id functionId serializedArgs).
Proof.
  intros objects globalCallbacksMap token auth scriptObject P M results error
         Hgcm Hid Hnd HM _ Hres Hlen w.
  destruct (initialize_at_the_loop objects globalCallbacksMap token auth scriptObject P M
              Hgcm Hid Hnd HM)
    as (s5 & o & Hrun & Hheap & Hprop & Hreg & Hid5 & Hsent5 & Hstack5 & Happlied5).
  assert (Hentries : length (Object_entries globalCallbacksMap) = length globalCallbacksMap)
    by (apply Permutation_length, Object_entries_perm).
  assert (Hreg1 : Forall (fun e : string * Ref => is_Some (_scriptObjectIdMap s5 !! snd e))
                         (Object_entries globalCallbacksMap)).
  { eapply Forall_impl; [exact Hreg|]. intros e [H _]. exact H. }
  assert (Hsame : Forall (fun e : string * Ref =>
                            _scriptObjectIdMap s5 !! snd e
                            = _scriptObjectIdMap (constructor objects globalCallbacksMap)
                              !! snd e)
                         (Object_entries globalCallbacksMap)).
  { eapply Forall_impl; [exact Hreg|]. intros e [_ H]. exact H. }
  pose proof (register_loop_refused (length objects) o (WScriptObject scriptObject)
                (VObject (length objects)) (ErrorReply error) (RemoteError error)
                (Object_entries globalCallbacksMap)
                results s5 Hheap Hprop Hreg1 Hres eq_refl ltac:(lia)) as Hloop.
  cbn zeta in Hloop. rewrite Hid5 in Hloop.
  change (inbound_reply ?id (ErrorReply ?e)) with (InError id e) in Hloop.
  assert (Hw : w = mkWorld
                 (after_requests
                    (registrations (WScriptObject scriptObject) (_scriptObjectIdMap s5) 5
                       (take (S (length results)) (Object_entries globalCallbacksMap))) s5)
                 [Rejected (RemoteError error)]).
  { subst w. rewrite run_app, Hrun. exact Hloop. }
  rewrite Hw. cbn [tasks state].
  split; [reflexivity|]. split; [|split; [|split]].
  - cbn [sent after_requests]. rewrite Hsent5.
    rewrite (registrations_ext _ _ _ _ 5%nat (Forall_take _ _ _ Hsame)). reflexivity.
  - simpl. exact Hstack5.
  - simpl. exact Happlied5.
  - intros [id result|id error'|id functionId serializedArgs].
    + left. reflexivity.
    + left. reflexivity.
    + right. eauto.
Qed.

Lemma X8_witness :
  (callbacks_exist [returns_42; returns_42] [("b", 0%nat); ("1", 1%nat)] = true
   ∧ 123 ≠ API_VALUE_INVALID_SCRIPT_OBJECT
   ∧ NoDup ([] ++ ["registerCallback"])
   ∧ "registerCallback" ∈ ["registerCallback"]
   ∧ ("then" ∉ ([] ++ ["registerCallback"])%list)
   ∧ Forall (fun w => decodes_at_once w = true) []
   ∧ (length (@nil SerializedValue) < length [("b", 0%nat); ("1", 1%nat)])%nat)
  ∧ sent (state (run ([Initialize "valid token";
                       Receive (InResult 1 (WBool true));
                       Receive (InResult 2 (WScriptObject 123));
                       Receive (InResult 3 (WArray []));
                       Receive (InResult 4 (WArray ["registerCallback"]))]
                      ++ results_from 5 []
                      ++ [Receive (InError (length (@nil SerializedValue) + 5) (WStr "refused"))])
                     (start [returns_42; returns_42] [("b", 0%nat); ("1", 1%nat)])))
    = [OutRequest 1 "authenticate" (Some [WStr "valid token"]);
       OutRequest 2 "getRootObject" None;
       OutRequest 3 "listProperties" (Some [WScriptObject 123]);
       OutRequest 4 "listMethods" (Some [WScriptObject 123]);
       OutRequest 5 "execute"
         (Some [WScriptObject 123; WStr "registerCallback"; WStr "1"; WScriptObject 1])].
Proof.
  assert (H1 : callbacks_exist [returns_42; returns_42] [("b", 0%nat); ("1", 1%nat)] = true)
    by reflexivity.
  assert (H2 : 123 ≠ API_VALUE_INVALID_SCRIPT_OBJECT) by discriminate.
  assert (H3 : NoDup ([] ++ ["registerCallback"])) by (apply (bool_decide_unpack _); reflexivity).
  assert (H4 : "registerCallback" ∈ ["registerCallback"])
    by (apply (bool_decide_unpack _); reflexivity).
  assert (Hthen : "then" ∉ ([] ++ ["registerCallback"])%list)
    by (apply (bool_decide_unpack _); reflexivity).
  assert (H5 : Forall (fun w => decodes_at_once w = true) []) by constructor.
  assert (H6 : (length (@nil SerializedValue) < length [("b", 0%nat); ("1", 1%nat)])%nat)
    by (simpl; lia).
  split; [repeat split; assumption|].
  destruct (X8_initialize_stops_at_a_refused_registration
              [returns_42; returns_42] [("b", 0%nat); ("1", 1%nat)] "valid token"
              (WBool true) 123 [] ["registerCallback"] [] (WStr "refused")
              H1 H2 H3 H4 Hthen H5 H6)
    as (_ & H & _).
  rewrite H. vm_compute. reflexivity.
Defined.

(** ** A root that is no object *)

Lemma initialize_chain_at_once token s :
  exists k1,
    initialize token s
    = (sendMessage (OutRequest (jrpc_id s) "authenticate" (Some [WStr token])) (next_jrpc_id s),
       Pending (jrpc_id s) k1)
    ∧ forall auth s1, exists k2,
        k1 (Result auth) s1
        = (sendMessage (OutRequest (jrpc_id s1) "getRootObject" None) (next_jrpc_id s1),
           Pending (jrpc_id s1) k2)
        ∧ forall root s2,
            decodes_at_once root = true ->
            k2 (Result root) s2
            = bind (register_each (decoded_at_once root)
                                  (Object_entries (_globalCallbacksMap s2)))
                   (fun _ => ret (decoded_at_once root)) s2.
Proof.
  unfold initialize. unfold jrpc_call at 1.
  eexists. split; [reflexivity|]. intros auth s1. cbn beta iota.
  unfold jrpc_call at 1.
  eexists. split; [reflexivity|]. intros root s2 Hroot. cbn beta iota.
  unfold bind at 1. rewrite (deserialize_at_once root s2 Hroot). reflexivity.
Qed.

Lemma register_each_no_object apiRootObject name fn rest s :
  (forall r, apiRootObject ≠ VObject r) ->
  exists message,
    register_each apiRootObject ((name, fn) :: rest) s = (s, Rejected (TypeError message)).
Proof.
  intros Hno.
  destruct apiRootObject; try (exfalso; eapply Hno; reflexivity);
    simpl; unfold bind; simpl; eauto.
Qed.

Lemma decoded_at_once_no_object w :
  decodes_at_once w = true -> forall r, decoded_at_once w ≠ VObject r.
Proof. destruct w; try discriminate; intros _ r; discriminate. Qed.

(** X9.  [initialize] when the reply to "getRootObject" is not a handle of
    an object (a boolean, a number, a string, the empty marker or the
    invalid handle): no describe call is made.  With no global callback
    configured, [initialize] resolves with the decoded value; with at
    least one, the first [apiRootObject.registerCallback(...)] throws a
    [TypeError], [initialize] is rejected with it, and no registration is
    sent. *)
Theorem X9_initialize_with_a_root_that_is_no_object :
  forall (objects : list HeapObject) (globalCallbacksMap : JSRecord) (token : string)
         (auth root : SerializedValue),
    decodes_at_once root = true ->
    let w := run [Initialize token; Receive (InResult 1 auth); Receive (InResult 2 root)]
                 (start objects globalCallbacksMap) in
    sent (state w) = [OutRequest 1 "authenticate" (Some [WStr token]);
                      OutRequest 2 "getRootObject" None]
    ∧ (globalCallbacksMap = [] -> tasks w = [Resolved (decoded_at_once root)])
    ∧ (globalCallbacksMap ≠ [] -> exists message, tasks w = [Rejected (TypeError message)])
    ∧ _scriptObjectListStack (state w) = [Object_values globalCallbacksMap]
    ∧ applied (state w) = [].
Proof.
  intros objects globalCallbacksMap token auth root Hroot w.
  destruct (constructor_fields objects globalCallbacksMap) as (A & B & C & D & F & G).
  assert (Hw : exists s3,
             w = mkWorld (fst (bind (register_each (decoded_at_once root)
                                       (Object_entries globalCallbacksMap))
                                    (fun _ => ret (decoded_at_once root)) s3))
                         [snd (bind (register_each (decoded_at_once root)
                                       (Object_entries globalCallbacksMap))
                                    (fun _ => ret (decoded_at_once root)) s3)]
             ∧ sent s3 = [OutRequest 1 "authenticate" (Some [WStr token]);
                          OutRequest 2 "getRootObject" None]
             ∧ _scriptObjectListStack s3 = [Object_values globalCallbacksMap]
             ∧ applied s3 = []).
  { subst w. unfold start.
    set (st := constructor objects globalCallbacksMap) in *. clearbody st.
    destruct (initialize_chain_at_once token st) as (k1 & H0 & H1).
    change (run (?a :: ?l) ?w) with (run l (perform a w)).
    change (perform (Initialize token) ?w) with (spawn (initialize token) w).
    rewrite spawn_first, H0, B. cbn [fst snd].
    edestruct H1 as (k2 & H1' & H2). clear H1.
    change (run (?a :: ?l) ?w) with (run l (perform a w)).
    rewrite receive_single, H1'. cbn [fst snd jrpc_id sendMessage next_jrpc_id]. rewrite B.
    change (run (?a :: ?l) ?w) with (run l (perform a w)).
    rewrite receive_single, (H2 root _ Hroot).
    change (run [] ?w) with w.
    match goal with |- context [bind _ _ ?s] => set (s3 := s) end.
    exists s3.
    assert (Hg : _globalCallbacksMap s3 = globalCallbacksMap) by (subst s3; simpl; exact G).
    rewrite Hg. split; [reflexivity|]. subst s3. simpl. rewrite A, D, F. repeat split. }
  destruct Hw as (s3 & -> & Hsent & Hstack & Happlied).
  pose proof (decoded_at_once_no_object root Hroot) as Hno.
  destruct (Object_entries globalCallbacksMap) as [|[name fn] rest] eqn:E.
  - assert (Hnil : globalCallbacksMap = []).
    { apply Permutation_nil. rewrite <- E. apply Object_entries_perm. }
    simpl. repeat split; try assumption. intros H. contradiction.
  - assert (Hcons : globalCallbacksMap ≠ []) by (intros ->; discriminate).
    destruct (register_each_no_object (decoded_at_once root) name fn rest s3 Hno)
      as [message Hm].
    unfold bind. rewrite Hm. simpl.
    repeat split; try assumption; [contradiction|eauto].
Qed.

Lemma X9_witness :
  decodes_at_once (WNum 5) = true
  ∧ sent (state (run [Initialize "valid token"; Receive (InResult 1 (WBool true));
                      Receive (InResult 2 (WNum 5))]
                     (start [returns_42] [("cb", 0%nat)])))
    = [OutRequest 1 "authenticate" (Some [WStr "valid token"]);
       OutRequest 2 "getRootObject" None]
  ∧ applied (state (run [Initialize "valid token"; Receive (InResult 1 (WBool true));
                         Receive (InResult 2 (WNum 5))]
                        (start [returns_42] [("cb", 0%nat)]))) = [].
Proof.
  assert (H : decodes_at_once (WNum 5) = true) by reflexivity.
  split; [exact H|].
  destruct (X9_initialize_with_a_root_that_is_no_object
              [returns_42] [("cb", 0%nat)] "valid token" (WBool true) (WNum 5) H)
    as (A & _ & _ & _ & B).
  split; [exact A|exact B].
Defined.

(** ** One method call, by itself *)

(** X3.  One method call, from its start to its end.  The arguments that
    are instances of [Object] are registered and pushed as a frame.  When
    an argument cannot be serialized, the call is rejected at once with
    what [_serialize] threw: nothing is sent and the frame stack is what it
    was before the call.  When every argument is serialized, the "execute"
    request leaves with the frame on top of the stack and the call is
    pending; an error reply, or a result that carries no object, settles
    the call and shifts the frame stack once in the same step; a result
    that is a handle starts the materialisation of a proxy with its
    "listProperties" request, the call stays pending and the frame stays
    where it is in that step. *)
Theorem X3_method_call_from_start_to_end :
  forall (serializedTarget : SerializedValue) (methodName : string)
         (args : list SerializableValue) (s : State),
    let frame := omap (instanceof_Object s) args in
    let s1 := unshift frame (assign_each frame s) in
    let now := _callAPIMethod serializedTarget methodName args s in
    Forall (fun r => is_Some (_scriptObjectIdMap s1 !! r)) frame
    ∧ (forall e, serialize_each args s1 = inl e ->
         snd now = Rejected e
         ∧ sent (fst now) = sent s
         ∧ jrpc_id (fst now) = jrpc_id s
         ∧ _scriptObjectListStack (fst now) = _scriptObjectListStack s)
    ∧ (forall serializedArgs, serialize_each args s1 = inr serializedArgs ->
         Forall (fun r => is_Some (_scriptObjectIdMap (fst now) !! r)) frame
         ∧ _scriptObjectListStack (fst now) = frame :: _scriptObjectListStack s
         ∧ sent (fst now)
           = (sent s ++ [OutRequest (jrpc_id s) "execute"
                           (Some (serializedTarget :: WStr methodName :: serializedArgs))])%list
         ∧ is_settled (snd now) = false
         ∧ (forall error s',
              deliver (jrpc_id s) (ErrorReply error) (snd now) s'
              = (shift s', Rejected (RemoteError error)))
         ∧ (forall w s', decodes_at_once w = true ->
              deliver (jrpc_id s) (Result w) (snd now) s'
              = (shift s', Resolved (decoded_at_once w)))
         ∧ (forall scriptObject s', scriptObject ≠ API_VALUE_INVALID_SCRIPT_OBJECT ->
              exists k,
                deliver (jrpc_id s) (Result (WScriptObject scriptObject)) (snd now) s'
                = (sendMessage (OutRequest (jrpc_id s') "listProperties"
                                           (Some [WScriptObject scriptObject]))
                               (next_jrpc_id s'),
                   Pending (jrpc_id s') k))).
Proof.
  intros serializedTarget methodName args s frame s1 now.
  split; [subst s1; simpl; apply assign_each_registers|]. split.
  - intros e He.
    destruct (callAPIMethod_fails serializedTarget methodName args s e He)
      as (Hnow & Hsent & Hid & Hstack).
    subst now. rewrite Hnow. cbn [fst snd]. repeat split; assumption.
  - intros serializedArgs Hws.
    destruct (callAPIMethod_frame serializedTarget methodName args s serializedArgs Hws)
      as (Hstack & Hsent & _).
    destruct (callAPIMethod_replies serializedTarget methodName args s serializedArgs Hws)
      as (Hres & Herr).
    cbn zeta in Hstack, Hsent, Hres, Herr.
    fold now in Hstack, Hsent, Hres, Herr. fold frame in Hstack.
    pose proof (callAPIMethod_sends serializedTarget methodName args s serializedArgs Hws)
      as Hnow.
    cbn zeta in Hnow. fold now in Hnow. fold frame in Hnow. fold s1 in Hnow.
    split.
    { rewrite Hnow. cbn [fst]. subst s1. simpl. apply assign_each_registers. }
    split; [exact Hstack|]. split; [exact Hsent|].
    split; [rewrite Hnow; reflexivity|].
    split; [exact Herr|]. split.
    + intros w s' Hw. rewrite Hres. unfold try_finally.
      rewrite (deserialize_at_once w s' Hw). reflexivity.
    + intros scriptObject s' Hne. rewrite Hres. unfold try_finally.
      rewrite deserialize_valid_handle by exact Hne.
      unfold _describeScriptObject, jrpc_call. simpl. eauto.
Qed.

(** X14.  A method call that nothing overlaps (the frame stack is as the
    call left it when the reply arrives), answered by an error or by a
    value that decodes on the spot: the call settles, the frame stack is
    again what it was before the call, and an argument that was in no
    frame before the call can no longer be found under any handle, so no
    callback can reach it. *)
Theorem X14_a_settled_call_takes_its_arguments_out_of_reach :
  forall (serializedTarget : SerializedValue) (methodName : string)
         (args : list SerializableValue) (s s' : State) (reply : Response) (fn : Ref),
    let now := _callAPIMethod serializedTarget methodName args s in
    let after := deliver (jrpc_id s) reply (snd now) s' in
    ~ in_frames s fn ->
    _scriptObjectListStack s' = _scriptObjectListStack (fst now) ->
    match reply with Result w => decodes_at_once w = true | ErrorReply _ => True end ->
    is_settled (snd after) = true
    ∧ _scriptObjectListStack (fst after) = _scriptObjectListStack s
    ∧ forall scriptObjectId, _findScriptObject scriptObjectId (fst after) ≠ Some fn.
Proof.
  intros serializedTarget methodName args s s' reply fn now after Hout Hstack Hreply.
  set (frame := omap (instanceof_Object s) args).
  set (s1 := unshift frame (assign_each frame s)).
  assert (Hafter : is_settled (snd after) = true
                   ∧ _scriptObjectListStack (fst after) = _scriptObjectListStack s).
  { destruct (serialize_each args s1) as [e|serializedArgs] eqn:Hws.
    - destruct (callAPIMethod_fails serializedTarget methodName args s e Hws)
        as (Hnow & _ & _ & Hsame).
      fold now in Hnow. subst after. rewrite Hnow in Hstack |- *. cbn [fst snd] in *.
      split; [reflexivity|]. simpl. rewrite Hstack. exact Hsame.
    - destruct (callAPIMethod_frame serializedTarget methodName args s serializedArgs Hws)
        as (Hpush & _ & _).
      destruct (callAPIMethod_replies serializedTarget methodName args s serializedArgs Hws)
        as (Hres & Herr).
      cbn zeta in Hpush, Hres, Herr. fold now in Hpush, Hres, Herr.
      assert (Hshift : is_settled (snd after) = true ∧ fst after = shift s').
      { subst after. destruct reply as [w|error].
        - rewrite (Hres w s'). unfold try_finally.
          rewrite (deserialize_at_once w s' Hreply). split; reflexivity.
        - rewrite (Herr error s'). split; reflexivity. }
      destruct Hshift as [Hsettled Hfst]. split; [exact Hsettled|].
      rewrite Hfst. simpl. rewrite Hstack, Hpush. reflexivity. }
  destruct Hafter as [Hsettled Hback].
  split; [exact Hsettled|]. split; [exact Hback|].
  intros scriptObjectId Hfind. apply findScriptObject_Some in Hfind as [Hin _].
  apply Hout. unfold in_frames in *. rewrite <- Hback. exact Hin.
Qed.

Lemma X14_witness :
  let s := state (run [Initialize "valid token";
                       Receive (InResult 1 (WBool true));
                       Receive (InResult 2 (WScriptObject 123));
                       Receive (InResult 3 (WArray []));
                       Receive (InResult 4 (WArray ["foo"]))]
                      (start [returns_42] [])) in
  let now := _callAPIMethod (WScriptObject 123) "foo" [VObject 0%nat] s in
  (~ in_frames s 0%nat
   ∧ _scriptObjectListStack (fst now) = _scriptObjectListStack (fst now)
   ∧ decodes_at_once (WBool true) = true)
  ∧ _findScriptObject 1 (fst (deliver (jrpc_id s) (Result (WBool true)) (snd now) (fst now)))
    ≠ Some 0%nat.
Proof.
  intros s now.
  assert (H1 : ~ in_frames s 0%nat)
    by (unfold in_frames; vm_compute; intros Hin; inversion Hin).
  assert (H2 : _scriptObjectListStack (fst now) = _scriptObjectListStack (fst now))
    by reflexivity.
  assert (H3 : decodes_at_once (WBool true) = true) by reflexivity.
  split; [repeat split; assumption|].
  destruct (X14_a_settled_call_takes_its_arguments_out_of_reach
              (WScriptObject 123) "foo" [VObject 0%nat] s (fst now) (Result (WBool true))
              0%nat H1 H2 H3) as (_ & _ & H).
  exact (H 1).
Defined.

(** ** What every state change of the manager keeps *)

Section Preserved.

Variable P : State -> Prop.

Hypothesis P_sendMessage : forall message s, P s -> P (sendMessage message s).
Hypothesis P_next_jrpc_id : forall s, P s -> P (next_jrpc_id s).
Hypothesis P_record_application :
  forall fn args s, P s -> P (record_application fn args s).
Hypothesis P_unshift : forall l s, P s -> P (unshift l s).
Hypothesis P_shift : forall s, P s -> P (shift s).
Hypothesis P_assign : forall object s, P s -> P (_assignScriptObjectId object s).
Hypothesis P_new_object : forall o s, P s -> P (set_heap (heap s ++ [o]) s).
Hypothesis P_register_proxy :
  forall scriptObjectId o s, P s ->
    P (set_scriptObjectIdMap (<[length (heap s) := scriptObjectId]> (_scriptObjectIdMap s))
                             (set_heap (heap s ++ [HProxy o]) s)).

Lemma preserves_each (ts : list Task) :
  (fix each (ts : list Task) : Prop :=
     match ts with
     | [] => True
     | t :: rest => preserves P t ∧ each rest
     end) ts <-> Forall (preserves P) ts.
Proof.
  induction ts as [|t ts IH]; split; intros H.
  - constructor.
  - exact I.
  - destruct H as [H1 H2]. constructor; [exact H1 | apply IH, H2].
  - inversion H; subst. split; [assumption | apply IH; assumption].
Qed.

Lemma preserves_All ts k :
  preserves P (All ts k)
  <-> Forall (preserves P) ts ∧ forall o s, P s -> keeps P (k o s).
Proof. simpl. rewrite preserves_each. reflexivity. Qed.

Lemma preserves_Orphans t bg :
  preserves P (Orphans t bg) <-> preserves P t ∧ Forall (preserves P) bg.
Proof. simpl. rewrite preserves_each. reflexivity. Qed.

Lemma keeps_settled s o : P s -> keeps P (s, settled o).
Proof. intros H. split; [exact H|]. destruct o; exact I. Qed.

Lemma keeps_on_settle t : forall s h,
  P s -> preserves P t -> (forall o s', P s' -> keeps P (h o s')) ->
  keeps P (on_settle t h s).
Proof.
  induction t as [v|e|id k IH|ts k _ IH|t bg IHt _] using Task_induction;
    intros s h Hs Ht Hh.
  - apply Hh, Hs.
  - apply Hh, Hs.
  - split; [exact Hs|]. simpl. intros r s1 Hs1.
    destruct (Ht r s1 Hs1) as [A B]. specialize (IH r s1).
    destruct (k r s1) as [s2 t2]. apply IH; assumption.
  - apply preserves_All in Ht as [Hts Hk].
    split; [exact Hs|]. simpl snd. apply preserves_All. split; [exact Hts|].
    intros o s1 Hs1. destruct (Hk o s1 Hs1) as [A B]. specialize (IH o s1).
    destruct (k o s1) as [s2 t2]. apply IH; assumption.
  - apply preserves_Orphans in Ht as [Ht Hbg]. simpl.
    specialize (IHt s h Hs Ht Hh). destruct (on_settle t h s) as [s' t'].
    destruct IHt as [A B]. split; [exact A|]. simpl snd.
    apply preserves_Orphans. split; assumption.
Qed.

Lemma keeps_bind m f s :
  keeps P (m s) -> (forall v s', P s' -> keeps P (f v s')) -> keeps P (bind m f s).
Proof.
  intros [A B] Hf. unfold bind. destruct (m s) as [s1 t].
  apply keeps_on_settle; try assumption.
  intros [e|v] s' Hs'; [apply (keeps_settled s' (inl e) Hs')|apply Hf, Hs'].
Qed.

Lemma keeps_try_finally m cleanup s :
  keeps P (m s) -> (forall s', P s' -> P (cleanup s')) -> keeps P (try_finally m cleanup s).
Proof.
  intros [A B] Hc. unfold try_finally. destruct (m s) as [s1 t].
  apply keeps_on_settle; try assumption.
  intros o s' Hs'. apply keeps_settled, Hc, Hs'.
Qed.

Lemma keeps_jrpc_call method params k s :
  P s -> (forall response s', P s' -> keeps P (k response s')) ->
  keeps P (jrpc_call method params k s).
Proof.
  intros Hs Hk. unfold jrpc_call. split.
  - apply P_sendMessage, P_next_jrpc_id, Hs.
  - simpl. intros [response|e] s' Hs'.
    + apply Hk, Hs'.
    + apply (keeps_settled s' (inl (RemoteError e)) Hs').
Qed.

Lemma keeps_join ts k s :
  P s -> Forall (preserves P) ts -> (forall o s', P s' -> keeps P (k o s')) ->
  keeps P (join ts k s).
Proof.
  intros Hs Hts Hk. unfold join. destruct (first_rejection ts) as [e|].
  - destruct (Hk (inl e) s Hs) as [A B]. destruct (k (inl e) s) as [s' t].
    split; [exact A|]. simpl snd.
    set (bg := List.filter (fun t => negb (is_settled t)) ts).
    assert (Hbg : Forall (preserves P) bg).
    { apply Forall_forall. intros t' Ht'.
      apply list_elem_of_In, filter_In in Ht'. destruct Ht' as [Ht' _].
      rewrite Forall_forall in Hts. apply Hts, list_elem_of_In, Ht'. }
    destruct bg as [|b bg]; [exact B|]. simpl with_orphans.
    apply preserves_Orphans. split; assumption.
  - destruct (all_resolved ts) as [vs|]; [apply Hk, Hs|].
    split; [exact Hs|]. apply preserves_All. split; assumption.
Qed.

Lemma keeps_start_all ms : forall s,
  P s -> Forall (fun m => forall s', P s' -> keeps P (m s')) ms ->
  P (fst (start_all ms s)) ∧ Forall (preserves P) (snd (start_all ms s)).
Proof.
  induction ms as [|m ms IH]; intros s Hs Hms.
  - split; [exact Hs|constructor].
  - inversion Hms as [|? ? Hm Hrest]; subst. simpl.
    destruct (Hm s Hs) as [A B]. destruct (m s) as [s1 t].
    destruct (IH s1 A Hrest) as [A' B']. destruct (start_all ms s1) as [s2 ts].
    split; [exact A'|]. constructor; assumption.
Qed.

Lemma keeps_Promise_all ms f s :
  P s -> Forall (fun m => forall s', P s' -> keeps P (m s')) ms ->
  (forall vs s', P s' -> keeps P (f vs s')) ->
  keeps P (Promise_all ms f s).
Proof.
  intros Hs Hms Hf. unfold Promise_all.
  destruct (keeps_start_all ms s Hs Hms) as [A B].
  destruct (start_all ms s) as [s1 ts]. apply keeps_join; try assumption.
  intros [e|vs] s' Hs'; [apply (keeps_settled s' (inl e) Hs')|apply Hf, Hs'].
Qed.

Lemma keeps_deliver_each id r ts :
  Forall (fun t => forall s, P s -> preserves P t -> keeps P (deliver id r t s)) ts ->
  forall s, P s -> Forall (preserves P) ts ->
  P (fst (deliver_each id r ts s)) ∧ Forall (preserves P) (snd (deliver_each id r ts s)).
Proof.
  induction 1 as [|t ts Ht _ IH]; intros s Hs Hts.
  - split; [exact Hs|constructor].
  - inversion Hts as [|? ? Hpt Hpts]; subst. rewrite deliver_each_cons.
    destruct (Ht s Hs Hpt) as [A B]. destruct (deliver id r t s) as [s1 t1].
    destruct (IH s1 A Hpts) as [A' B']. destruct (deliver_each id r ts s1) as [s2 ts2].
    split; [exact A'|]. constructor; assumption.
Qed.

Lemma keeps_deliver id r t : forall s, P s -> preserves P t -> keeps P (deliver id r t s).
Proof.
  induction t as [v|e|id' k _|ts k IHts _|t bg IHt IHbg] using Task_induction;
    intros s Hs Ht.
  - apply (keeps_settled s (inr v) Hs).
  - apply (keeps_settled s (inl e) Hs).
  - simpl. destruct (Nat.eqb id id'); [apply Ht, Hs|split; assumption].
  - rewrite deliver_All. apply preserves_All in Ht as [Hts Hk].
    destruct (keeps_deliver_each id r ts IHts s Hs Hts) as [A B].
    destruct (deliver_each id r ts s) as [s1 ts1]. apply keeps_join; assumption.
  - rewrite deliver_Orphans. apply preserves_Orphans in Ht as [Ht Hbg].
    destruct (IHt s Hs Ht) as [A B]. destruct (deliver id r t s) as [s1 t1].
    destruct (keeps_deliver_each id r bg IHbg s1 A Hbg) as [A' B'].
    destruct (deliver_each id r bg s1) as [s2 bg2].
    split; [exact A'|]. simpl snd. apply preserves_Orphans. split; assumption.
Qed.

Lemma keeps_deliver_tasks id r ts s :
  P s -> Forall (preserves P) ts ->
  P (fst (deliver_each id r ts s)) ∧ Forall (preserves P) (snd (deliver_each id r ts s)).
Proof.
  apply keeps_deliver_each. apply Forall_forall. intros t _. apply keeps_deliver.
Qed.

Lemma P_assign_each objects : forall s, P s -> P (assign_each objects s).
Proof.
  induction objects as [|r objects IH]; intros s Hs; [exact Hs|].
  rewrite assign_each_cons. apply IH, P_assign, Hs.
Qed.

Lemma keeps_build_proxy scriptObjectId properties methods s :
  P s -> keeps P (build_proxy scriptObjectId properties methods s).
Proof.
  intros Hs. destruct (build_proxy_state scriptObjectId properties methods s) as (o & Hfst & Ht).
  split; [rewrite Hfst; apply P_register_proxy, Hs|].
  destruct (snd (build_proxy scriptObjectId properties methods s)); try discriminate; exact I.
Qed.

Lemma keeps_describeScriptObject scriptObjectId s :
  P s -> keeps P (_describeScriptObject scriptObjectId s).
Proof.
  intros Hs. unfold _describeScriptObject.
  apply keeps_jrpc_call; [exact Hs|]. intros properties s1 Hs1.
  apply keeps_jrpc_call; [exact Hs1|]. intros methods s2 Hs2.
  apply keeps_build_proxy, Hs2.
Qed.

Lemma keeps_deserialize value s : P s -> keeps P (_deserialize value s).
Proof.
  intros Hs. destruct value as [b|n|str| |h| |items]; unfold _deserialize; simpl;
    try (split; [exact Hs|exact I]).
  destruct (Z.eqb h API_VALUE_INVALID_SCRIPT_OBJECT); [split; [exact Hs|exact I]|].
  apply keeps_describeScriptObject, Hs.
Qed.

Lemma keeps_createGetter serializedTarget propertyName s :
  P s -> keeps P (_createGetter serializedTarget propertyName s).
Proof.
  intros Hs. unfold _createGetter. apply keeps_jrpc_call; [exact Hs|].
  intros response s' Hs'. apply keeps_deserialize, Hs'.
Qed.

Lemma keeps_createSetter serializedTarget propertyName value s :
  P s -> keeps P (_createSetter serializedTarget propertyName value s).
Proof.
  intros Hs. unfold _createSetter. destruct (_serialize value s) as [e|w].
  - split; [exact Hs|exact I].
  - apply keeps_jrpc_call; [exact Hs|]. intros response s' Hs'.
    split; [exact Hs'|exact I].
Qed.

Lemma keeps_callAPIMethod serializedTarget methodName args s :
  P s -> keeps P (_callAPIMethod serializedTarget methodName args s).
Proof.
  intros Hs. unfold _callAPIMethod.
  set (s1 := unshift _ _).
  assert (Hs1 : P s1) by (apply P_unshift, P_assign_each, Hs).
  apply keeps_try_finally; [|apply P_shift].
  destruct (serialize_each args s1) as [e|ws]; [split; [exact Hs1|exact I]|].
  apply keeps_jrpc_call; [exact Hs1|]. intros response s' Hs'.
  apply keeps_deserialize, Hs'.
Qed.

Lemma keeps_call_getter get s : P s -> keeps P (call_getter get s).
Proof. destruct get. apply keeps_createGetter. Qed.

Lemma keeps_call_setter set value s : P s -> keeps P (call_setter set value s).
Proof. destruct set. apply keeps_createSetter. Qed.

Lemma keeps_call_method method args s : P s -> keeps P (call_method method args s).
Proof. destruct method. apply keeps_callAPIMethod. Qed.

Lemma keeps_call_registerCallback apiRootObject name fn s :
  P s -> keeps P (call_registerCallback apiRootObject name fn s).
Proof.
  intros Hs. unfold call_registerCallback.
  destruct apiRootObject as [| |b|n|str|r]; try (split; [exact Hs|exact I]).
  destruct (heap s !! r) as [[body| |o|instance body conversion]|]; try (split; [exact Hs|exact I]).
  destruct (getOwnProperty (properties o) "registerCallback") as [[g st e c|c wr e cf]|];
    try (split; [exact Hs|exact I]).
  - destruct (keeps_call_getter g s Hs) as [A B]. destruct (call_getter g s) as [s' t].
    split; [exact A|]. simpl snd. apply preserves_Orphans.
    split; [exact I|]. constructor; [exact B|constructor].
  - apply keeps_call_method, Hs.
Qed.

Lemma keeps_register_each apiRootObject entries : forall s,
  P s -> keeps P (register_each apiRootObject entries s).
Proof.
  induction entries as [|[name fn] entries IH]; intros s Hs.
  - split; [exact Hs|exact I].
  - simpl. apply keeps_bind; [apply keeps_call_registerCallback, Hs|].
    intros _ s' Hs'. apply IH, Hs'.
Qed.

Lemma keeps_initialize token s : P s -> keeps P (initialize token s).
Proof.
  intros Hs. unfold initialize.
  apply keeps_jrpc_call; [exact Hs|]. intros _ s1 Hs1.
  apply keeps_jrpc_call; [exact Hs1|]. intros response s2 Hs2.
  apply keeps_bind; [apply keeps_deserialize, Hs2|]. intros apiRootObject s3 Hs3.
  apply keeps_bind; [apply keeps_register_each, Hs3|]. intros _ s4 Hs4.
  split; [exact Hs4|exact I].
Qed.

Lemma keeps_apply_function fn body functionArguments s :
  P s -> keeps P (apply_function fn body functionArguments s).
Proof.
  intros Hs. unfold apply_function.
  destruct (body functionArguments); (split; [apply P_record_application, Hs|exact I]).
Qed.

Lemma keeps_handleAPICallback functionId args s :
  P s -> keeps P (_handleAPICallback functionId args s).
Proof.
  intros Hs. unfold _handleAPICallback.
  destruct (_findScriptObject functionId s) as [fn|]; [|split; [exact Hs|exact I]].
  destruct (as_function fn s) as [body|]; [|split; [exact Hs|exact I]].
  apply keeps_Promise_all; [exact Hs| |].
  - apply Forall_forall. intros m Hm s' Hs'.
    apply list_elem_of_fmap in Hm as (w & -> & _). apply keeps_deserialize, Hs'.
  - intros vs s' Hs'. apply keeps_apply_function, Hs'.
Qed.

Lemma keeps_on_callback id functionId serializedArgs s :
  P s -> keeps P (on_callback id functionId serializedArgs s).
Proof.
  intros Hs. unfold on_callback.
  destruct (keeps_handleAPICallback functionId serializedArgs s Hs) as [A B].
  destruct (_handleAPICallback functionId serializedArgs s) as [s1 t].
  apply keeps_on_settle; try assumption.
  intros o s' Hs'. apply keeps_settled, P_sendMessage, Hs'.
Qed.

Lemma world_keeps_spawn m w :
  world_keeps P w -> (forall s, P s -> keeps P (m s)) -> world_keeps P (spawn m w).
Proof.
  intros [Hs Hts] Hm. unfold spawn. destruct (Hm (state w) Hs) as [A B].
  destruct (m (state w)) as [s t]. split; [exact A|]. simpl.
  apply Forall_app. split; [exact Hts|]. constructor; [exact B|constructor].
Qed.

Lemma world_keeps_perform_quiet a w :
  is_callback a = false -> world_keeps P w -> world_keeps P (perform a w).
Proof.
  intros Ha Hw. pose proof Hw as [Hs Hts].
  destruct a as [o|token|proxy name|proxy name value|proxy name args|message]; simpl.
  - split; [apply P_new_object, Hs|exact Hts].
  - apply world_keeps_spawn; [exact Hw|]. intros s. apply keeps_initialize.
  - unfold caller_reads.
    destruct (member (VObject proxy) name (state w)) as [[g st e c|c wr e cf]|];
      try exact Hw.
    apply world_keeps_spawn; [exact Hw|]. intros s. apply keeps_call_getter.
  - destruct (exists_in (state w) value); [|exact Hw]. unfold caller_writes.
    destruct (member (VObject proxy) name (state w)) as [[g st e c|c wr e cf]|];
      try exact Hw.
    apply world_keeps_spawn; [exact Hw|]. intros s. apply keeps_call_setter.
  - destruct (forallb (exists_in (state w)) args); [|exact Hw]. unfold caller_calls.
    destruct (member (VObject proxy) name (state w)) as [[g st e c|c wr e cf]|];
      try exact Hw.
    + apply world_keeps_spawn; [exact Hw|]. intros s. apply keeps_call_getter.
    + apply world_keeps_spawn; [exact Hw|]. intros s. apply keeps_call_method.
  - destruct message as [id result|id error|id functionId serializedArgs]; simpl.
    + destruct (keeps_deliver_tasks id (Result result) (tasks w) (state w) Hs Hts) as [A B].
      destruct (deliver_each id (Result result) (tasks w) (state w)). split; assumption.
    + destruct (keeps_deliver_tasks id (ErrorReply error) (tasks w) (state w) Hs Hts)
        as [A B].
      destruct (deliver_each id (ErrorReply error) (tasks w) (state w)). split; assumption.
    + discriminate.
Qed.


Lemma world_keeps_perform a w : world_keeps P w -> world_keeps P (perform a w).
Proof.
  intros Hw. destruct (is_callback a) eqn:Ha; [|apply world_keeps_perform_quiet; assumption].
  destruct a as [o|token|proxy name|proxy name value|proxy name args
                 |[id result|id error|id functionId serializedArgs]]; try discriminate.
  simpl. apply world_keeps_spawn; [exact Hw|]. intros s. apply keeps_on_callback.
Qed.

Lemma world_keeps_run actions : forall w, world_keeps P w -> world_keeps P (run actions w).
Proof.
  induction actions as [|a actions IH]; intros w Hw; [exact Hw|].
  apply (IH (perform a w)), world_keeps_perform, Hw.
Qed.

(** What holds when the manager is built, and is kept by each of the
    state changes of the manager, holds at every moment of every
    session. *)
Lemma session_preserves objects globalCallbacksMap actions :
  P (mkState API_VALUE_INVALID_SCRIPT_OBJECT ∅ [] [] 1%nat [] objects []) ->
  (forall g s, P s -> P (set_globalCallbacksMap g s)) ->
  (forall k s, P s -> P (set_scriptObjectListStack k s)) ->
  P (state (run actions (start objects globalCallbacksMap))).
Proof.
  intros H0 Hg Hk.
  apply (world_keeps_run actions (start objects globalCallbacksMap)).
  split; [|constructor]. unfold start, constructor. simpl.
  apply Hk, Hg, P_assign_each, H0.
Qed.


End Preserved.

(** ** No two objects of the caller share a handle *)

Lemma handles_distinct_assign object s :
  handles_distinct s -> handles_distinct (_assignScriptObjectId object s).
Proof.
  intros [Hbound Hinj]. destruct (_scriptObjectIdMap s !! object) as [h|] eqn:E.
  - rewrite (assign_registered object s h E). split; assumption.
  - rewrite (assign_unseen object s E). unfold handles_distinct, is_proxy. simpl. split.
    + intros r h Hr Hp. destruct (decide (object = r)) as [->|Hne].
      * rewrite lookup_insert_eq in Hr. injection Hr as <-. lia.
      * rewrite lookup_insert_ne in Hr by exact Hne.
        specialize (Hbound r h Hr Hp). lia.
    + intros r1 r2 h H1 H2 Hp1 Hp2.
      destruct (decide (object = r1)) as [<-|Hne1];
        destruct (decide (object = r2)) as [<-|Hne2]; try reflexivity.
      * rewrite lookup_insert_eq in H1. injection H1 as <-.
        rewrite lookup_insert_ne in H2 by exact Hne2.
        specialize (Hbound r2 _ H2 Hp2). lia.
      * rewrite lookup_insert_eq in H2. injection H2 as <-.
        rewrite lookup_insert_ne in H1 by exact Hne1.
        specialize (Hbound r1 _ H1 Hp1). lia.
      * rewrite lookup_insert_ne in H1 by exact Hne1.
        rewrite lookup_insert_ne in H2 by exact Hne2.
        exact (Hinj r1 r2 h H1 H2 Hp1 Hp2).
Qed.

Lemma is_proxy_new_object o s r :
  is_proxy (set_heap (heap s ++ [o]) s) r = false -> is_proxy s r = false.
Proof.
  unfold is_proxy. simpl. destruct (decide (r < length (heap s))%nat) as [Hlt|Hge].
  - rewrite lookup_app_l by exact Hlt. tauto.
  - intros _. rewrite lookup_ge_None_2 by lia. reflexivity.
Qed.

Lemma handles_distinct_new_object o s :
  handles_distinct s -> handles_distinct (set_heap (heap s ++ [o]) s).
Proof.
  intros [Hbound Hinj]. split.
  - intros r h Hr Hp. apply (Hbound r h Hr), (is_proxy_new_object o s r Hp).
  - intros r1 r2 h H1 H2 Hp1 Hp2.
    apply (Hinj r1 r2 h H1 H2); eapply is_proxy_new_object; eassumption.
Qed.

Lemma handles_distinct_register_proxy scriptObjectId o s :
  handles_distinct s ->
  handles_distinct
    (set_scriptObjectIdMap (<[length (heap s) := scriptObjectId]> (_scriptObjectIdMap s))
                           (set_heap (heap s ++ [HProxy o]) s)).
Proof.
  intros [Hbound Hinj].
  assert (Hp : forall r,
             is_proxy (set_scriptObjectIdMap
                         (<[length (heap s) := scriptObjectId]> (_scriptObjectIdMap s))
                         (set_heap (heap s ++ [HProxy o]) s)) r = false ->
             r ≠ length (heap s) ∧ is_proxy s r = false).
  { intros r Hr. split.
    - intros ->. unfold is_proxy in Hr. simpl in Hr.
      rewrite list_lookup_middle in Hr by reflexivity. discriminate.
    - apply (is_proxy_new_object (HProxy o) s r). exact Hr. }
  split.
  - intros r h Hr Hpr. destruct (Hp r Hpr) as [Hne Hold]. simpl in Hr.
    rewrite lookup_insert_ne in Hr by congruence. exact (Hbound r h Hr Hold).
  - intros r1 r2 h H1 H2 Hp1 Hp2.
    destruct (Hp r1 Hp1) as [Hne1 Hold1]. destruct (Hp r2 Hp2) as [Hne2 Hold2].
    simpl in H1, H2.
    rewrite lookup_insert_ne in H1 by congruence.
    rewrite lookup_insert_ne in H2 by congruence.
    exact (Hinj r1 r2 h H1 H2 Hold1 Hold2).
Qed.

(** In every session, at every moment, the handles of the caller's objects
    are drawn from the counter and no two of them are the same. *)
Lemma session_handles_distinct objects globalCallbacksMap actions :
  handles_distinct (state (run actions (start objects globalCallbacksMap))).
Proof.
  apply (session_preserves handles_distinct); try (intros; assumption).
  - apply handles_distinct_assign.
  - apply handles_distinct_new_object.
  - apply handles_distinct_register_proxy.
  - split.
    + intros r h Hr. simpl in Hr. rewrite lookup_empty in Hr. discriminate.
    + intros r1 r2 h Hr. simpl in Hr. rewrite lookup_empty in Hr. discriminate.
Qed.

(** X11.  In every session, at every moment: two different objects (or
    functions) of the caller that are both registered have different
    handles, and neither handle exceeds the counter.  (A proxy has the
    handle the peer gave it, which may be the handle of anything.) *)
Theorem X11_caller_objects_never_share_a_handle :
  forall (objects : list HeapObject) (globalCallbacksMap : JSRecord) (actions : list Action)
         (r1 r2 : Ref) (h1 h2 : Z),
    let st := state (run actions (start objects globalCallbacksMap)) in
    _scriptObjectIdMap st !! r1 = Some h1 ->
    _scriptObjectIdMap st !! r2 = Some h2 ->
    is_proxy st r1 = false ->
    is_proxy st r2 = false ->
    r1 ≠ r2 ->
    h1 ≠ h2 ∧ h1 <= _lastScriptObjectId st ∧ h2 <= _lastScriptObjectId st.
Proof.
  intros objects globalCallbacksMap actions r1 r2 h1 h2 st H1 H2 Hp1 Hp2 Hne.
  destruct (session_handles_distinct objects globalCallbacksMap actions) as [Hbound Hinj].
  fold st in Hbound, Hinj.
  split; [|split; [exact (Hbound r1 h1 H1 Hp1)|exact (Hbound r2 h2 H2 Hp2)]].
  intros ->. exact (Hne (Hinj r1 r2 h2 H1 H2 Hp1 Hp2)).
Qed.

Lemma X11_witness :
  let actions := [Initialize "valid token";
                  Receive (InResult 1 (WBool true));
                  Receive (InResult 2 (WScriptObject 1));
                  Receive (InResult 3 (WArray []));
                  Receive (InResult 4 (WArray ["foo"]));
                  CallMethod 2%nat "foo" [VObject 0%nat];
                  CallMethod 2%nat "foo" [VObject 1%nat]] in
  let st := state (run actions (start [returns_42; returns_42] [])) in
  (_scriptObjectIdMap st !! 0%nat = Some 1
   ∧ _scriptObjectIdMap st !! 1%nat = Some 2
   ∧ _scriptObjectIdMap st !! 2%nat = Some 1
   ∧ is_proxy st 0%nat = false
   ∧ is_proxy st 1%nat = false
   ∧ is_proxy st 2%nat = true)
  ∧ (1 ≠ 2 ∧ 1 <= _lastScriptObjectId st ∧ 2 <= _lastScriptObjectId st).
Proof.
  intros actions st.
  assert (H1 : _scriptObjectIdMap st !! 0%nat = Some 1) by (vm_compute; reflexivity).
  assert (H2 : _scriptObjectIdMap st !! 1%nat = Some 2) by (vm_compute; reflexivity).
  assert (H3 : _scriptObjectIdMap st !! 2%nat = Some 1) by (vm_compute; reflexivity).
  assert (H4 : is_proxy st 0%nat = false) by (vm_compute; reflexivity).
  assert (H5 : is_proxy st 1%nat = false) by (vm_compute; reflexivity).
  assert (H6 : is_proxy st 2%nat = true) by (vm_compute; reflexivity).
  assert (H7 : 0%nat ≠ 1%nat) by discriminate.
  split; [repeat split; assumption|].
  exact (X11_caller_objects_never_share_a_handle
           [returns_42; returns_42] [] actions 0%nat 1%nat 1 2 H1 H2 H4 H5 H7).
Defined.

(** ** The global callbacks stay within reach *)

(** X12.  In every session, at every moment: a global callback is in the
    frame stack under the handle it got when the manager was built, and it
    is still the function it was.  So looking up its handle finds an
    object that is in a frame and has that handle; what is found is the
    callback itself or a proxy, which is then a proxy of an object to which
    the peer gave the same handle and which some frame holds.  When no
    frame holds a proxy with that handle, the lookup finds the callback. *)
Theorem X12_global_callbacks_stay_resolvable :
  forall (objects : list HeapObject) (globalCallbacksMap : JSRecord) (actions : list Action)
         (fn : Ref) (body : list SerializableValue -> Outcome),
    callbacks_exist objects globalCallbacksMap = true ->
    fn ∈ Object_values globalCallbacksMap ->
    objects !! fn = Some (HFunction body) ->
    let st := state (run actions (start objects globalCallbacksMap)) in
    exists scriptObjectId,
      _scriptObjectIdMap (constructor objects globalCallbacksMap) !! fn = Some scriptObjectId
      ∧ _scriptObjectIdMap st !! fn = Some scriptObjectId
      ∧ as_function fn st = Some body
      ∧ in_frames st fn
      ∧ (exists r, _findScriptObject scriptObjectId st = Some r
                   ∧ in_frames st r
                   ∧ _scriptObjectIdMap st !! r = Some scriptObjectId
                   ∧ (r = fn ∨ is_proxy st r = true))
      ∧ ((forall p, in_frames st p -> is_proxy st p = true ->
                    _scriptObjectIdMap st !! p ≠ Some scriptObjectId) ->
         _findScriptObject scriptObjectId st = Some fn).
Proof.
  intros objects globalCallbacksMap actions fn body Hgcm Hfn Hbody st.
  assert (Hreg : is_Some (_scriptObjectIdMap (constructor objects globalCallbacksMap) !! fn)).
  { pose proof (constructor_registers objects globalCallbacksMap) as Hc.
    unfold Object_values in Hfn. apply list_elem_of_fmap in Hfn as (e & -> & He).
    rewrite Forall_forall in Hc. apply Hc, He. }
  destruct Hreg as [h Hh]. exists h. split; [exact Hh|].
  destruct (session_well_formed objects globalCallbacksMap [] actions Hgcm) as [_ Hext].
  change (run [] (start objects globalCallbacksMap))
    with (start objects globalCallbacksMap) in Hext.
  fold st in Hext. simpl in Hext.
  assert (Hmap : _scriptObjectIdMap st !! fn = Some h)
    by (eapply extends_lookup; eassumption).
  assert (Hheap : heap st !! fn = Some (HFunction body)).
  { eapply extends_heap_lookup; [exact Hext|].
    rewrite (proj1 (proj2 (proj2 (constructor_fields objects globalCallbacksMap)))).
    exact Hbody. }
  assert (Hin : in_frames st fn).
  { destruct (global_frame_is_never_shifted objects globalCallbacksMap actions)
      as [_ [top Hstack]].
    unfold in_frames. fold st in Hstack. rewrite Hstack, concat_app.
    apply elem_of_app. right. simpl. rewrite app_nil_r. exact Hfn. }
  split; [exact Hmap|]. split; [unfold as_function; rewrite Hheap; reflexivity|].
  split; [exact Hin|].
  assert (Hfound : exists r, _findScriptObject h st = Some r
                             ∧ in_frames st r
                             ∧ _scriptObjectIdMap st !! r = Some h
                             ∧ (r = fn ∨ is_proxy st r = true)).
  { destruct (_findScriptObject h st) as [r|] eqn:E.
    - exists r. split; [reflexivity|].
      apply findScriptObject_Some in E as [Hrin Hrh].
      split; [exact Hrin|]. split; [exact Hrh|].
      destruct (is_proxy st r) eqn:Hr; [right; reflexivity|left].
      destruct (session_handles_distinct objects globalCallbacksMap actions) as [_ Hinj].
      fold st in Hinj. apply (Hinj r fn h Hrh Hmap Hr).
      unfold is_proxy. rewrite Hheap. reflexivity.
    - exfalso. exact (findScriptObject_None_inv h st fn E Hin Hmap). }
  split; [exact Hfound|].
  intros Hnone. destruct Hfound as (r & Hr & Hrin & Hrh & [->|Hproxy]); [exact Hr|].
  exfalso. exact (Hnone r Hrin Hproxy Hrh).
Qed.

Lemma X12_witness :
  let actions := [Initialize "valid token";
                  Receive (InResult 1 (WBool true));
                  Receive (InResult 2 (WScriptObject 1));
                  Receive (InResult 3 (WArray []));
                  Receive (InResult 4 (WArray ["registerCallback"]))] in
  (callbacks_exist [returns_42] [("cb", 0%nat)] = true
   ∧ 0%nat ∈ Object_values [("cb", 0%nat)]
   ∧ [returns_42] !! 0%nat = Some (HFunction (fun _ => Returns (VNum 42))))
  ∧ in_frames (state (run actions (start [returns_42] [("cb", 0%nat)]))) 0%nat.
Proof.
  intros actions.
  assert (H1 : callbacks_exist [returns_42] [("cb", 0%nat)] = true) by reflexivity.
  assert (H2 : 0%nat ∈ Object_values [("cb", 0%nat)])
    by (apply (bool_decide_unpack _); vm_compute; exact I).
  assert (H3 : [returns_42] !! 0%nat = Some (HFunction (fun _ => Returns (VNum 42))))
    by reflexivity.
  split; [repeat split; assumption|].
  destruct (X12_global_callbacks_stay_resolvable
              [returns_42] [("cb", 0%nat)] actions 0%nat _ H1 H2 H3)
    as (h & _ & _ & _ & Hin & _).
  exact Hin.
Defined.

(** A proxy does hide a callback.  The peer gives the root object the
    handle 1, which is also the handle of the global callback "cb"; after
    the call [root.foo(root)] has started, its frame holds the root proxy,
    the lookup of handle 1 finds it first, and a callback for "cb" is
    refused. *)
Example proxy_with_the_handle_of_a_callback :
  let w := run [Initialize "valid token";
                Receive (InResult 1 (WBool true));
                Receive (InResult 2 (WScriptObject 1));
                Receive (InResult 3 (WArray []));
                Receive (InResult 4 (WArray ["registerCallback"; "foo"]));
                Receive (InResult 5 (WBool true));
                CallMethod 1%nat "foo" [VObject 1%nat]]
               (start [returns_42] [("cb", 0%nat)]) in
  _scriptObjectListStack (state w) = [[1%nat]; [0%nat]]
  ∧ _scriptObjectIdMap (state w) !! 0%nat = Some 1
  ∧ _scriptObjectIdMap (state w) !! 1%nat = Some 1
  ∧ _findScriptObject 1 (state w) = Some 1%nat
  ∧ is_proxy (state w) 1%nat = true
  ∧ sent (state (perform (Receive (InCallback 1000 1 [])) w))
    = (sent (state w) ++ [OutError 1000 (JSError "Function was not found - ID: 1")])%list
  ∧ applied (state (perform (Receive (InCallback 1000 1 [])) w)) = [].
Proof.
  intros w. repeat (refine (conj _ _); [vm_compute; reflexivity|]).
  vm_compute. reflexivity.
Qed.

(** ** The arguments of a method call *)

(** X13.  At any moment of any session, a method call with any
    arguments.  When each object among the arguments is an instance of
    [Object] or is registered already, the request leaves and carries the
    serialization of each argument, in order; a function among the
    arguments is then registered and in the frame stack from the moment the
    request leaves, and looking up its handle finds an object with that
    handle, which is the function itself unless it is a proxy.  When an
    argument is an object that is no instance of [Object] and is not
    registered, the call is rejected before anything is sent, and the
    frame stack is what it was before the call. *)
Theorem X13_arguments_of_a_call_are_resolvable :
  forall (objects : list HeapObject) (globalCallbacksMap : JSRecord) (actions : list Action)
         (serializedTarget : SerializedValue) (methodName : string)
         (args : list SerializableValue),
    let st := state (run actions (start objects globalCallbacksMap)) in
    let now := _callAPIMethod serializedTarget methodName args st in
    ((forall r, VObject r ∈ args ->
        is_Some (instanceof_Object st (VObject r)) ∨ is_Some (_scriptObjectIdMap st !! r)) ->
     (exists serializedArgs,
        Forall2 (fun a w => _serialize a (fst now) = inr w) args serializedArgs
        ∧ sent (fst now)
          = (sent st ++ [OutRequest (jrpc_id st) "execute"
                           (Some (serializedTarget :: WStr methodName :: serializedArgs))])%list)
     ∧ forall (fn : Ref) (body : list SerializableValue -> Outcome),
         VObject fn ∈ args ->
         heap st !! fn = Some (HFunction body) ->
         exists scriptObjectId,
           _scriptObjectIdMap (fst now) !! fn = Some scriptObjectId
           ∧ in_frames (fst now) fn
           ∧ as_function fn (fst now) = Some body
           ∧ exists r, _findScriptObject scriptObjectId (fst now) = Some r
                       ∧ _scriptObjectIdMap (fst now) !! r = Some scriptObjectId
                       ∧ (r = fn ∨ is_proxy (fst now) r = true))
    ∧ (forall r, VObject r ∈ args ->
         instanceof_Object st (VObject r) = None ->
         _scriptObjectIdMap st !! r = None ->
         exists e, snd now = Rejected e
                   ∧ sent (fst now) = sent st
                   ∧ jrpc_id (fst now) = jrpc_id st
                   ∧ _scriptObjectListStack (fst now) = _scriptObjectListStack st).
Proof.
  intros objects globalCallbacksMap actions serializedTarget methodName args st now.
  set (frame := omap (instanceof_Object st) args).
  set (s1 := unshift frame (assign_each frame st)).
  split.
  - intros Hargs.
    destruct (callAPIMethod_serializes args st Hargs) as (ws & Hws & _).
    pose proof (callAPIMethod_sends serializedTarget methodName args st ws Hws) as Hnow.
    cbn zeta in Hws, Hnow. fold frame in Hws, Hnow. fold s1 in Hws, Hnow. fold now in Hnow.
    assert (Hfst : fst now
                   = sendMessage (OutRequest (jrpc_id st) "execute"
                                    (Some (serializedTarget :: WStr methodName :: ws)))
                                 (next_jrpc_id s1))
      by (rewrite Hnow; reflexivity).
    destruct (assign_each_untouched frame st) as (Hsent & Hid & Hheap & _ & Hstack & _).
    split.
    + exists ws. split.
      * apply serialize_each_Forall2 in Hws.
        eapply Forall2_impl; [exact Hws|]. intros a w Ha. rewrite Hfst. exact Ha.
      * rewrite Hfst. simpl. rewrite Hsent. reflexivity.
    + intros fn body Harg Hbody.
      assert (Hdistinct : handles_distinct (fst now)).
      { rewrite Hfst. apply (P_assign_each handles_distinct handles_distinct_assign).
        apply session_handles_distinct. }
      assert (Hin : fn ∈ frame).
      { subst frame. apply list_elem_of_omap. exists (VObject fn).
        split; [exact Harg|]. simpl. rewrite Hbody. reflexivity. }
      assert (Hreg : is_Some (_scriptObjectIdMap (fst now) !! fn)).
      { rewrite Hfst. simpl.
        pose proof (assign_each_registers frame st) as Hall.
        rewrite Forall_forall in Hall. apply Hall, Hin. }
      assert (Hheap' : heap (fst now) !! fn = Some (HFunction body)).
      { rewrite Hfst. simpl. rewrite Hheap. exact Hbody. }
      assert (Hframes : in_frames (fst now) fn).
      { unfold in_frames. rewrite Hfst. simpl. apply elem_of_app. left. exact Hin. }
      destruct Hreg as [h Hh]. exists h. split; [exact Hh|]. split; [exact Hframes|].
      split; [unfold as_function; rewrite Hheap'; reflexivity|].
      destruct (_findScriptObject h (fst now)) as [r|] eqn:E.
      * exists r. split; [reflexivity|].
        apply findScriptObject_Some in E as [_ Hrh]. split; [exact Hrh|].
        destruct (is_proxy (fst now) r) eqn:Hr; [right; reflexivity|left].
        destruct Hdistinct as [_ Hinj]. apply (Hinj r fn h Hrh Hh Hr).
        unfold is_proxy. rewrite Hheap'. reflexivity.
      * exfalso. exact (findScriptObject_None_inv h (fst now) fn E Hframes Hh).
  - intros r Hin Hinst Hnone.
    assert (Hout : r ∉ frame).
    { intros Hr. apply list_elem_of_omap in Hr as (a & _ & Ha).
      pose proof (instanceof_Object_Some st a r Ha) as ->. congruence. }
    assert (Hs1 : _scriptObjectIdMap s1 !! r = None).
    { subst s1. simpl. rewrite (assign_each_other frame r st Hout). exact Hnone. }
    destruct (serialize_each_fails args s1 r Hin Hs1) as [e He].
    destruct (callAPIMethod_fails serializedTarget methodName args st e He)
      as (A & B & C & D).
    fold now in A. exists e. rewrite A. cbn [fst snd]. repeat split; assumption.
Qed.

(** A call with a number and a function, and a call with an object
    without a prototype, after [initialize]. *)
Lemma X13_witness :
  let objects := [returns_42;
                  HOther false None
                    (Some (TypeError "Cannot convert object to primitive value"))] in
  let actions := [Initialize "valid token";
                  Receive (InResult 1 (WBool true));
                  Receive (InResult 2 (WScriptObject 123));
                  Receive (InResult 3 (WArray []));
                  Receive (InResult 4 (WArray ["foo"]))] in
  let st := state (run actions (start objects [])) in
  ((forall r, VObject r ∈ [VNum 7; VObject 0%nat] ->
      is_Some (instanceof_Object st (VObject r)) ∨ is_Some (_scriptObjectIdMap st !! r))
   ∧ VObject 0%nat ∈ [VNum 7; VObject 0%nat]
   ∧ heap st !! 0%nat = Some (HFunction (fun _ => Returns (VNum 42)))
   ∧ VObject 1%nat ∈ [VObject 1%nat]
   ∧ instanceof_Object st (VObject 1%nat) = None
   ∧ _scriptObjectIdMap st !! 1%nat = None)
  ∧ (exists scriptObjectId,
       _scriptObjectIdMap (fst (_callAPIMethod (WScriptObject 123) "foo"
                                               [VNum 7; VObject 0%nat] st)) !! 0%nat
       = Some scriptObjectId
       ∧ in_frames (fst (_callAPIMethod (WScriptObject 123) "foo"
                                        [VNum 7; VObject 0%nat] st)) 0%nat)
  ∧ (exists e,
       snd (_callAPIMethod (WScriptObject 123) "foo" [VObject 1%nat] st) = Rejected e
       ∧ sent (fst (_callAPIMethod (WScriptObject 123) "foo" [VObject 1%nat] st))
         = sent st).
Proof.
  intros objects actions st.
  assert (H0 : forall r, VObject r ∈ [VNum 7; VObject 0%nat] ->
                 is_Some (instanceof_Object st (VObject r))
                 ∨ is_Some (_scriptObjectIdMap st !! r)).
  { intros r Hr. left.
    apply elem_of_cons in Hr as [Hr|Hr]; [discriminate|].
    apply list_elem_of_singleton in Hr. injection Hr as ->.
    exists 0%nat. vm_compute. reflexivity. }
  assert (H1 : VObject 0%nat ∈ [VNum 7; VObject 0%nat]) by (right; left).
  assert (H2 : heap st !! 0%nat = Some (HFunction (fun _ => Returns (VNum 42))))
    by (vm_compute; reflexivity).
  assert (H3 : VObject 1%nat ∈ [VObject 1%nat]) by left.
  assert (H4 : instanceof_Object st (VObject 1%nat) = None) by (vm_compute; reflexivity).
  assert (H5 : _scriptObjectIdMap st !! 1%nat = None) by (vm_compute; reflexivity).
  split; [repeat split; assumption|].
  destruct (X13_arguments_of_a_call_are_resolvable
              objects [] actions (WScriptObject 123) "foo" [VNum 7; VObject 0%nat])
    as [A _].
  destruct (X13_arguments_of_a_call_are_resolvable
              objects [] actions (WScriptObject 123) "foo" [VObject 1%nat])
    as [_ B].
  split.
  - destruct (A H0) as (_ & Hfn). destruct (Hfn 0%nat _ H1 H2) as (h & Hh & Hin & _).
    exists h. split; [exact Hh|exact Hin].
  - destruct (B 1%nat H3 H4 H5) as (e & He & Hsent & _).
    exists e. split; [exact He|exact Hsent].
Defined.

(** ** What the frames hold *)

(** X16.  In every session, at every moment: whatever is in a frame is an
    object that exists and is registered under a handle other than the
    invalid one, so it serializes, and looking up its handle finds an
    object with that handle. *)
Theorem X16_what_is_in_a_frame_is_registered :
  forall (objects : list HeapObject) (globalCallbacksMap : JSRecord) (actions : list Action)
         (r : Ref),
    callbacks_exist objects globalCallbacksMap = true ->
    let st := state (run actions (start objects globalCallbacksMap)) in
    in_frames st r ->
    is_Some (heap st !! r)
    ∧ exists scriptObjectId,
        _scriptObjectIdMap st !! r = Some scriptObjectId
        ∧ scriptObjectId ≠ API_VALUE_INVALID_SCRIPT_OBJECT
        ∧ _serialize (VObject r) st = inr (WScriptObject scriptObjectId)
        ∧ exists r', _findScriptObject scriptObjectId st = Some r'
                     ∧ _scriptObjectIdMap st !! r' = Some scriptObjectId.
Proof.
  intros objects globalCallbacksMap actions r Hgcm st Hin.
  destruct (session_well_formed objects globalCallbacksMap actions [] Hgcm)
    as [(_ & Hmap & Hframes & _) _].
  fold st in Hmap, Hframes.
  pose proof Hin as Hin'. apply in_frames_spec in Hin' as (l & Hl & Hr).
  rewrite Forall_forall in Hframes. specialize (Hframes l Hl).
  rewrite Forall_forall in Hframes. destruct (Hframes r Hr) as [Hlt [h Hh]].
  split; [apply lookup_lt_is_Some_2, Hlt|].
  exists h. split; [exact Hh|].
  split; [exact (proj1 (proj2 (Hmap r h Hh)))|].
  split; [apply serialize_registered, Hh|].
  destruct (_findScriptObject h st) as [r'|] eqn:E.
  - exists r'. split; [reflexivity|]. apply (findScriptObject_Some h st r' E).
  - exfalso. exact (findScriptObject_None_inv h st r E Hin Hh).
Qed.

Lemma X16_witness :
  let actions := [Initialize "valid token";
                  Receive (InResult 1 (WBool true));
                  Receive (InResult 2 (WScriptObject 123));
                  Receive (InResult 3 (WArray []));
                  Receive (InResult 4 (WArray ["foo"]));
                  CallMethod 1%nat "foo" [VObject 0%nat]] in
  let st := state (run actions (start [HPlain] [])) in
  (callbacks_exist [HPlain] [] = true ∧ in_frames st 0%nat)
  ∧ is_Some (heap st !! 0%nat).
Proof.
  intros actions st.
  assert (H1 : callbacks_exist [HPlain] [] = true) by reflexivity.
  assert (H2 : in_frames st 0%nat)
    by (unfold in_frames; apply (bool_decide_unpack _); vm_compute; exact I).
  split; [split; assumption|].
  exact (proj1 (X16_what_is_in_a_frame_is_registered [HPlain] [] actions 0%nat H1 H2)).
Defined.

(** ** Property access that fails *)

(** X15.  Property access that fails.  An error reply to the "get"
    request of a getter, or to the "set" request of a setter, rejects the
    promise with that error and changes nothing.  A "get" reply that is
    null or an array cannot be decoded: the promise is rejected with
    "Unexpected value" and nothing is sent.  A reply with the number of
    another request leaves the promise waiting. *)
Theorem X15_property_access_that_fails :
  forall (serializedTarget : SerializedValue) (propertyName : string)
         (value : SerializableValue) (s s' : State),
    let get := snd (call_getter (Getter serializedTarget propertyName) s) in
    let set := snd (call_setter (Setter serializedTarget propertyName) value s) in
    (forall error,
       deliver (jrpc_id s) (ErrorReply error) get s' = (s', Rejected (RemoteError error)))
    ∧ (forall response,
         response = WNull ∨ (exists items, response = WArray items) ->
         deliver (jrpc_id s) (Result response) get s' = (s', Rejected (UnexpectedWire response)))
    ∧ (forall id reply, id ≠ jrpc_id s -> deliver id reply get s' = (s', get))
    ∧ (forall error serialized,
         _serialize value s = inr serialized ->
         deliver (jrpc_id s) (ErrorReply error) set s' = (s', Rejected (RemoteError error))).
Proof.
  intros serializedTarget propertyName value s s' get set.
  split; [|split; [|split]].
  - intros error. subst get. simpl. rewrite Nat.eqb_refl. reflexivity.
  - intros response [->|[items ->]]; subst get; simpl; rewrite Nat.eqb_refl; reflexivity.
  - intros id reply Hid. subst get. simpl.
    destruct (Nat.eqb_spec id (jrpc_id s)) as [Heq|_]; [contradiction|reflexivity].
  - intros error serialized Hser. subst set. simpl. unfold _createSetter.
    rewrite Hser. simpl. rewrite Nat.eqb_refl. reflexivity.
Qed.

(** ** Who applies the functions of the caller *)



(* ===================================================================== *)
(** ** The exchanges of the repository's tests (test/rpc-manager.ts) *)
(* ===================================================================== *)

(** 'initializes with global callbacks': [{foo: fn1, bar: fn2, baz: fn2}] *)
Example test_initializes_with_global_callbacks :
  sent (state (run (results_from 5 [WNum 0; WNum 0; WNum 0])
                   (session_with_root [returns_42; returns_42]
                      [("foo", 0%nat); ("bar", 1%nat); ("baz", 1%nat)]
                      [] ["registerCallback"])))
  = [OutRequest 1 "authenticate" (Some [WStr "valid token"]);
     OutRequest 2 "getRootObject" None;
     OutRequest 3 "listProperties" (Some [WScriptObject 123]);
     OutRequest 4 "listMethods" (Some [WScriptObject 123]);
     OutRequest 5 "execute"
       (Some [WScriptObject 123; WStr "registerCallback"; WStr "foo"; WScriptObject 1]);
     OutRequest 6 "execute"
       (Some [WScriptObject 123; WStr "registerCallback"; WStr "bar"; WScriptObject 2]);
     OutRequest 7 "execute"
       (Some [WScriptObject 123; WStr "registerCallback"; WStr "baz"; WScriptObject 2])].
Proof. vm_compute. reflexivity. Qed.

(** 'executes global callbacks' *)
Example test_executes_global_callbacks :
  let w := run (results_from 5 [WNum 0] ++ [Receive (InCallback 1000 1 [])])
               (session_with_root [returns_42] [("foo", 0%nat)] [] ["registerCallback"]) in
  last (sent (state w)) = Some (OutResult 1000 (WBool true))
  ∧ applied (state w) = [(0%nat, [])].
Proof. split; vm_compute; reflexivity. Qed.

(** 'serializes setter values properly': six writes under way at once *)
Example test_serializes_setter_values :
  sent (state (run [WriteProperty 0%nat "boolean" (VBool true);
                    WriteProperty 0%nat "number" (VNum 42);
                    WriteProperty 0%nat "string" (VStr "Hello");
                    WriteProperty 0%nat "emptyValue" VUndefined;
                    WriteProperty 0%nat "invalidObject" VNull;
                    WriteProperty 0%nat "validObject" (VObject 0%nat)]
                   (session_with_root [] []
                      ["emptyValue"; "invalidObject"; "validObject"; "boolean"; "number"; "string"]
                      [])))
  = [OutRequest 1 "authenticate" (Some [WStr "valid token"]);
     OutRequest 2 "getRootObject" None;
     OutRequest 3 "listProperties" (Some [WScriptObject 123]);
     OutRequest 4 "listMethods" (Some [WScriptObject 123]);
     OutRequest 5 "set" (Some [WScriptObject 123; WStr "boolean"; WBool true]);
     OutRequest 6 "set" (Some [WScriptObject 123; WStr "number"; WNum 42]);
     OutRequest 7 "set" (Some [WScriptObject 123; WStr "string"; WStr "Hello"]);
     OutRequest 8 "set" (Some [WScriptObject 123; WStr "emptyValue"; WEmpty]);
     OutRequest 9 "set" (Some [WScriptObject 123; WStr "invalidObject"; WScriptObject 0]);
     OutRequest 10 "set" (Some [WScriptObject 123; WStr "validObject"; WScriptObject 123])].
Proof. vm_compute. reflexivity. Qed.

(** 'deserializes getter values properly', the last read: the value is a
    handle, which is described again *)
Example test_deserializes_getter_values :
  let w := run [ReadProperty 0%nat "validObject";
                Receive (InResult 5 (WScriptObject 123));
                Receive (InResult 6 (WArray ["validObject"]));
                Receive (InResult 7 (WArray []))]
               (session_with_root [] [] ["validObject"] []) in
  promise 1 w = Some (inr (VObject 1%nat))
  ∧ drop 4 (sent (state w))
    = [OutRequest 5 "get" (Some [WScriptObject 123; WStr "validObject"]);
       OutRequest 6 "listProperties" (Some [WScriptObject 123]);
       OutRequest 7 "listMethods" (Some [WScriptObject 123])].
Proof. split; vm_compute; reflexivity. Qed.

(** 'serializes function arguments properly':
    [foo(true, 42, 'Hello', undefined, null, rootObject, fn1, fn2, fn1)] *)
Example test_serializes_function_arguments :
  let w := run [CallMethod 2%nat "foo"
                  [VBool true; VNum 42; VStr "Hello"; VUndefined; VNull; VObject 2%nat;
                   VObject 0%nat; VObject 1%nat; VObject 0%nat]]
               (session_with_root [returns_42; returns_42] [] [] ["foo"]) in
  last (sent (state w))
  = Some (OutRequest 5 "execute"
            (Some [WScriptObject 123; WStr "foo"; WBool true; WNum 42; WStr "Hello"; WEmpty;
                   WScriptObject 0; WScriptObject 123; WScriptObject 1; WScriptObject 2;
                   WScriptObject 1]))
  ∧ _scriptObjectListStack (state w) = [[2%nat; 0%nat; 1%nat; 0%nat]; []].
Proof. split; vm_compute; reflexivity. Qed.

(** 'calls non-global callbacks': the callback arrives while the call waits *)
Example test_calls_non_global_callbacks :
  let w := run [CallMethod 1%nat "foo" [VObject 0%nat];
                Receive (InCallback 1000 1 []);
                Receive (InResult 5 (WBool true))]
               (session_with_root [returns_42] [] [] ["foo"]) in
  drop 4 (sent (state w))
  = [OutRequest 5 "execute" (Some [WScriptObject 123; WStr "foo"; WScriptObject 1]);
     OutResult 1000 (WBool true)]
  ∧ applied (state w) = [(0%nat, [])]
  ∧ promise 1 w = Some (inr (VBool true))
  ∧ _scriptObjectListStack (state w) = [[]].
Proof. repeat split; vm_compute; reflexivity. Qed.

(** 'forgets non-global callbacks': the callback arrives after the reply *)
Example test_forgets_non_global_callbacks :
  let w := run [CallMethod 1%nat "foo" [VObject 0%nat];
                Receive (InResult 5 (WBool true));
                Receive (InCallback 1000 1 [])]
               (session_with_root [returns_42] [] [] ["foo"]) in
  drop 4 (sent (state w))
  = [OutRequest 5 "execute" (Some [WScriptObject 123; WStr "foo"; WScriptObject 1]);
     OutError 1000 (JSError "Function was not found - ID: 1")]
  ∧ applied (state w) = [].
Proof. split; vm_compute; reflexivity. Qed.

(** A callback with two handles as arguments: both are described at the
    same time, as [Promise.all] over the decodings goes, and the function
    is applied when the last description is complete. *)
Example callback_with_two_handles :
  let w0 := run [Receive (InCallback 1000 1 [WScriptObject 7; WNum 5; WScriptObject 8])]
                (start [returns_42] [("cb", 0%nat)]) in
  let w := run [Receive (InResult 2 (WArray []));
                Receive (InResult 1 (WArray ["x"]));
                Receive (InResult 4 (WArray []));
                Receive (InResult 3 (WArray ["go"]))] w0 in
  sent (state w0)
  = [OutRequest 1 "listProperties" (Some [WScriptObject 7]);
     OutRequest 2 "listProperties" (Some [WScriptObject 8])]
  ∧ applied (state w0) = []
  ∧ drop 2 (sent (state w))
    = [OutRequest 3 "listMethods" (Some [WScriptObject 8]);
       OutRequest 4 "listMethods" (Some [WScriptObject 7]);
       OutResult 1000 (WBool true)]
  ∧ applied (state w) = [(0%nat, [VObject 1%nat; VNum 5; VObject 2%nat])].
Proof. repeat split; vm_compute; reflexivity. Qed.
